(** * ORShuffle and distributed samplesort: a shallow embedding

    This development embeds the oblivious shuffle of [enclave/orshuffle.c]
    and the non-oblivious samplesort of [enclave/nonoblivious.c] as Rocq
    functions and states their properties.

    Conventions.
    - A [size_t] or [uint64_t] value is a [Z]; every place where the C
      arithmetic can wrap is written with [wrap64].
    - An array is a [list]; a pointer into it is a base index ([nat]).
      Array lengths and loop indices are [nat]: they index objects that
      exist in memory.
    - An [int] status is a [Z]; [0] is success. *)

From stdpp Require Import base numbers list.
From Stdlib Require Import ZArith Lia.

Local Open Scope Z_scope.

(** ** Machine arithmetic *)

Definition wrap64 (z : Z) : Z := z mod 2 ^ 64.

Definition b2z (b : bool) : Z := if b then 1 else 0.

(** [MIN] and [CEIL_DIV] of [common/defs.h], on array sizes. *)
Definition MIN (a b : nat) : nat := if (a <? b)%nat then a else b.
Definition CEIL_DIV (a b : nat) : nat := ((a + b - 1) / b)%nat.

(** ** Records *)

(** Modelled from the spec: [elem_t] of [common/elem_t.h] (absent): a 64-bit
    key, a 64-bit ORP id and an opaque payload. *)
Record elem_t := Elem { key : Z; orp_id : Z; payload : list Z }.

(** [struct sample] of [nonoblivious.c]. *)
Record sample := Sample { sample_key : Z; sample_orp_id : Z }.

Definition dummy_elem : elem_t := Elem 0 0 [].

(** [mem[i]] for an index inside the memory. *)
Definition elem_at (mem : list elem_t) (i : nat) : elem_t :=
  default dummy_elem (mem !! i).

(** ** Comparators *)

Module Comparator.

(** The C expression [(x > y) - (x < y)] on unsigned operands. *)
Definition three_way (x y : Z) : Z := b2z (x >? y) - b2z (x <? y).

Definition mergesort_comparator (a b : elem_t) : Z :=
  let comp_key := three_way (key a) (key b) in
  let comp_orp_id := three_way (orp_id a) (orp_id b) in
  Z.shiftl comp_key 1 + comp_orp_id.

Definition elem_sample_comparator (a : elem_t) (b : sample) : Z :=
  let comp_key := three_way (key a) (sample_key b) in
  let comp_orp_id := three_way (orp_id a) (sample_orp_id b) in
  Z.shiftl comp_key 1 + comp_orp_id.

(** The order the comparators implement: lexicographic on (key, ORP id),
    as a [comparison]. *)
Definition lex_compare (k1 o1 k2 o2 : Z) : comparison :=
  match k1 ?= k2 with
  | Eq => o1 ?= o2
  | c => c
  end.

Definition sign_of (c : comparison) : Z :=
  match c with Lt => -1 | Eq => 0 | Gt => 1 end.

End Comparator.

(** ** Loops *)

(** [for (i = start; i < start + n; i++) s = body i s]. *)
Fixpoint for_loop {St : Type} (n start : nat) (body : nat → St → St) (s : St)
    : St :=
  match n with
  | O => s
  | S n' => for_loop n' (S start) body (body start s)
  end.

(** ** Entropy *)

Module Crypto.

(** Modelled from the spec: [rand_read] and [rand_bit] of the entropy layer
    (only [common/crypto.h] is present).  A call returns a status and, on
    success, fills the caller's buffer with random bytes.  The entropy
    source is the infinite sequence of the outcomes of its calls: a status
    and the words the call writes. *)
Record draw := Draw { draw_ret : Z; draw_word : nat → Z }.

Definition entropy := nat → draw.

Definition entropy_next (e : entropy) : entropy := λ n, e (S n).

(** [rand_bit(&cond)] *)
Definition rand_bit (e : entropy) : Z * bool * entropy :=
  (draw_ret (e O), Z.odd (draw_word (e O) O), entropy_next e).

(** [rand_read(coins, n * sizeof(uint32_t))]: [coins[j]] for the words read. *)
Definition rand_read_u32 (e : entropy) : Z * (nat → Z) * entropy :=
  (draw_ret (e O), λ j, draw_word (e O) j mod 2 ^ 32, entropy_next e).

(** [rand_read(&x, sizeof(uint64_t))] *)
Definition rand_read_u64 (e : entropy) : Z * Z * entropy :=
  (draw_ret (e O), wrap64 (draw_word (e O) O), entropy_next e).

End Crypto.

(** ** The task pool *)

Module Threading.

(** Modelled from the spec: the iter-task of the task pool
    ([THREAD_WORK_ITER] with [thread_work_push], [thread_work_until_empty]
    and [thread_wait]; the [threading.c] at hand has single tasks only).
    "The iter-task's func(args, i) runs for i in [0, K) across all workers
    combined", "shards may execute in any order; the task is complete only
    after every shard has finished".  A run of the task is the order in
    which the shards take effect on the shared arguments. *)
Definition thread_work_iter {St : Type} (func : St → nat → St)
    (schedule : list nat) (args : St) : St :=
  foldl func args schedule.

Definition is_schedule (count : nat) (schedule : list nat) : Prop :=
  schedule ≡ₚ seq 0 count.

(** [__atomic_compare_exchange_n(ptr, expected, desired, ...)]: the new
    values of [*ptr] and [*expected]. *)
Definition atomic_compare_exchange_n (ptr expected desired : Z) : Z * Z :=
  if ptr =? expected then (desired, expected) else (ptr, ptr).

End Threading.

(** ** [enclave/threading.c]: the work queue *)

Module WorkQueue.

(** The queue of [enclave/threading.c]: [work_head], [work_tail] and
    [work_done], and the [next] field of every [struct thread_work].  A
    pointer to a work item is a number, [None] is [NULL].  The spin lock is
    left out: the functions are followed one call at a time. *)
Record pool := Pool {
  work_head : option nat;
  work_tail : option nat;
  work_done : bool;
  next : nat → option nat;
}.

Definition set_next (work : nat) (v : option nat) (next : nat → option nat)
    : nat → option nat :=
  λ w, if decide (w = work) then v else next w.

(** [thread_work_push(work)] *)
Definition thread_work_push (work : nat) (p : pool) : pool :=
  let next := set_next work None (next p) in
  match work_tail p with
  | None =>
    (* Empty list. Set head and tail. *)
    {| work_head := Some work; work_tail := Some work;
       work_done := work_done p; next := next |}
  | Some tail =>
    (* List has values. *)
    {| work_head := work_head p; work_tail := Some work;
       work_done := work_done p; next := set_next tail (Some work) next |}
  end.

(** [thread_work_pop()]: the item popped ([None] is [NULL]) and the queue
    left; no result when the call spins for ever on an empty queue that no
    one releases. *)
Definition thread_work_pop (p : pool) : option (option nat * pool) :=
  match work_head p with
  | None => if work_done p then Some (None, p) else None
  | Some work =>
    Some (Some work,
          {| work_head := next p work;
             work_tail := match next p work with
                          | None => None
                          | Some _ => work_tail p
                          end;
             work_done := work_done p; next := next p |})
  end.

(** [thread_release_all()] *)
Definition thread_release_all (p : pool) : pool :=
  {| work_head := work_head p; work_tail := work_tail p; work_done := true;
     next := next p |}.

(** [thread_unrelease_all()] *)
Definition thread_unrelease_all (p : pool) : pool :=
  {| work_head := work_head p; work_tail := work_tail p; work_done := false;
     next := next p |}.

(** The items reached from [h] along [next] are those of [l], in order. *)
Fixpoint linked (next : nat → option nat) (h : option nat) (l : list nat)
    : Prop :=
  match l with
  | [] => h = None
  | w :: l => h = Some w ∧ linked next (next w) l
  end.

(** The queue holds the items of [l], the head first. *)
Definition holds (p : pool) (l : list nat) : Prop :=
  linked (next p) (work_head p) l ∧ work_tail p = last l ∧ NoDup l.

(** [n] calls of [thread_work_pop]: the items popped and the queue left. *)
Fixpoint pop_many (n : nat) (p : pool) : option (list (option nat) * pool) :=
  match n with
  | O => Some ([], p)
  | S n =>
    match thread_work_pop p with
    | None => None
    | Some (w, p) =>
      match pop_many n p with
      | None => None
      | Some (ws, p) => Some (w :: ws, p)
      end
    end
  end.

End WorkQueue.

(** ** [enclave/orshuffle.c] *)

Module Orshuffle.
Import Crypto Threading.

Definition SWAP_CHUNK_SIZE : nat := 4096.
Definition MARK_COINS : nat := 2048.

(** The record array together with the log of the calls of [o_memswap]:
    the index pairs [(a, b)] of the records at [&arr[a]] and [&arr[b]], in
    the order of the calls. *)
Record omem := OMem { cells : list elem_t; swaps : list (nat * nat) }.

(** Modelled from the spec: [o_memswap] of liboblivious, "swaps the bytes at
    a and b iff cond is true". *)
Definition o_memswap (a b : nat) (cond : bool) (m : omem) : omem :=
  {| cells :=
       if cond then
         match cells m !! a, cells m !! b with
         | Some x, Some y => <[b := x]> (<[a := y]> (cells m))
         | _, _ => cells m
         end
       else cells m;
     swaps := swaps m ++ [(a, b)] |}.

Definition mark_at (marked : list bool) (i : nat) : bool :=
  default false (marked !! i).

Definition prefix_at (marked_prefix_sums : list Z) (i : nat) : Z :=
  default 0 (marked_prefix_sums !! i).

(** [arr] is the array at index [base]. *)
Definition swap_local_range (base length : nat) (offset left_marked_count : Z)
    (m : omem) : Z * omem :=
  let half := Z.of_nat (length / 2) in
  let s :=
    xorb (wrap64 (offset mod half + left_marked_count) >=? half)
         (offset >=? half) in
  (0, for_loop (length / 2) 0 (λ i m,
        let cond :=
          xorb s (Z.of_nat i >=? wrap64 (offset + left_marked_count) mod half) in
        o_memswap (base + i) (base + i + length / 2) cond m) m).

Definition swap_range (base length : nat) (offset left_marked_count : Z)
    (m : omem) : Z * omem :=
  let '(_, m) := swap_local_range base length offset left_marked_count m in
  (0, m).

(** [compact(arr, marked, marked_prefix_sums, length, offset)].  The three
    pointers advance together, so one [base] index stands for them.  The
    recursion halves [length]; [fuel] bounds its depth and [None] is a run
    out of fuel. *)
Fixpoint compact_fuel (fuel : nat) (marked : list bool)
    (marked_prefix_sums : list Z) (base length : nat) (offset : Z) (m : omem)
    : option (Z * omem) :=
  match fuel with
  | O => None
  | S fuel =>
    if (length <? 2)%nat then Some (0, m)
    else if (length =? 2)%nat then
      let cond :=
        xorb (negb (mark_at marked base) && mark_at marked (base + 1))
             (negb (offset =? 0)) in
      Some (0, o_memswap base (base + 1) cond m)
    else
      let mid_idx := (length / 2 - 1)%nat in
      let mid_prefix_sum := prefix_at marked_prefix_sums (base + mid_idx) in
      let left_marked_count :=
        wrap64 (wrap64 (mid_prefix_sum - prefix_at marked_prefix_sums base)
                + b2z (mark_at marked base)) in
      match compact_fuel fuel marked marked_prefix_sums base (length / 2)
              (offset mod Z.of_nat (length / 2)) m with
      | None => None
      | Some (ret, m) =>
        if negb (ret =? 0) then Some (ret, m) else
        match compact_fuel fuel marked marked_prefix_sums
                (base + length / 2) (length / 2)
                (wrap64 (offset + left_marked_count) mod Z.of_nat (length / 2))
                m with
        | None => None
        | Some (ret, m) =>
          if negb (ret =? 0) then Some (ret, m) else
          Some (swap_range base length offset left_marked_count m)
        end
      end
  end.

Definition compact (marked : list bool) (marked_prefix_sums : list Z)
    (base length : nat) (offset : Z) (m : omem) : option (Z * omem) :=
  compact_fuel (S length) marked marked_prefix_sums base length offset m.

(** The state of [shuffle]: the records, the two marker arrays and the
    entropy source. *)
Record shuffle_state := ShuffleState {
  mem : omem;
  marked : list bool;
  marked_prefix_sums : list Z;
  rng : entropy;
}.

(** The locals of the marking loop. *)
Record mark_state := MarkState {
  mk_marked : list bool;
  mk_prefix_sums : list Z;
  total_left : Z;
  marked_so_far : Z;
}.

(** The body of the inner marking loop, at chunk start [i] and coin [j]. *)
Definition mark_elem (base num_to_mark i : nat) (coins : nat → Z) (j : nat)
    (s : mark_state) : mark_state :=
  let cur_marked :=
    Z.shiftr (wrap64 (coins j * total_left s)) 32
      >=? wrap64 (Z.of_nat num_to_mark - marked_so_far s) in
  let marked_so_far := wrap64 (marked_so_far s + b2z cur_marked) in
  {| mk_marked := <[(base + (i + j))%nat := cur_marked]> (mk_marked s);
     mk_prefix_sums := <[(base + (i + j))%nat := marked_so_far]> (mk_prefix_sums s);
     total_left := wrap64 (total_left s - 1);
     marked_so_far := marked_so_far |}.

(** The outer marking loop [for (i = 0; i < length; i += MARK_COINS)], with
    [chunks] iterations left. *)
Fixpoint mark_chunks (chunks : nat) (base length num_to_mark i : nat)
    (e : entropy) (s : mark_state) : Z * entropy * mark_state :=
  match chunks with
  | O => (0, e, s)
  | S chunks =>
    let elems_to_mark := MIN (length - i) MARK_COINS in
    let '(ret, coins, e) := rand_read_u32 e in
    if negb (ret =? 0) then (ret, e, s) else
    let s := for_loop (MIN (length - i) MARK_COINS) 0
               (mark_elem base num_to_mark i coins) s in
    mark_chunks chunks base length num_to_mark (i + MARK_COINS) e s
  end.

(** The marking phase of [shuffle] (lines 150 to 174). *)
Definition mark_phase (base length : nat) (s : shuffle_state)
    : Z * shuffle_state :=
  let num_to_mark := (length / 2)%nat in
  let '(ret, e, ms) :=
    mark_chunks (CEIL_DIV length MARK_COINS) base length num_to_mark 0 (rng s)
      {| mk_marked := marked s; mk_prefix_sums := marked_prefix_sums s;
         total_left := Z.of_nat length; marked_so_far := 0 |} in
  (ret, {| mem := mem s; marked := mk_marked ms;
           marked_prefix_sums := mk_prefix_sums ms; rng := e |}).

Fixpoint shuffle_fuel (fuel : nat) (base length : nat) (s : shuffle_state)
    : option (Z * shuffle_state) :=
  match fuel with
  | O => None
  | S fuel =>
    if (length <? 2)%nat then Some (0, s)
    else if (length =? 2)%nat then
      let '(ret, cond, e) := rand_bit (rng s) in
      if negb (ret =? 0) then
        Some (ret, {| mem := mem s; marked := marked s;
                      marked_prefix_sums := marked_prefix_sums s; rng := e |})
      else
        Some (ret, {| mem := o_memswap base (base + 1) cond (mem s);
                      marked := marked s;
                      marked_prefix_sums := marked_prefix_sums s; rng := e |})
    else
      let '(ret, s) := mark_phase base length s in
      if negb (ret =? 0) then Some (ret, s) else
      match compact (marked s) (marked_prefix_sums s) base length 0 (mem s) with
      | None => None
      | Some (ret, m) =>
        let s := {| mem := m; marked := marked s;
                    marked_prefix_sums := marked_prefix_sums s; rng := rng s |} in
        if negb (ret =? 0) then Some (ret, s) else
        match shuffle_fuel fuel base (length / 2) s with
        | None => None
        | Some (ret, s) =>
          if negb (ret =? 0) then Some (ret, s) else
          match shuffle_fuel fuel (base + length / 2) (length / 2) s with
          | None => None
          | Some (ret, s) =>
            if negb (ret =? 0) then Some (ret, s) else Some (0, s)
          end
        end
      end
  end.

Definition shuffle (base length : nat) (s : shuffle_state)
    : option (Z * shuffle_state) :=
  shuffle_fuel (S length) base length s.

(** *** ORP ids *)

(** [struct assign_random_id_args]; [aa_arr] is the array behind [arr]. *)
Record assign_random_id_args := AssignRandomIdArgs {
  aa_arr : list elem_t;
  aa_length : nat;
  aa_start_idx : nat;
  aa_num_threads : nat;
  aa_ret : Z;
}.

Definition set_orp_id (v : Z) (x : elem_t) : elem_t :=
  {| key := key x; orp_id := v; payload := payload x |}.

(** [for (j = start; j < end; j++)] of [assign_random_id], with [n]
    iterations left; a failed read leaves the loop. *)
Fixpoint assign_loop (n j : nat) (arr : list elem_t) (e : entropy)
    : Z * list elem_t * entropy :=
  match n with
  | O => (0, arr, e)
  | S n =>
    let '(ret, v, e) := rand_read_u64 e in
    if negb (ret =? 0) then (ret, arr, e)
    else assign_loop n (S j) (alter (set_orp_id v) j arr) e
  end.

(** One shard of the iter-task; the entropy source travels with the
    arguments. *)
Definition assign_random_id (st : assign_random_id_args * entropy) (i : nat)
    : assign_random_id_args * entropy :=
  let '(args, e) := st in
  let length := Z.of_nat (aa_length args) in
  let num_threads := Z.of_nat (aa_num_threads args) in
  let start := Z.to_nat (wrap64 (Z.of_nat i * length) / num_threads) in
  let end_ := Z.to_nat (wrap64 (wrap64 (Z.of_nat i + 1) * length) / num_threads) in
  let '(ret, arr, e) := assign_loop (end_ - start) start (aa_arr args) e in
  let args_ret :=
    if negb (ret =? 0) then
      let expected := 0 in
      (atomic_compare_exchange_n (aa_ret args) expected ret).1
    else aa_ret args in
  ({| aa_arr := arr; aa_length := aa_length args;
      aa_start_idx := aa_start_idx args;
      aa_num_threads := aa_num_threads args; aa_ret := args_ret |}, e).

(** Lines 272 to 290 of [orshuffle_sort]: the iter-task that assigns the
    ORP ids, and the status it leaves in [assign_random_id_args.ret]. *)
Definition assign_orp_ids (arr : list elem_t) (length num_threads : nat)
    (e : entropy) (schedule : list nat) : Z * list elem_t * entropy :=
  let assign_random_id_args :=
    {| aa_arr := arr; aa_length := 0; aa_start_idx := length;
       aa_num_threads := num_threads; aa_ret := 0 |} in
  let '(args, e) :=
    thread_work_iter assign_random_id schedule (assign_random_id_args, e) in
  (aa_ret args, aa_arr args, e).

(** What [orshuffle_sort] takes from its environment: the statuses of the
    two [clock_gettime] calls, the two [malloc]s (an [errno], 0 on success,
    and the uninitialised block), the entropy source and the order in which
    the shards of the iter-task run. *)
Record environment := Environment {
  clock_start : Z;
  malloc_marked : Z * list bool;
  malloc_marked_prefix_sums : Z * list Z;
  clock_shuffle : Z;
  entropy_source : entropy;
  assign_schedule : list nat;
}.

Section OrshuffleSort.

(** [nonoblivious_sort(arr, buf, length, local_length, num_threads)] as
    [orshuffle_sort] calls it: the memory, the index of [buf] in it and the
    three sizes.  ([nonoblivious.c] at hand defines it with four
    parameters and no output pointer.) *)
Variable nonoblivious_sort :
  list elem_t → nat → nat → nat → nat → Z * list elem_t.

Definition orshuffle_sort (env : environment) (arr : list elem_t)
    (length num_threads : nat) : option (Z * list elem_t) :=
  if negb (clock_start env =? 0) then Some (clock_start env, arr) else
  if negb ((malloc_marked env).1 =? 0) then Some ((malloc_marked env).1, arr) else
  if negb ((malloc_marked_prefix_sums env).1 =? 0)
  then Some ((malloc_marked_prefix_sums env).1, arr) else
  match shuffle 0 length
          {| mem := {| cells := arr; swaps := [] |};
             marked := (malloc_marked env).2;
             marked_prefix_sums := (malloc_marked_prefix_sums env).2;
             rng := entropy_source env |} with
  | None => None
  | Some (ret, s) =>
    let arr := cells (mem s) in
    if negb (ret =? 0) then Some (ret, arr) else
    let '(ret, arr, e) :=
      assign_orp_ids arr length num_threads (rng s) (assign_schedule env) in
    if negb (ret =? 0) then Some (ret, arr) else
    if negb (clock_shuffle env =? 0) then Some (clock_shuffle env, arr) else
    let buf := Nat.max (length * 2) 512 in
    let '(ret, arr) := nonoblivious_sort arr buf length length num_threads in
    if negb (ret =? 0) then Some (ret, arr) else
    Some (ret, take length (drop buf arr) ++ drop length arr)
  end.

End OrshuffleSort.

(** *** The swap schedule

    The index pairs that a run over [length] records hands to [o_memswap],
    written as functions of [base] and [length] alone. *)

Definition range_schedule (base length : nat) : list (nat * nat) :=
  map (λ i, (base + i, base + i + length / 2)%nat) (seq 0 (length / 2)).

Fixpoint compact_schedule (fuel base length : nat) : list (nat * nat) :=
  match fuel with
  | O => []
  | S fuel =>
    if (length <? 2)%nat then []
    else if (length =? 2)%nat then [(base, (base + 1)%nat)]
    else compact_schedule fuel base (length / 2)
         ++ compact_schedule fuel (base + length / 2) (length / 2)
         ++ range_schedule base length
  end.

Fixpoint shuffle_schedule (fuel base length : nat) : list (nat * nat) :=
  match fuel with
  | O => []
  | S fuel =>
    if (length <? 2)%nat then []
    else if (length =? 2)%nat then [(base, (base + 1)%nat)]
    else compact_schedule (S length) base length
         ++ shuffle_schedule fuel base (length / 2)
         ++ shuffle_schedule fuel (base + length / 2) (length / 2)
  end.

(** *** What compaction is about *)

(** The number of marked positions among [base .. base + i - 1]. *)
Fixpoint rank (marked : list bool) (base i : nat) : nat :=
  match i with
  | O => O
  | S i' => (rank marked base i' + if mark_at marked (base + i') then 1 else 0)%nat
  end.

(** The array [marked_prefix_sums] holds the running count of marks, up to
    the constant [c0] that a pointer into the middle of it leaves behind. *)
Definition prefix_sums_from (c0 : Z) (marked : list bool)
    (marked_prefix_sums : list Z) (base length : nat) : Prop :=
  ∀ i, (i < length)%nat →
    prefix_at marked_prefix_sums (base + i)
    = c0 + Z.of_nat (rank marked base (S i)).

(** The records of [l] at the positions that [marks] selects, in order. *)
Fixpoint select {A : Type} (marks : list bool) (l : list A) : list A :=
  match marks, l with
  | b :: marks, x :: l => if b then x :: select marks l else select marks l
  | _, _ => []
  end.

(** The condition under which [swap_local_range] swaps the pair at [i]. *)
Definition swap_cond (half offset left_marked_count i : Z) : bool :=
  xorb (xorb (offset mod half + left_marked_count >=? half) (offset >=? half))
       (i >=? (offset + left_marked_count) mod half).

(** What the marking loop keeps true after [k] positions. *)
Definition marking_inv (base lenM lenP k : nat) (s : mark_state) : Prop :=
  length (mk_marked s) = lenM ∧ length (mk_prefix_sums s) = lenP
  ∧ marked_so_far s = Z.of_nat (rank (mk_marked s) base k)
  ∧ ∀ t, (t < k)%nat →
      prefix_at (mk_prefix_sums s) (base + t)
      = Z.of_nat (rank (mk_marked s) base (S t)).

(** *** What the further properties are about *)

(** The pair [ab] of indices lies in [base .. base + length), in order. *)
Definition in_window (base length : nat) (ab : nat * nat) : Prop :=
  (base ≤ ab.1)%nat ∧ (ab.1 < ab.2)%nat ∧ (ab.2 < base + length)%nat.

(** [c'] is [c] outside of [base .. base + length). *)
Definition untouched (base length : nat) (c c' : list elem_t) : Prop :=
  ∀ p, ¬ (base ≤ p < base + length)%nat → c' !! p = c !! p.


(** The ORP id that the draw number [d] of the entropy source gives. *)
Definition drawn_id (e : entropy) (d : nat) : Z := wrap64 (draw_word (e d) 0).

(** The first index of shard [i] of [length] records over [num_threads]
    shards. *)
Definition shard_bound (length num_threads i : nat) : nat :=
  (i * length / num_threads)%nat.

End Orshuffle.

(** ** [enclave/nonoblivious.c]: the local merge sort *)

Module Mergesort.
Import Comparator Threading.

Definition BUF_SIZE : nat := 1024.

Section WithQsort.

(** libc's [qsort] with [mergesort_comparator], on the run handed to it. *)
Variable qsort : list elem_t → list elem_t.

(** [struct mergesort_first_pass_args], with the memory behind [arr]. *)
Record mergesort_first_pass_args := MergesortFirstPassArgs {
  fp_mem : list elem_t;
  fp_arr : nat;
  fp_length : nat;
}.

Definition mergesort_first_pass (args : mergesort_first_pass_args)
    (run_idx : nat) : mergesort_first_pass_args :=
  let run_start := (run_idx * BUF_SIZE)%nat in
  let run_length := MIN (fp_length args - run_start) BUF_SIZE in
  let first := (fp_arr args + run_start)%nat in
  {| fp_mem := take first (fp_mem args)
               ++ qsort (take run_length (drop first (fp_mem args)))
               ++ drop (first + run_length) (fp_mem args);
     fp_arr := fp_arr args; fp_length := fp_length args |}.

(** [struct mergesort_pass_args]; [input] and [output] are indices into
    the memory [mp_mem]. *)
Record mergesort_pass_args := MergesortPassArgs {
  mp_mem : list elem_t;
  mp_input : nat;
  mp_output : nat;
  mp_length : nat;
  mp_run_length : nat;
  mp_ret : Z;
}.

(** The locals of the scan for the lowest head. *)
Record scan_state := ScanState {
  all_done : bool;
  lowest_run : nat;
  lowest_idx : nat;
}.

(** The body of [for (j = 0; j < num_runs; j++)]. *)
Definition scan_run (args : mergesort_pass_args) (run_start : nat)
    (merge_indices : list nat) (j : nat) (s : scan_state) : scan_state :=
  let merge_index := default O (merge_indices !! j) in
  let run_idx := (j * mp_run_length args + merge_index)%nat in
  if (mp_run_length args <=? merge_index)%nat
     || (mp_length args <=? run_start + run_idx)%nat
  then s
  else if all_done s
          || (mergesort_comparator
                (elem_at (mp_mem args) (mp_input args + (run_start + run_idx)))
                (elem_at (mp_mem args) (mp_input args + (run_start + lowest_idx s)))
              <? 0)
  then {| all_done := false; lowest_run := j; lowest_idx := run_idx |}
  else {| all_done := false; lowest_run := lowest_run s;
          lowest_idx := lowest_idx s |}.

(** The [do ... while (!all_done)] loop; [None] is a run out of fuel. *)
Fixpoint merge_loop (fuel : nat) (args : mergesort_pass_args)
    (run_start num_runs : nat) (merge_indices : list nat) (output_idx : nat)
    : option mergesort_pass_args :=
  match fuel with
  | O => None
  | S fuel =>
    let s := for_loop num_runs 0 (scan_run args run_start merge_indices)
               {| all_done := true; lowest_run := O; lowest_idx := O |} in
    if all_done s then Some args
    else
      let mem :=
        <[(mp_output args + (run_start + output_idx))%nat :=
            elem_at (mp_mem args) (mp_input args + (run_start + lowest_idx s))]>
          (mp_mem args) in
      merge_loop fuel
        {| mp_mem := mem; mp_input := mp_input args;
           mp_output := mp_output args; mp_length := mp_length args;
           mp_run_length := mp_run_length args; mp_ret := mp_ret args |}
        run_start num_runs (alter S (lowest_run s) merge_indices)
        (S output_idx)
  end.

(** One shard of a merge pass.  [malloc_errno] is the outcome of its
    [malloc]: 0, or the [errno] of the failure. *)
Definition mergesort_pass (malloc_errno : nat → Z)
    (args : mergesort_pass_args) (run_idx : nat) : option mergesort_pass_args :=
  let run_start := (run_idx * mp_run_length args * BUF_SIZE)%nat in
  let num_runs :=
    MIN (CEIL_DIV (mp_length args - run_start) (mp_run_length args)) BUF_SIZE in
  if negb (malloc_errno run_idx =? 0) then
    let ret := malloc_errno run_idx in
    (* exit: *)
    let args_ret :=
      if negb (ret =? 0)
      then (atomic_compare_exchange_n (mp_ret args) ret 0).1
      else mp_ret args in
    Some {| mp_mem := mp_mem args; mp_input := mp_input args;
            mp_output := mp_output args; mp_length := mp_length args;
            mp_run_length := mp_run_length args; mp_ret := args_ret |}
  else
    (* ret = 0, nothing to publish *)
    merge_loop (S (mp_length args)) args run_start num_runs
      (replicate num_runs O) O.

(** The merge passes of [mergesort], [run_length] multiplying by
    [BUF_SIZE]; the result is the status, the memory and which of the two
    arrays is [input] now. *)
Fixpoint mergesort_passes (fuel : nat) (malloc_errno : nat → nat → Z)
    (schedule : nat → list nat) (mem : list elem_t)
    (input output length run_length : nat)
    : option (Z * list elem_t * nat) :=
  if (run_length <? length)%nat then
    match fuel with
    | O => None
    | S fuel =>
      let args :=
        {| mp_mem := mem; mp_input := input; mp_output := output;
           mp_length := length; mp_run_length := run_length; mp_ret := 0 |} in
      match thread_work_iter
              (λ st i, st ≫= λ a, mergesort_pass (malloc_errno run_length) a i)
              (schedule run_length) (Some args) with
      | None => None
      | Some args =>
        let ret := mp_ret args in
        if negb (ret =? 0) then Some (ret, mp_mem args, input)
        else mergesort_passes fuel malloc_errno schedule (mp_mem args)
               output input length (run_length * BUF_SIZE)
      end
    end
  else Some (0, mem, input).

(** [mergesort(arr, out, length)] on the memory [mem]. *)
Definition mergesort (malloc_errno : nat → nat → Z)
    (first_schedule : list nat) (schedule : nat → list nat)
    (mem : list elem_t) (arr out length : nat) : option (Z * list elem_t) :=
  let args :=
    thread_work_iter mergesort_first_pass first_schedule
      {| fp_mem := mem; fp_arr := arr; fp_length := length |} in
  match mergesort_passes length malloc_errno schedule (fp_mem args)
          arr out length BUF_SIZE with
  | None => None
  | Some (ret, mem, input) =>
    if negb (ret =? 0) then Some (ret, mem)
    else if negb (input =? out)%nat then
      Some (0, take out mem ++ take length (drop input mem)
               ++ drop (out + length) mem)
    else Some (0, mem)
  end.

End WithQsort.

End Mergesort.

(** ** [enclave/nonoblivious.c]: the distributed quickselect *)

Module Quickselect.
Import Comparator.

(** What one worker holds: its slice of the records and the two output
    arrays of [distributed_quickselect]. *)
Record worker := Worker {
  w_arr : list elem_t;
  w_samples : list sample;
  w_sample_idxs : list Z;
}.

Inductive partition_state := PARTITION_SCAN_LEFT | PARTITION_SCAN_RIGHT.

(** [while (partition_left < partition_right)], with [fuel] turns left;
    [None] is a run out of fuel. *)
Fixpoint partition_loop (fuel : nat) (pivot : sample) (arr : list elem_t)
    (partition_left partition_right : nat) (state : partition_state)
    : option (list elem_t * nat * nat) :=
  if (partition_left <? partition_right)%nat then
    match fuel with
    | O => None
    | S fuel =>
      match state with
      | PARTITION_SCAN_LEFT =>
        if elem_sample_comparator (elem_at arr partition_left) pivot >? 0
        then partition_loop fuel pivot arr partition_left partition_right
               PARTITION_SCAN_RIGHT
        else partition_loop fuel pivot arr (S partition_left) partition_right
               PARTITION_SCAN_LEFT
      | PARTITION_SCAN_RIGHT =>
        if elem_sample_comparator (elem_at arr (partition_right - 1)) pivot <? 0
        then
          let temp := elem_at arr (partition_right - 1) in
          let arr := <[(partition_right - 1)%nat := elem_at arr partition_left]> arr in
          let arr := <[partition_left := temp]> arr in
          partition_loop fuel pivot arr (S partition_left) (partition_right - 1)
            PARTITION_SCAN_LEFT
        else partition_loop fuel pivot arr partition_left (partition_right - 1)
               PARTITION_SCAN_RIGHT
      end
    end
  else Some (arr, partition_left, partition_right).

(** Lines 298 to 350 on one worker: the partition of [arr[left .. right)]
    around the pivot, and on the master the swap of the pivot into the
    centre.  The result is [arr], [partition_left] and [partition_right]. *)
Definition partition (is_master : bool) (pivot : sample) (arr : list elem_t)
    (left right : nat) : option (list elem_t * nat * nat) :=
  let partition_left := (left + if is_master then 1 else 0)%nat in
  match partition_loop (2 * (right - left) + 2) pivot arr partition_left right
          PARTITION_SCAN_LEFT with
  | None => None
  | Some (arr, partition_left, partition_right) =>
    if is_master then
      let temp := elem_at arr (partition_right - 1) in
      let arr := <[(partition_right - 1)%nat := elem_at arr left]> arr in
      let arr := <[left := temp]> arr in
      Some (arr, partition_left, (partition_right - 1)%nat)
    else Some (arr, partition_left, partition_right)
  end.

(** The election of the master from the readiness flags, as each worker
    computes it: [flags[i]] is what worker [i] sent, [left < right]. *)
Definition elect_master (flags : list bool) : Z :=
  for_loop (length flags) 0
    (λ i master_rank,
       let is_ready := default false (flags !! i) in
       if is_ready && ((master_rank =? -1) || (Z.of_nat i <? master_rank))
       then Z.of_nat i else master_rank)
    (-1).

(** The rank of the pivot as the master sums it: its own
    [partition_right], then the one of every other worker in rank order. *)
Definition gather_cur_pivot (master_rank : nat) (partition_rights : list nat)
    : Z :=
  for_loop (length partition_rights) 0
    (λ i cur_pivot,
       if (i =? master_rank)%nat then cur_pivot
       else wrap64 (cur_pivot + Z.of_nat (default O (partition_rights !! i))))
    (Z.of_nat (default O (partition_rights !! master_rank))).

(** Modelled from the spec: [bsearch_ge] with [comp_ul] of [common/util.c]
    (absent): "via binary search, split targets into {< cur_pivot,
    = cur_pivot, > cur_pivot}".  On the sorted [targets] it is the index
    of the first target that is not less than the key, and their number
    when there is none. *)
Fixpoint bsearch_ge (key : Z) (targets : list Z) : nat :=
  match targets with
  | [] => O
  | t :: targets => if key <=? t then O else S (bsearch_ge key targets)
  end.

Definition set_sample (i : nat) (pivot : sample) (partition_right : nat)
    (w : worker) : worker :=
  {| w_arr := w_arr w;
     w_samples := <[i := pivot]> (w_samples w);
     w_sample_idxs := <[i := Z.of_nat partition_right]> (w_sample_idxs w) |}.

(** The result of the partition on one worker, put back into the worker. *)
Record partitioned := Partitioned {
  p_worker : worker;
  p_left : nat;
  p_right : nat;
}.

Definition partition_worker (master_rank : nat) (pivot : sample)
    (rank : nat) (w : worker) (window : nat * nat) : option partitioned :=
  match partition (rank =? master_rank)%nat pivot (w_arr w)
          window.1 window.2 with
  | None => None
  | Some (arr, partition_left, partition_right) =>
    Some {| p_worker := {| w_arr := arr; w_samples := w_samples w;
                           w_sample_idxs := w_sample_idxs w |};
            p_left := partition_left; p_right := partition_right |}
  end.

(** Modelled from the spec: the blocking [mpi_tls_send_bytes] and
    [mpi_tls_recv_bytes] (absent), "within a (peer, tag) stream, FIFO
    delivery is required", "quickselect rounds are globally synchronous".
    All workers run [distributed_quickselect_helper] in lockstep on the same
    targets: what a worker receives from a peer is what the peer sent in
    the same round.  A failed send or receive makes the helper return
    non-zero; those runs are left out.

    [windows] holds [left] and [right] of every worker; [targets],
    [samples] and [sample_idxs] are the arrays at index [tbase]. *)
Fixpoint distributed_quickselect_helper (fuel : nat) (targets : list Z)
    (workers : list worker) (tbase num_targets : nat)
    (windows : list (nat * nat)) : option (Z * list worker) :=
  match fuel with
  | O => None
  | S fuel =>
    if (num_targets =? 0)%nat then Some (0, workers) else
    let master_rank := elect_master ((λ w, (w.1 <? w.2)%nat) <$> windows) in
    if master_rank =? -1 then Some (-1, workers) else
    let master := Z.to_nat master_rank in
    (* Use first elem as pivot. *)
    let first :=
      elem_at (w_arr (default (Worker [] [] []) (workers !! master)))
              (default (O, O) (windows !! master)).1 in
    let pivot := {| sample_key := key first; sample_orp_id := orp_id first |} in
    match mapM id (imap (λ rank ww, partition_worker master pivot rank ww.1 ww.2)
                        (zip workers windows)) with
    | None => None
    | Some parts =>
      let cur_pivot := gather_cur_pivot master (p_right <$> parts) in
      let geq_target_idx :=
        bsearch_ge cur_pivot (take num_targets (drop tbase targets)) in
      let found_target :=
        (geq_target_idx <? num_targets)%nat
        && (default 0 (targets !! (tbase + geq_target_idx)%nat) =? cur_pivot) in
      let gt_target_idx :=
        (geq_target_idx + if found_target then 1 else 0)%nat in
      let workers :=
        (λ p, if found_target
              then set_sample (tbase + geq_target_idx) pivot (p_right p)
                     (p_worker p)
              else p_worker p) <$> parts in
      (* Targets less than pivot. *)
      match distributed_quickselect_helper fuel targets workers tbase
              geq_target_idx
              (zip_with (λ w p, (w.1, p_right p)) windows parts) with
      | None => None
      | Some (ret, workers) =>
        if negb (ret =? 0) then Some (ret, workers) else
        (* Targets greater than pivot. *)
        distributed_quickselect_helper fuel targets workers
          (tbase + gt_target_idx) (num_targets - gt_target_idx)
          (zip_with (λ w p, (p_left p, w.2)) windows parts)
      end
    end
  end.

(** [distributed_quickselect] on every worker: the window of worker [r] is
    its whole slice. *)
Definition distributed_quickselect (targets : list Z) (workers : list worker)
    : option (Z * list worker) :=
  distributed_quickselect_helper
    (S (sum_list ((λ w, length (w_arr w)) <$> workers)))
    targets workers 0 (length targets)
    ((λ w, (O, length (w_arr w))) <$> workers).

End Quickselect.

(** *** What the quickselect is about *)

Module QuickselectSpec.
Import Comparator Quickselect.

Definition sample_of (x : elem_t) : sample :=
  {| sample_key := key x; sample_orp_id := orp_id x |}.

Definition sample_le (p q : sample) : Prop :=
  sample_key p < sample_key q
  ∨ (sample_key p = sample_key q ∧ sample_orp_id p ≤ sample_orp_id q).

Definition window_stable (lo hi : nat) (arr arr' : list elem_t) : Prop :=
  length arr' = length arr
  ∧ arr' ≡ₚ arr
  ∧ (∀ j, ¬ (lo ≤ j < hi)%nat → arr' !! j = arr !! j)
  ∧ (∀ j x, (lo ≤ j < hi)%nat → arr' !! j = Some x →
       ∃ j', (lo ≤ j' < hi)%nat ∧ arr !! j' = Some x).

Definition below (pivot : sample) (arr : list elem_t) (lo hi : nat) : Prop :=
  ∀ j x, (lo ≤ j < hi)%nat → arr !! j = Some x → sample_le (sample_of x) pivot.

Definition above (pivot : sample) (arr : list elem_t) (lo hi : nat) : Prop :=
  ∀ j x, (lo ≤ j < hi)%nat → arr !! j = Some x → sample_le pivot (sample_of x).

(** What [partition] leaves on one worker. *)
Definition partitioned_ok (pivot : sample) (lo hi : nat) (arr arr' : list elem_t)
    (pl pr : nat) : Prop :=
  (lo ≤ pr)%nat ∧ (pr ≤ pl)%nat ∧ (pl ≤ hi)%nat
  ∧ window_stable lo hi arr arr'
  ∧ below pivot arr' lo pl ∧ above pivot arr' pr hi.

(** The sum of [l], whose first element has index [k], without the element
    of index [m]. *)
Fixpoint skip_sum (m k : nat) (l : list nat) : nat :=
  match l with
  | [] => O
  | x :: l => ((if (k =? m)%nat then O else x) + skip_sum m (S k) l)%nat
  end.

Definition total_records (ws : list worker) : nat :=
  sum_list_with (λ w, length (w_arr w)) ws.

Fixpoint idx_sum (i : nat) (ws : list worker) : Z :=
  match ws with
  | [] => 0
  | w :: ws => default 0 (w_sample_idxs w !! i) + idx_sum i ws
  end.

(** The arguments of a call are in range on every worker. *)
Definition call_wf (ws : list worker) (windows : list (nat * nat)) (thi : nat)
    : Prop :=
  length windows = length ws
  ∧ ∀ r w win, ws !! r = Some w → windows !! r = Some win →
      (win.1 ≤ win.2)%nat ∧ (win.2 ≤ length (w_arr w))%nat
      ∧ (thi ≤ length (w_samples w))%nat
      ∧ (thi ≤ length (w_sample_idxs w))%nat.

(** What a call may change on one worker: the records of its window among
    themselves, and the outputs for its targets. *)
Definition worker_step (win : nat * nat) (tlo thi : nat) (w w' : worker)
    : Prop :=
  window_stable win.1 win.2 (w_arr w) (w_arr w')
  ∧ length (w_samples w') = length (w_samples w)
  ∧ length (w_sample_idxs w') = length (w_sample_idxs w)
  ∧ ∀ i, ¬ (tlo ≤ i < thi)%nat →
      w_samples w' !! i = w_samples w !! i
      ∧ w_sample_idxs w' !! i = w_sample_idxs w !! i.

Definition call_step (windows : list (nat * nat)) (tlo thi : nat)
    (ws ws' : list worker) : Prop :=
  length ws' = length ws
  ∧ ∀ r w w' win, ws !! r = Some w → ws' !! r = Some w' →
      windows !! r = Some win → worker_step win tlo thi w w'.

(** On worker [w'] the sample [p] of target [i] splits the window. *)
Definition split_at (p : sample) (i : nat) (win : nat * nat) (w' : worker)
    : Prop :=
  ∃ idx, (win.1 ≤ idx)%nat ∧ (idx ≤ win.2)%nat
    ∧ w_sample_idxs w' !! i = Some (Z.of_nat idx)
    ∧ w_samples w' !! i = Some p
    ∧ below p (w_arr w') win.1 idx ∧ above p (w_arr w') idx win.2.

Definition in_windows (p : sample) (ws : list worker)
    (windows : list (nat * nat)) : Prop :=
  ∃ r w win j x, ws !! r = Some w ∧ windows !! r = Some win
    ∧ (win.1 ≤ j < win.2)%nat ∧ w_arr w !! j = Some x ∧ sample_of x = p.

Definition selected (targets : list Z) (ws : list worker)
    (windows : list (nat * nat)) (ws' : list worker) (i : nat) : Prop :=
  ∃ p, in_windows p ws windows
    ∧ (∀ r w' win, ws' !! r = Some w' → windows !! r = Some win →
         split_at p i win w')
    ∧ targets !! i = Some (idx_sum i ws')
    ∧ ∃ r w' win idx x, ws' !! r = Some w' ∧ windows !! r = Some win
        ∧ (win.1 ≤ idx < win.2)%nat
        ∧ w_sample_idxs w' !! i = Some (Z.of_nat idx)
        ∧ w_arr w' !! idx = Some x ∧ sample_of x = p.

(** The records of [arr] that compare less than [p] are those before
    position [idx]. *)
Definition less_end_at (p : sample) (arr : list elem_t) (idx : nat) : Prop :=
  ∀ j x, arr !! j = Some x →
    ((j < idx)%nat ↔ elem_sample_comparator x p < 0).

(** No two records, on one worker or on two, have the same key and ORP id. *)
Definition distinct_records (ws : list worker) : Prop :=
  ∀ r1 r2 w1 w2 j1 j2 x1 x2,
    ws !! r1 = Some w1 → ws !! r2 = Some w2 →
    w_arr w1 !! j1 = Some x1 → w_arr w2 !! j2 = Some x2 →
    sample_of x1 = sample_of x2 → r1 = r2 ∧ j1 = j2.

(** The number of records of [arr] that compare strictly less than, and
    less than or equal to, the sample [p]. *)
Definition count_lt (p : sample) (arr : list elem_t) : nat :=
  length (filter (λ x, elem_sample_comparator x p < 0) arr).

Definition count_le (p : sample) (arr : list elem_t) : nat :=
  length (filter (λ x, elem_sample_comparator x p ≤ 0) arr).

(** The number of records in the windows of a call, over all workers. *)
Definition window_total (windows : list (nat * nat)) : nat :=
  sum_list_with (λ win, (win.2 - win.1)%nat) windows.

End QuickselectSpec.

(** ** [enclave/nonoblivious.c]: the sample partition, on one worker *)

Module SamplePartition.

Definition SAMPLE_PARTITION_BUF_SIZE : Z := 512.

(** Modelled from the spec: the transport adapter [mpi_tls] (its enclave
    side is absent; [host/parallel.c] has the host side).  "isend/irecv ->
    request; waitany(requests[], &index) -> status"; "Null request sentinel
    is accepted by wait/waitany (skipped)"; the host's [ocall_mpi_waitany]
    fails when every request is null.  The network is the sequence of the
    outcomes of the calls: a status and, for [waitany], which of the
    pending requests completes, with how many bytes and which records. *)
Inductive request_type := MPI_TLS_NULL | MPI_TLS_SEND | MPI_TLS_RECV.

Record event := Event {
  ev_ret : Z;
  ev_pick : nat;
  ev_count : Z;
  ev_data : list elem_t;
}.

Definition network := nat → event.

Definition network_next (net : network) : network := λ n, net (S n).

Definition is_pending (r : request_type) : bool :=
  match r with MPI_TLS_NULL => false | _ => true end.

(** The indices of the requests that are not null. *)
Definition pending (requests : list request_type) : list nat :=
  filter (λ i, is_pending (default MPI_TLS_NULL (requests !! i)) = true)
         (seq 0 (length requests)).

(** [mpi_tls_waitany(count, requests, &index, &status)]: status, [index],
    [status.count] and the records received. *)
Definition mpi_tls_waitany (requests : list request_type) (net : network)
    : Z * nat * Z * list elem_t * network :=
  let ev := net O in
  match pending requests with
  | [] => (-1, O, 0, [], network_next net)
  | i0 :: _ =>
    if negb (ev_ret ev =? 0) then (ev_ret ev, O, 0, [], network_next net)
    else (0, nth (ev_pick ev mod length (pending requests)) (pending requests) i0,
          ev_count ev, ev_data ev, network_next net)
  end.

Definition idx_at (l : list Z) (i : nat) : Z := default 0 (l !! i).

Definition MINZ (a b : Z) : Z := if a <? b then a else b.

(** The locals of [distributed_sample_partition] after the call of
    [distributed_quickselect]. *)
Record state := State {
  sample_idxs : list Z;
  sample_scan_idxs : list Z;
  requests : list request_type;
  requests_len : Z;
  num_received : Z;
  out : list elem_t;
  net : network;
  ret : Z;
}.

(** [memcpy] of [n] records of [data] to [out + at]. *)
Definition write_records (at_ : Z) (n : Z) (data : list elem_t)
    (out : list elem_t) : list elem_t :=
  let at_ := Z.to_nat at_ in
  let data := take (Z.to_nat n) data in
  take at_ out ++ data ++ drop (at_ + length data) out.

Section Worker.

Variable world_rank world_size : nat.

(** [sizeof(elem_t)] *)
Variable SIZEOF_ELEM : Z.

Definition src_local_start (total_length : Z) : Z :=
  wrap64 (total_length * Z.of_nat world_rank) / Z.of_nat world_size.

Definition src_local_length (total_length : Z) : Z :=
  wrap64 (wrap64 (total_length * wrap64 (Z.of_nat world_rank + 1))
            / Z.of_nat world_size
          - src_local_start total_length).

(** The body of the loop that constructs the initial requests; once a call
    has failed ([ret] non-zero) the function is at [exit] and the remaining
    iterations do nothing. *)
Definition initial_request (total_length : Z) (i : nat) (s : state) : state :=
  if negb (ret s =? 0) then s else
  if (i =? world_rank)%nat then
    let elems_to_recv :=
      MINZ (wrap64 (src_local_length total_length - num_received s))
           SAMPLE_PARTITION_BUF_SIZE in
    if elems_to_recv >? 0 then
      {| sample_idxs := sample_idxs s; sample_scan_idxs := sample_scan_idxs s;
         requests := <[i := MPI_TLS_RECV]> (requests s);
         requests_len := requests_len s; num_received := num_received s;
         out := out s; net := network_next (net s);
         ret := ev_ret (net s O) |}
    else
      {| sample_idxs := sample_idxs s; sample_scan_idxs := sample_scan_idxs s;
         requests := <[i := MPI_TLS_NULL]> (requests s);
         requests_len := wrap64 (requests_len s - 1);
         num_received := num_received s;
         out := out s; net := net s; ret := ret s |}
  else
    if idx_at (sample_scan_idxs s) i <? idx_at (sample_idxs s) i then
      let elems_to_send :=
        MINZ (wrap64 (idx_at (sample_idxs s) i - idx_at (sample_scan_idxs s) i))
             SAMPLE_PARTITION_BUF_SIZE in
      let r := ev_ret (net s O) in
      {| sample_idxs := sample_idxs s;
         sample_scan_idxs :=
           if negb (r =? 0) then sample_scan_idxs s
           else <[i := wrap64 (idx_at (sample_scan_idxs s) i + elems_to_send)]>
                  (sample_scan_idxs s);
         requests := <[i := MPI_TLS_SEND]> (requests s);
         requests_len := requests_len s; num_received := num_received s;
         out := out s; net := network_next (net s); ret := r |}
    else
      {| sample_idxs := sample_idxs s; sample_scan_idxs := sample_scan_idxs s;
         requests := <[i := MPI_TLS_NULL]> (requests s);
         requests_len := wrap64 (requests_len s - 1);
         num_received := num_received s;
         out := out s; net := net s; ret := ret s |}.

(** One turn of [while (requests_len)], after the test. *)
Definition handle_completion (total_length : Z) (s : state) : state :=
  let '(r, index, count, data, net1) := mpi_tls_waitany (requests s) (net s) in
  if negb (r =? 0) then
    {| sample_idxs := sample_idxs s; sample_scan_idxs := sample_scan_idxs s;
       requests := requests s; requests_len := requests_len s;
       num_received := num_received s; out := out s; net := net1; ret := r |}
  else if (index =? world_rank)%nat then
    (* Receive request completed. *)
    let posted :=
      MINZ (wrap64 (src_local_length total_length - num_received s))
           SAMPLE_PARTITION_BUF_SIZE in
    let req_num_received := wrap64 count / SIZEOF_ELEM in
    let out1 :=
      write_records (num_received s) (MINZ posted req_num_received) data (out s) in
    let num_received1 := wrap64 (num_received s + req_num_received) in
    let elems_to_recv :=
      MINZ (wrap64 (src_local_length total_length - num_received1))
           SAMPLE_PARTITION_BUF_SIZE in
    let keep_rank := elems_to_recv >? 0 in
    if keep_rank then
      {| sample_idxs := sample_idxs s; sample_scan_idxs := sample_scan_idxs s;
         requests := <[index := MPI_TLS_RECV]> (requests s);
         requests_len := requests_len s; num_received := num_received1;
         out := out1; net := network_next net1; ret := ev_ret (net1 O) |}
    else
      {| sample_idxs := sample_idxs s; sample_scan_idxs := sample_scan_idxs s;
         requests := <[index := MPI_TLS_NULL]> (requests s);
         requests_len := wrap64 (requests_len s - 1);
         num_received := num_received1;
         out := out1; net := net1; ret := r |}
  else
    (* Send request completed. *)
    let keep_rank :=
      wrap64 (idx_at (sample_idxs s) index - idx_at (sample_scan_idxs s) index)
        >? 0 in
    if keep_rank then
      let elems_to_send :=
        MINZ (wrap64 (idx_at (sample_idxs s) index
                      - idx_at (sample_scan_idxs s) index))
             SAMPLE_PARTITION_BUF_SIZE in
      let r := ev_ret (net1 O) in
      {| sample_idxs := sample_idxs s;
         sample_scan_idxs :=
           if negb (r =? 0) then sample_scan_idxs s
           else <[index := wrap64 (idx_at (sample_scan_idxs s) index
                                   + elems_to_send)]> (sample_scan_idxs s);
         requests := <[index := MPI_TLS_SEND]> (requests s);
         requests_len := requests_len s; num_received := num_received s;
         out := out s; net := network_next net1; ret := r |}
    else
      {| sample_idxs := sample_idxs s; sample_scan_idxs := sample_scan_idxs s;
         requests := <[index := MPI_TLS_NULL]> (requests s);
         requests_len := wrap64 (requests_len s - 1);
         num_received := num_received s;
         out := out s; net := net1; ret := r |}.

(** [while (requests_len)]; [None] when the fuel runs out before the loop
    ends (the transport may keep it waiting for ever). *)
Fixpoint completion_loop (fuel : nat) (total_length : Z) (s : state)
    : option state :=
  if negb (ret s =? 0) then Some s
  else if requests_len s =? 0 then Some s
  else
    match fuel with
    | O => None
    | S fuel => completion_loop fuel total_length (handle_completion total_length s)
    end.

(** [distributed_sample_partition(arr, out, local_length, local_start,
    total_length)].  [quickselect] is the outcome of the call of
    [distributed_quickselect]: its status and the [world_size - 1] sample
    indices it wrote.  The result is the status, [out], and the number of
    records put into [out]: [num_received] where line 620 asserts about it. *)
Definition distributed_sample_partition (quickselect : Z * list Z)
    (network : network) (fuel : nat) (arr out : list elem_t)
    (local_length total_length : Z) : option (Z * list elem_t * Z) :=
  if (world_size =? 1)%nat then
    Some (0, write_records 0 total_length arr out, wrap64 total_length)
  else
    let '(r, idxs) := quickselect in
    if negb (r =? 0) then Some (r, out, 0) else
    let sample_scan_idxs := 0 :: take (world_size - 1) idxs in
    let sample_idxs := take (world_size - 1) idxs ++ [local_length] in
    (* Copy own partition's elements to the output. *)
    let num_received :=
      wrap64 (idx_at sample_idxs world_rank - idx_at sample_scan_idxs world_rank) in
    let out :=
      write_records 0 num_received
        (drop (Z.to_nat (idx_at sample_scan_idxs world_rank)) arr) out in
    let sample_scan_idxs :=
      <[world_rank := idx_at sample_idxs world_rank]> sample_scan_idxs in
    let s :=
      for_loop world_size 0 (initial_request total_length)
        {| sample_idxs := sample_idxs; sample_scan_idxs := sample_scan_idxs;
           requests := replicate world_size MPI_TLS_NULL;
           requests_len := Z.of_nat world_size; num_received := num_received;
           out := out; net := network; ret := r |} in
    match completion_loop fuel total_length s with
    | None => None
    | Some s => Some (ret s, SamplePartition.out s, SamplePartition.num_received s)
    end.

End Worker.

(** The number of requests that are not null. *)
Fixpoint npend (l : list request_type) : nat :=
  match l with
  | [] => O
  | r :: l => ((if is_pending r then 1 else 0) + npend l)%nat
  end.

(** What the loops of [distributed_sample_partition] keep true while no call
    has failed, after [processed] turns of the first one. *)
Definition partition_inv (world_rank world_size : nat) (total_length : Z)
    (processed : nat) (s : state) : Prop :=
  ret s = 0 →
  length (requests s) = world_size
  ∧ requests_len s
    = Z.of_nat (world_size - processed + npend (take processed (requests s)))
  ∧ 0 ≤ num_received s < 2 ^ 64
  ∧ ((world_rank < processed)%nat →
     requests s !! world_rank = Some MPI_TLS_NULL →
     num_received s = src_local_length world_rank world_size total_length).

(** [sample_targets[i]] of [distributed_sample_partition] (lines 487 to
    490): the rank that the quickselect is asked for, for [i] from 0 to
    [world_size - 2]. *)
Definition sample_targets (world_size : nat) (total_length : Z) : list Z :=
  (λ i, wrap64 (total_length * wrap64 (Z.of_nat i + 1)) / Z.of_nat world_size)
    <$> seq 0 (world_size - 1).

End SamplePartition.

(** ** Concrete inputs *)

Module Inputs.
Import Crypto Orshuffle.

Definition rec (k : Z) : elem_t := {| key := k; orp_id := 0; payload := [] |}.

Definition arr4 : list elem_t := rec <$> [10; 11; 12; 13].
Definition arr4' : list elem_t := rec <$> [7; 7; 3; 9].

(** An entropy source whose every call succeeds with all-zero words, and
    one whose words are all-one. *)
Definition zero_entropy : entropy := λ _, {| draw_ret := 0; draw_word := λ _, 0 |}.
Definition ones_entropy : entropy :=
  λ _, {| draw_ret := 0; draw_word := λ _, 2 ^ 64 - 1 |}.

Definition shuffle_input (arr : list elem_t) (e : entropy) : shuffle_state :=
  {| mem := {| cells := arr; swaps := [] |};
     marked := replicate (length arr) false;
     marked_prefix_sums := replicate (length arr) 0;
     rng := e |}.

(** The claim about a non-zero offset as the specification words it: the
    marked records land in the prefix rotated by [offset mod (L/2)]. *)
Definition shifted_by_offset_mod_half (arr : list elem_t) (marks : list bool)
    (ps : list Z) (offset : Z) : Prop :=
  ∀ m', compact marks ps 0 (length arr) offset {| cells := arr; swaps := [] |}
        = Some (0, m') →
    take (length arr / 2)
      (rotate (Z.to_nat offset mod (length arr / 2)) (cells m'))
    = select marks arr.

(** A network on which every call succeeds and a completed receive brings
    nothing. *)
Definition quiet_network : SamplePartition.network :=
  λ _, {| SamplePartition.ev_ret := 0; SamplePartition.ev_pick := 0;
          SamplePartition.ev_count := 0; SamplePartition.ev_data := [] |}.

(** Two workers with three records between them, and what
    [distributed_quickselect] for the target rank 1 leaves on them. *)
Definition two_workers : list Quickselect.worker :=
  [ {| Quickselect.w_arr := rec <$> [5; 1];
       Quickselect.w_samples := [Sample 0 0];
       Quickselect.w_sample_idxs := [0] |};
    {| Quickselect.w_arr := rec <$> [3];
       Quickselect.w_samples := [Sample 0 0];
       Quickselect.w_sample_idxs := [0] |} ].

Definition two_workers_selected : list Quickselect.worker :=
  [ {| Quickselect.w_arr := rec <$> [1; 5];
       Quickselect.w_samples := [Sample 3 0];
       Quickselect.w_sample_idxs := [1] |};
    {| Quickselect.w_arr := rec <$> [3];
       Quickselect.w_samples := [Sample 3 0];
       Quickselect.w_sample_idxs := [0] |} ].

(** One worker whose records tie with the sample of rank 2. *)
Definition one_worker_ties : list Quickselect.worker :=
  [ {| Quickselect.w_arr := rec <$> [2; 2; 1; 2; 3];
       Quickselect.w_samples := [Sample 0 0];
       Quickselect.w_sample_idxs := [0] |} ].

(** The claim about the sample indices as the specification words it: on
    each worker [sample_idxs[i]] is the position at which the records less
    than [samples[i]] end. *)
Definition idxs_where_less_ends (targets : list Z)
    (ws : list Quickselect.worker) : Prop :=
  ∀ ws', Quickselect.distributed_quickselect targets ws = Some (0, ws') →
    ∀ i, (i < length targets)%nat →
      Forall (λ w', ∃ p idx,
                Quickselect.w_samples w' !! i = Some p
                ∧ Quickselect.w_sample_idxs w' !! i = Some (Z.of_nat idx)
                ∧ QuickselectSpec.less_end_at p (Quickselect.w_arr w') idx)
        ws'.

(** The share of worker [r] as the specification defines it:
    ceil((r+1) N / W) - ceil(r N / W). *)
Definition spec_local_length (N W r : Z) : Z :=
  ((r + 1) * N + W - 1) / W - (r * N + W - 1) / W.

(** The claim about the sample partition as the specification words it. *)
Definition receives_spec_share (world_rank world_size : nat) (SIZEOF_ELEM : Z)
    (quickselect : Z * list Z) (network : SamplePartition.network)
    (fuel : nat) (arr out : list elem_t) (local_length total_length : Z)
    : Prop :=
  ∀ out' n,
    SamplePartition.distributed_sample_partition world_rank world_size
      SIZEOF_ELEM quickselect network fuel arr out local_length total_length
    = Some (0, out', n) →
    n = spec_local_length total_length (Z.of_nat world_size)
          (Z.of_nat world_rank).

Definition counting_entropy : entropy :=
  λ n, {| draw_ret := 0; draw_word := λ _, 100 + Z.of_nat n |}.

End Inputs.

(* ================================================================ *)
(** * Properties *)

Section ComparatorFacts.
Import Comparator.

Lemma three_way_sgn x y : three_way x y = Z.sgn (x - y).
Proof.
  unfold three_way, b2z.
  destruct (Z.gtb_spec x y), (Z.ltb_spec x y); lia.
Qed.

Lemma three_way_cases x y :
  (x < y ∧ three_way x y = -1) ∨ (x = y ∧ three_way x y = 0)
  ∨ (y < x ∧ three_way x y = 1).
Proof.
  unfold three_way, b2z.
  destruct (Z.gtb_spec x y), (Z.ltb_spec x y); lia.
Qed.

Lemma combine_cases (k1 o1 k2 o2 : Z) :
  let r := Z.shiftl (three_way k1 k2) 1 + three_way o1 o2 in
  -3 ≤ r ≤ 3 ∧ Z.sgn r = sign_of (lex_compare k1 o1 k2 o2)
  ∧ (r = 0 ↔ k1 = k2 ∧ o1 = o2).
Proof.
  unfold lex_compare. rewrite Z.shiftl_mul_pow2 by lia. change (2 ^ 1) with 2.
  destruct (three_way_cases k1 k2) as [[Hk ->]|[[Hk ->]|[Hk ->]]],
    (three_way_cases o1 o2) as [[Ho ->]|[[Ho ->]|[Ho ->]]]; cbn;
    try (rewrite (proj2 (Z.compare_lt_iff k1 k2)) by lia);
    try (rewrite (proj2 (Z.compare_gt_iff k1 k2)) by lia);
    try (rewrite (proj2 (Z.compare_eq_iff k1 k2)) by lia);
    try (rewrite (proj2 (Z.compare_lt_iff o1 o2)) by lia);
    try (rewrite (proj2 (Z.compare_gt_iff o1 o2)) by lia);
    try (rewrite (proj2 (Z.compare_eq_iff o1 o2)) by lia);
    cbn; lia.
Qed.

Lemma elem_sample_comparator_cases (a : elem_t) (p : sample) :
  let r := elem_sample_comparator a p in
  Z.sgn r = sign_of (lex_compare (key a) (orp_id a) (sample_key p) (sample_orp_id p))
  ∧ (r = 0 ↔ key a = sample_key p ∧ orp_id a = sample_orp_id p).
Proof. apply combine_cases. Qed.

(** C9. [mergesort_comparator a b] is
    [(sign(a.key - b.key) << 1) + sign(a.orp_id - b.orp_id)], the signs
    being those of the exact differences; it lies between -3 and 3; its
    sign is that of the lexicographic comparison of (key, ORP id); and it
    is 0 exactly when the keys and the ORP ids agree. *)
Theorem mergesort_comparator_lex (a b : elem_t) :
  let r := mergesort_comparator a b in
  r = Z.shiftl (Z.sgn (key a - key b)) 1 + Z.sgn (orp_id a - orp_id b)
  ∧ -3 ≤ r ≤ 3
  ∧ Z.sgn r = sign_of (lex_compare (key a) (orp_id a) (key b) (orp_id b))
  ∧ (r = 0 ↔ key a = key b ∧ orp_id a = orp_id b).
Proof.
  split; [|apply combine_cases].
  unfold mergesort_comparator. by rewrite !three_way_sgn.
Qed.

End ComparatorFacts.

(** ** The shuffle only swaps, and swaps on a fixed schedule *)

Section ShuffleFacts.
Import Orshuffle Crypto.

Lemma insert_head_perm {A} (l : list A) b x y :
  l !! b = Some y → y :: <[b := x]> l ≡ₚ x :: l.
Proof.
  revert b. induction l as [|w l IH]; intros [|b] Hb; simplify_eq/=.
  - apply Permutation_swap.
  - rewrite (Permutation_swap w y), (IH _ Hb). apply Permutation_swap.
Qed.

Lemma insert_swap_perm {A} (l : list A) a b x y :
  l !! a = Some x → l !! b = Some y → <[b := x]> (<[a := y]> l) ≡ₚ l.
Proof.
  revert a b. induction l as [|z l IH]; intros [|a] [|b] Ha Hb;
    simplify_eq/=; try done.
  - by apply insert_head_perm.
  - by apply insert_head_perm.
  - f_equiv. by apply IH.
Qed.

Lemma for_loop_inv {St} (P : St → Prop) n start (body : nat → St → St) s :
  P s → (∀ i s, P s → P (body i s)) → P (for_loop n start body s).
Proof.
  intros Hs Hbody. revert start s Hs.
  induction n as [|n IH]; intros start s Hs; cbn; auto.
Qed.

Lemma for_loop_inv_idx {St} (P : nat → St → Prop) n start
    (body : nat → St → St) s :
  P start s →
  (∀ i s, (start ≤ i < start + n)%nat → P i s → P (S i) (body i s)) →
  P (start + n)%nat (for_loop n start body s).
Proof.
  revert start s. induction n as [|n IH]; intros start s Hs Hbody; cbn.
  - by rewrite Nat.add_0_r.
  - rewrite <- Nat.add_succ_comm. apply IH.
    + apply Hbody; [lia|done].
    + intros i s' Hi. apply Hbody. lia.
Qed.

Lemma o_memswap_perm a b cond m : cells (o_memswap a b cond m) ≡ₚ cells m.
Proof.
  unfold o_memswap; cbn. destruct cond; [|done].
  destruct (cells m !! a) eqn:Ha; [|done].
  destruct (cells m !! b) eqn:Hb; [|done].
  by apply insert_swap_perm.
Qed.

Lemma o_memswap_swaps a b cond m :
  swaps (o_memswap a b cond m) = swaps m ++ [(a, b)].
Proof. done. Qed.

Lemma swap_loop_swaps (f : nat → nat * nat) (c : nat → bool) n start m :
  swaps (for_loop n start (λ i m, o_memswap (f i).1 (f i).2 (c i) m) m)
  = swaps m ++ map f (seq start n).
Proof.
  revert start m. induction n as [|n IH]; intros start m; cbn.
  - by rewrite app_nil_r.
  - rewrite IH, o_memswap_swaps, <- app_assoc. by destruct (f start).
Qed.

Lemma swap_local_range_ret base length offset lmc m :
  (swap_local_range base length offset lmc m).1 = 0.
Proof. done. Qed.

Lemma swap_local_range_perm base length offset lmc m :
  cells (swap_local_range base length offset lmc m).2 ≡ₚ cells m.
Proof.
  unfold swap_local_range; cbn.
  apply (for_loop_inv (λ m', cells m' ≡ₚ cells m)); [done|].
  intros i m' Hm'. by rewrite o_memswap_perm.
Qed.

Lemma swap_local_range_swaps base length offset lmc m :
  swaps (swap_local_range base length offset lmc m).2
  = swaps m ++ range_schedule base length.
Proof.
  unfold swap_local_range, range_schedule; cbn.
  apply (swap_loop_swaps (λ i, (base + i, base + i + length / 2)%nat)).
Qed.

Lemma swap_range_eq base length offset lmc m :
  swap_range base length offset lmc m
  = (0, (swap_local_range base length offset lmc m).2).
Proof. done. Qed.

Lemma half_le_fuel length fuel :
  (length ≤ S fuel)%nat → (2 ≤ length)%nat → (length / 2 ≤ fuel)%nat.
Proof.
  intros H1 H2. pose proof (Nat.div_lt length 2 ltac:(lia) ltac:(lia)). lia.
Qed.

(** [compact] returns, with status 0, a permutation of its input, and its
    swaps are those of the schedule. *)
Lemma compact_fuel_run fuel mk ps base length offset m :
  (length ≤ fuel)%nat →
  ∃ m', compact_fuel (S fuel) mk ps base length offset m = Some (0, m')
        ∧ cells m' ≡ₚ cells m
        ∧ swaps m' = swaps m ++ compact_schedule (S fuel) base length.
Proof.
  revert base length offset m.
  induction fuel as [|fuel IH]; intros base length offset m Hlen.
  - assert (length = 0%nat) as -> by lia. cbn. eexists; split_and!; eauto.
    by rewrite app_nil_r.
  - remember (S fuel) as f eqn:Hf. cbn [compact_fuel compact_schedule].
    destruct (Nat.ltb_spec length 2).
    { eexists; split_and!; eauto. by rewrite app_nil_r. }
    destruct (Nat.eqb_spec length 2).
    { eexists; split_and!; eauto using o_memswap_perm. }
    assert (length / 2 ≤ fuel)%nat as Hh by (apply half_le_fuel; lia).
    subst f.
    edestruct (IH base (length / 2)%nat) as (m1 & -> & Hp1 & Hs1); [done|].
    cbn [negb Z.eqb].
    edestruct (IH (base + length / 2)%nat (length / 2)%nat)
      as (m2 & -> & Hp2 & Hs2); [done|].
    cbn [negb Z.eqb]. rewrite swap_range_eq.
    eexists; split_and!; [done| |].
    + by rewrite swap_local_range_perm, Hp2, Hp1.
    + by rewrite swap_local_range_swaps, Hs2, Hs1, <- !app_assoc.
Qed.

Lemma compact_run mk ps base length offset m :
  ∃ m', compact mk ps base length offset m = Some (0, m')
        ∧ cells m' ≡ₚ cells m
        ∧ swaps m' = swaps m ++ compact_schedule (S length) base length.
Proof. by apply compact_fuel_run. Qed.

Lemma mark_phase_mem base length s : mem (mark_phase base length s).2 = mem s.
Proof.
  unfold mark_phase. by destruct (mark_chunks _ _ _ _ _ _ _) as [[ret e] ms].
Qed.

(** A run of [shuffle] returns; it leaves a permutation of the records;
    its swaps are a prefix of the schedule, and the whole of it when the
    run succeeds. *)
Lemma shuffle_fuel_run fuel base length s :
  (length ≤ fuel)%nat →
  ∃ ret s', shuffle_fuel (S fuel) base length s = Some (ret, s')
    ∧ cells (mem s') ≡ₚ cells (mem s)
    ∧ (∃ rest, swaps (mem s') ++ rest
               = swaps (mem s) ++ shuffle_schedule (S fuel) base length)
    ∧ (ret = 0 →
       swaps (mem s') = swaps (mem s) ++ shuffle_schedule (S fuel) base length).
Proof.
  revert base length s.
  induction fuel as [|fuel IH]; intros base length s Hlen.
  - assert (length = 0%nat) as -> by lia. cbn.
    eexists _, _; split_and!; eauto; by rewrite ?app_nil_r.
  - remember (S fuel) as f eqn:Hf. cbn [shuffle_fuel shuffle_schedule].
    destruct (Nat.ltb_spec length 2).
    { eexists _, _; split_and!; eauto; by rewrite ?app_nil_r. }
    destruct (Nat.eqb_spec length 2).
    { unfold rand_bit. destruct (Z.eqb_spec (draw_ret (rng s 0%nat)) 0) as [->|Hne];
        cbn [negb].
      - eexists _, _; split_and!; eauto using o_memswap_perm.
        exists []. by rewrite app_nil_r.
      - eexists _, _; split_and!; eauto. done. }
    assert (length / 2 ≤ fuel)%nat as Hh by (apply half_le_fuel; lia).
    pose proof (mark_phase_mem base length s) as Hmk.
    destruct (mark_phase base length s) as [ret0 s0]; cbn in Hmk.
    destruct (Z.eqb_spec ret0 0) as [->|Hne]; cbn [negb].
    2:{ eexists _, _; split_and!; eauto; rewrite Hmk; [done|eauto|done]. }
    destruct (compact_run (marked s0) (marked_prefix_sums s0) base length 0 (mem s0))
      as (m1 & -> & Hp1 & Hs1).
    cbn [negb Z.eqb]. rewrite Hmk in Hp1, Hs1. subst f.
    set (s1 := {| mem := m1 |}).
    destruct (IH base (length / 2)%nat s1 Hh) as (r2 & s2 & -> & Hp2 & [rest2 Hpre2] & Hs2).
    cbn [mem s1] in *.
    destruct (Z.eqb_spec r2 0) as [->|Hne]; cbn [negb].
    2:{ eexists _, _; split_and!; eauto; [by rewrite Hp2| |done].
        exists (rest2 ++ shuffle_schedule (S fuel) (base + length / 2) (length / 2)).
        by rewrite app_assoc, Hpre2, Hs1, <- !app_assoc. }
    destruct (IH (base + length / 2)%nat (length / 2)%nat s2 Hh)
      as (r3 & s3 & -> & Hp3 & [rest3 Hpre3] & Hs3).
    assert (cells (mem s3) ≡ₚ cells (mem s)) by (by rewrite Hp3, Hp2).
    assert (swaps (mem s2) = (swaps (mem s) ++ compact_schedule (S length) base length)
              ++ shuffle_schedule (S fuel) base (length / 2)) as E2
      by (by rewrite Hs2, Hs1).
    destruct (Z.eqb_spec r3 0) as [->|Hne]; cbn [negb].
    + eexists _, _; split_and!; eauto.
      * exists []. by rewrite app_nil_r, Hs3, E2, <- !app_assoc.
      * intros _. by rewrite Hs3, E2, <- !app_assoc.
    + eexists _, _; split_and!; eauto; [|done].
      exists rest3. by rewrite Hpre3, E2, <- !app_assoc.
Qed.

End ShuffleFacts.

(** ** Compaction moves the marked records to a rotated prefix *)

Section CompactFacts.
Import Orshuffle.

Lemma mod_split h z :
  0 < h → 0 ≤ z < 2 * h →
  (z < h ∧ z mod h = z) ∨ (h ≤ z ∧ z mod h = z - h).
Proof.
  intros Hh Hz. destruct (Z.lt_ge_cases z h).
  - left. split; [done|]. apply Z.mod_small. lia.
  - right. split; [done|]. symmetry. apply (Z.mod_unique_pos _ _ 1); lia.
Qed.

(** A marked record of the left half, [j]-th of the marked ones, sits at
    [p] after the recursive call; the swap sends it to [(z + j) mod 2h]. *)
Lemma swap_cond_left h z mL j :
  0 < h → 0 ≤ z < 2 * h → 0 ≤ mL ≤ h → 0 ≤ j < mL →
  let p := (z mod h + j) mod h in
  (z + j) mod (2 * h) = if swap_cond h z mL p then p + h else p.
Proof.
  intros Hh Hz HmL Hj p. subst p. unfold swap_cond.
  pose proof (Z.mod_pos_bound z h Hh) as Hz0.
  destruct (mod_split h z Hh Hz) as [[Hc Ez]|[Hc Ez]];
  destruct (mod_split h (z mod h + j) Hh ltac:(lia)) as [[Hp Ep]|[Hp Ep]];
  destruct (mod_split h (z mod h + mL) Hh ltac:(lia)) as [[Hw Ew]|[Hw Ew]];
  destruct (mod_split (2 * h) (z + j) ltac:(lia) ltac:(lia)) as [[Hd Ed]|[Hd Ed]];
  replace ((z + mL) mod h) with ((z mod h + mL) mod h)
    by (by rewrite Zplus_mod_idemp_l);
  rewrite Ep, Ew, Ed;
  repeat match goal with
  | |- context [?a >=? ?b] => destruct (Z.geb_spec a b)
  end; cbn; lia.
Qed.

(** The same for a marked record of the right half. *)
Lemma swap_cond_right h z mL j :
  0 < h → 0 ≤ z < 2 * h → 0 ≤ mL ≤ h → 0 ≤ j < h →
  let p := ((z + mL) mod h + j) mod h in
  (z + mL + j) mod (2 * h) = if swap_cond h z mL p then p else p + h.
Proof.
  intros Hh Hz HmL Hj p. subst p. unfold swap_cond.
  pose proof (Z.mod_pos_bound z h Hh) as Hz0.
  replace ((z + mL) mod h) with ((z mod h + mL) mod h)
    by (by rewrite Zplus_mod_idemp_l).
  pose proof (Z.mod_pos_bound (z mod h + mL) h Hh) as Ht.
  destruct (mod_split h z Hh Hz) as [[Hc Ez]|[Hc Ez]];
  destruct (mod_split h (z mod h + mL) Hh ltac:(lia)) as [[Hw Ew]|[Hw Ew]];
  destruct (mod_split h ((z mod h + mL) mod h + j) Hh ltac:(lia))
    as [[Hp Ep]|[Hp Ep]];
  rewrite Ep;
  repeat match goal with
  | |- context [?a >=? ?b] => destruct (Z.geb_spec a b)
  end; cbn; try lia;
  rewrite ?Ew, ?Ez in *.
  all: try (rewrite Z.mod_small by lia; lia).
  all: try (symmetry; apply (Z.mod_unique_pos _ _ 1); lia).
  all: try (symmetry; apply (Z.mod_unique_pos _ _ 2); lia).
Qed.

Lemma swap_cond_left_nat (h z mL j : nat) :
  (0 < h)%nat → (z < 2 * h)%nat → (mL ≤ h)%nat → (j < mL)%nat →
  let p := ((z mod h + j) mod h)%nat in
  ((z + j) mod (2 * h))%nat
  = if swap_cond (Z.of_nat h) (Z.of_nat z) (Z.of_nat mL) (Z.of_nat p)
    then (p + h)%nat else p.
Proof.
  intros Hh Hz HmL Hj p.
  pose proof (swap_cond_left (Z.of_nat h) (Z.of_nat z) (Z.of_nat mL) (Z.of_nat j)
    ltac:(lia) ltac:(lia) ltac:(lia) ltac:(lia)) as H. cbn zeta in H.
  rewrite <- !Nat2Z.inj_mod, <- !Nat2Z.inj_add, <- !Nat2Z.inj_mod in H.
  change 2 with (Z.of_nat 2) in H.
  rewrite <- Nat2Z.inj_mul, <- Nat2Z.inj_mod in H. fold p in H.
  destruct (swap_cond _ _ _ _); lia.
Qed.

Lemma swap_cond_right_nat (h z mL j : nat) :
  (0 < h)%nat → (z < 2 * h)%nat → (mL ≤ h)%nat → (j < h)%nat →
  let p := (((z + mL) mod h + j) mod h)%nat in
  ((z + (mL + j)) mod (2 * h))%nat
  = if swap_cond (Z.of_nat h) (Z.of_nat z) (Z.of_nat mL) (Z.of_nat p)
    then p else (p + h)%nat.
Proof.
  intros Hh Hz HmL Hj p.
  pose proof (swap_cond_right (Z.of_nat h) (Z.of_nat z) (Z.of_nat mL) (Z.of_nat j)
    ltac:(lia) ltac:(lia) ltac:(lia) ltac:(lia)) as H. cbn zeta in H.
  rewrite <- !Nat2Z.inj_add, <- !Nat2Z.inj_mod, <- !Nat2Z.inj_add,
    <- !Nat2Z.inj_mod in H.
  change 2 with (Z.of_nat 2) in H.
  rewrite <- Nat2Z.inj_mul, <- Nat2Z.inj_mod in H. fold p in H.
  rewrite Nat.add_assoc.
  destruct (swap_cond _ _ _ _); lia.
Qed.

Lemma o_memswap_length a b cond m :
  length (cells (o_memswap a b cond m)) = length (cells m).
Proof. apply Permutation_length, o_memswap_perm. Qed.

Lemma o_memswap_false a b m : cells (o_memswap a b false m) = cells m.
Proof. done. Qed.

Lemma o_memswap_lookup a b m p :
  (a < length (cells m))%nat → (b < length (cells m))%nat →
  cells (o_memswap a b true m) !! p
  = if decide (p = b) then cells m !! a
    else if decide (p = a) then cells m !! b else cells m !! p.
Proof.
  intros [x Hx]%lookup_lt_is_Some_2 [y Hy]%lookup_lt_is_Some_2.
  unfold o_memswap; cbn. rewrite Hx, Hy.
  rewrite !list_lookup_insert, !length_insert.
  apply lookup_lt_Some in Hx as Hx', Hy as Hy'.
  repeat case_decide; subst; try done; try lia; naive_solver.
Qed.

Lemma swap_loop_lookup (h base : nat) (c : nat → bool) n start m :
  (start + n ≤ h)%nat → (base + 2 * h ≤ length (cells m))%nat →
  let m' := for_loop n start
              (λ i m, o_memswap (base + i) (base + i + h) (c i) m) m in
  length (cells m') = length (cells m) ∧
  ∀ p, cells m' !! p =
    if decide (base + start ≤ p < base + start + n)%nat then
      (if c (p - base)%nat then cells m !! (p + h)%nat else cells m !! p)
    else if decide (base + h + start ≤ p < base + h + start + n)%nat then
      (if c (p - base - h)%nat then cells m !! (p - h)%nat else cells m !! p)
    else cells m !! p.
Proof.
  revert start m. induction n as [|n IH]; intros start m Hn Hlen; cbn.
  - split; [done|]. intros p. repeat case_decide; try lia; done.
  - destruct (IH (S start) (o_memswap (base + start) (base + start + h) (c start) m))
      as [Hl Hp]; [lia|by rewrite o_memswap_length|].
    rewrite o_memswap_length in Hl. split; [done|].
    intros p. rewrite Hp. clear Hp IH.
    destruct (c start) eqn:Hc.
    + rewrite !o_memswap_lookup by lia.
      repeat case_decide; try lia;
        repeat match goal with
        | |- context [c ?x] =>
            first [ replace x with start by lia; rewrite Hc
                  | destruct (c x) ]
        end; try done; f_equal; lia.
    + rewrite !o_memswap_false.
      repeat case_decide; try lia; try done.
      all: try (replace (p - base)%nat with start by lia; by rewrite Hc).
      all: try (replace (p - base - h)%nat with start by lia; by rewrite Hc).
Qed.

Lemma rank_le mk base i : (rank mk base i ≤ i)%nat.
Proof. induction i as [|i IH]; cbn; [done|]. destruct (mark_at _ _); lia. Qed.

Lemma rank_add mk base a i :
  rank mk base (a + i) = (rank mk base a + rank mk (base + a) i)%nat.
Proof.
  induction i as [|i IH]; cbn.
  - by rewrite !Nat.add_0_r.
  - rewrite Nat.add_succ_r. cbn. rewrite IH, Nat.add_assoc. lia.
Qed.

Lemma rank_mono mk base i j : (i ≤ j)%nat → (rank mk base i ≤ rank mk base j)%nat.
Proof.
  intros Hij. replace j with (i + (j - i))%nat by lia. rewrite rank_add. lia.
Qed.

Lemma rank_marked_lt mk base i n :
  (i < n)%nat → mark_at mk (base + i) = true →
  (rank mk base i < rank mk base n)%nat.
Proof.
  intros Hi Hm. pose proof (rank_mono mk base (S i) n ltac:(lia)) as H.
  cbn in H. rewrite Hm in H. lia.
Qed.

Lemma pow2_pos k : (0 < 2 ^ k)%nat.
Proof. induction k; cbn; lia. Qed.

Lemma pow2_le_63 k : (k ≤ 63)%nat → Z.of_nat (2 ^ k) ≤ 2 ^ 63.
Proof.
  intros Hk. rewrite Nat2Z.inj_pow. apply Z.pow_le_mono_r; lia.
Qed.

Lemma swap_local_range_loop base h (z mL : nat) m :
  (0 < h)%nat → (z < 2 * h)%nat → (mL ≤ h)%nat → Z.of_nat (2 * h) ≤ 2 ^ 63 →
  (swap_local_range base (2 * h) (Z.of_nat z) (Z.of_nat mL) m).2
  = for_loop h 0 (λ i m, o_memswap (base + i) (base + i + h)
        (swap_cond (Z.of_nat h) (Z.of_nat z) (Z.of_nat mL) (Z.of_nat i)) m) m.
Proof.
  intros Hh Hz HmL Hb. unfold swap_local_range, swap_cond; cbn [snd].
  replace (2 * h / 2)%nat with h by (rewrite Nat.mul_comm, Nat.div_mul; lia).
  pose proof (Z.mod_pos_bound (Z.of_nat z) (Z.of_nat h) ltac:(lia)).
  unfold wrap64. rewrite !(Z.mod_small _ (2 ^ 64)) by lia. done.
Qed.

Lemma compact_fuel_places k : ∀ fuel mk ps c0 base z m,
  (2 ^ k ≤ fuel)%nat → (k ≤ 63)%nat → (z < 2 ^ k)%nat →
  (base + 2 ^ k ≤ length (cells m))%nat →
  prefix_sums_from c0 mk ps base (2 ^ k) →
  ∃ m', compact_fuel (S fuel) mk ps base (2 ^ k) (Z.of_nat z) m = Some (0, m')
    ∧ length (cells m') = length (cells m)
    ∧ (∀ p, ¬ (base ≤ p < base + 2 ^ k)%nat → cells m' !! p = cells m !! p)
    ∧ (∀ i, (i < 2 ^ k)%nat → mark_at mk (base + i) = true →
         cells m' !! (base + (z + rank mk base i) mod 2 ^ k)%nat
         = cells m !! (base + i)%nat).
Proof.
  induction k as [|k IH]; intros fuel mk ps c0 base z m Hfuel Hk Hz Hlen Hps.
  { cbn in *. exists m. split_and!; try done.
    intros i Hi _. replace i with 0%nat by lia. replace z with 0%nat by lia.
    done. }
  destruct k as [|k].
  { clear IH. change (2 ^ 1)%nat with 2%nat in *. cbn [compact_fuel].
    change (2 <? 2)%nat with false. change (2 =? 2)%nat with true. cbn match.
    eexists. split; [done|]. split; [apply o_memswap_length|].
    assert (∀ p, cells (o_memswap base (base + 1) false m) !! p = cells m !! p)
      as Hfalse by done.
    pose proof (λ p, o_memswap_lookup base (base + 1) m p ltac:(lia) ltac:(lia))
      as Htrue.
    split.
    - intros p Hp. destruct (xorb _ _); [|done].
      rewrite Htrue. repeat case_decide; try lia; done.
    - intros i Hi Hm.
      assert (i = 0 ∨ i = 1)%nat as [-> | ->] by lia;
      assert (z = 0 ∨ z = 1)%nat as [-> | ->] by lia; cbn [rank];
      rewrite ?Nat.add_0_r in *; rewrite ?Hm; cbn;
      try (destruct (mark_at mk base)); try (destruct (mark_at mk (base + 1)));
      cbn; rewrite ?Nat.add_0_r; try discriminate;
      rewrite ?Htrue; repeat case_decide; try lia; try done. }
  (* the general case: two halves of length h >= 2 *)
  set (h := (2 ^ S k)%nat) in *.
  assert (2 ^ S (S k) = 2 * h)%nat as EL by apply Nat.pow_succ_r'.
  rewrite EL in *.
  assert (2 ≤ h)%nat as Hh2.
  { unfold h. rewrite Nat.pow_succ_r'. pose proof (pow2_pos k). lia. }
  assert (Z.of_nat (2 * h) ≤ 2 ^ 63) as Hbound.
  { rewrite <- EL. by apply pow2_le_63. }
  assert (2 * h / 2 = h)%nat as Ehalf
    by (rewrite Nat.mul_comm, Nat.div_mul; lia).
  cbn [compact_fuel].
  destruct (Nat.ltb_spec (2 * h) 2); [lia|].
  destruct (Nat.eqb_spec (2 * h) 2); [lia|].
  rewrite Ehalf.
  set (mL := rank mk base h).
  pose proof (rank_le mk base h) as HmL. fold mL in HmL.
  (* the count of the left half, read off the prefix sums *)
  assert (wrap64 (wrap64 (prefix_at ps (base + (h - 1))
                          - prefix_at ps base) + b2z (mark_at mk base))
          = Z.of_nat mL) as ->.
  { pose proof (Hps (h - 1)%nat ltac:(lia)) as H1.
    pose proof (Hps 0%nat ltac:(lia)) as H2.
    rewrite Nat.add_0_r in H2. rewrite H1, H2.
    replace (S (h - 1)) with h by lia. fold mL.
    cbn [rank]. rewrite Nat.add_0_r. unfold wrap64.
    rewrite Zplus_mod_idemp_l.
    transitivity (Z.of_nat mL mod 2 ^ 64); [|apply Z.mod_small; lia].
    f_equal. destruct (mark_at mk base); cbn; lia. }
  rewrite <- Nat2Z.inj_mod.
  assert (wrap64 (Z.of_nat z + Z.of_nat mL) mod Z.of_nat h
          = Z.of_nat ((z + mL) mod h)) as ->.
  { unfold wrap64. rewrite (Z.mod_small _ (2 ^ 64)) by lia.
    by rewrite <- Nat2Z.inj_add, <- Nat2Z.inj_mod. }
  destruct fuel as [|fuel]; [lia|].
  (* left half *)
  destruct (IH fuel mk ps c0 base (z mod h)%nat m)
    as (m1 & -> & Hl1 & Hf1 & Hm1); try lia.
  { apply Nat.mod_upper_bound. lia. }
  { intros i Hi. apply Hps. lia. }
  cbn [negb Z.eqb].
  (* right half *)
  destruct (IH fuel mk ps (c0 + Z.of_nat mL) (base + h)%nat ((z + mL) mod h)%nat m1)
    as (m2 & -> & Hl2 & Hf2 & Hm2); try lia.
  { apply Nat.mod_upper_bound. lia. }
  { intros i Hi. rewrite <- Nat.add_assoc, Hps by lia.
    replace (S (h + i)) with (h + S i)%nat by lia.
    rewrite rank_add. fold mL. lia. }
  cbn [negb Z.eqb]. rewrite swap_range_eq.
  rewrite swap_local_range_loop by (try done; lia).
  destruct (swap_loop_lookup h base
    (λ i, swap_cond (Z.of_nat h) (Z.of_nat z) (Z.of_nat mL) (Z.of_nat i))
    h 0 m2 ltac:(lia) ltac:(lia)) as [Hl3 Hp3].
  eexists. split; [done|]. split; [lia|]. split.
  - intros p Hp. rewrite Hp3. repeat case_decide; try lia.
    rewrite Hf2, Hf1 by lia. done.
  - intros i Hi Hm. rewrite Hp3. clear Hp3.
    destruct (decide (i < h)%nat) as [Hih|Hih].
    + (* a marked record of the left half *)
      pose proof (rank_marked_lt mk base i h Hih Hm) as Hr. fold mL in Hr.
      pose proof (swap_cond_left_nat h z mL (rank mk base i)
        ltac:(lia) ltac:(lia) ltac:(lia) ltac:(lia)) as Hsw. cbn zeta in Hsw.
      set (p := ((z mod h + rank mk base i) mod h)%nat) in *.
      assert (p < h)%nat by (apply Nat.mod_upper_bound; lia).
      specialize (Hm1 i Hih Hm). fold p in Hm1.
      rewrite Hsw.
      destruct (swap_cond _ _ _ (Z.of_nat p)) eqn:Hc.
      * rewrite decide_False by lia. rewrite decide_True by lia.
        replace (base + (p + h) - base - h)%nat with p by lia. rewrite Hc.
        replace (base + (p + h) - h)%nat with (base + p)%nat by lia.
        rewrite Hf2 by lia. done.
      * rewrite decide_True by lia.
        replace (base + p - base)%nat with p by lia. rewrite Hc.
        rewrite Hf2 by lia. done.
    + (* a marked record of the right half *)
      set (i' := (i - h)%nat).
      assert (i = h + i')%nat as Ei by (unfold i'; lia).
      assert (i' < h)%nat as Hi' by lia.
      rewrite Ei in Hm |- *. rewrite Nat.add_assoc in Hm.
      rewrite rank_add. fold mL.
      pose proof (rank_le mk (base + h) i').
      pose proof (swap_cond_right_nat h z mL (rank mk (base + h) i')
        ltac:(lia) ltac:(lia) ltac:(lia) ltac:(lia)) as Hsw. cbn zeta in Hsw.
      set (p := (((z + mL) mod h + rank mk (base + h) i') mod h)%nat) in *.
      assert (p < h)%nat by (apply Nat.mod_upper_bound; lia).
      specialize (Hm2 i' Hi' Hm). fold p in Hm2.
      rewrite Hsw.
      destruct (swap_cond _ _ _ (Z.of_nat p)) eqn:Hc.
      * rewrite decide_True by lia.
        replace (base + p - base)%nat with p by lia. rewrite Hc.
        replace (base + p + h)%nat with (base + h + p)%nat by lia.
        rewrite Hm2, Hf1 by lia. f_equal. lia.
      * rewrite decide_False by lia. rewrite decide_True by lia.
        replace (base + (p + h) - base - h)%nat with p by lia. rewrite Hc.
        replace (base + (p + h))%nat with (base + h + p)%nat by lia.
        rewrite Hm2, Hf1 by lia. f_equal. lia.
Qed.

Lemma mark_at_cons b mk i : mark_at (b :: mk) (S i) = mark_at mk i.
Proof. done. Qed.

Lemma rank_shift b mk base i : rank (b :: mk) (S base) i = rank mk base i.
Proof. induction i as [|i IH]; cbn; [done|]. by rewrite IH. Qed.

Lemma rank_cons b mk i :
  rank (b :: mk) 0 (S i) = ((if b then 1 else 0) + rank mk 0 i)%nat.
Proof.
  change (S i) with (1 + i)%nat. rewrite rank_add.
  change (0 + 1)%nat with 1%nat. by rewrite rank_shift.
Qed.

Lemma select_length {A} (marks : list bool) (l : list A) :
  length marks = length l → length (select marks l) = rank marks 0 (length l).
Proof.
  revert l. induction marks as [|b marks IH]; intros [|x l] Hl;
    simplify_eq; [done|].
  cbn [length select]. rewrite rank_cons.
  destruct b; cbn [length]; rewrite IH by done; lia.
Qed.

Lemma select_lookup {A} (marks : list bool) (l : list A) i :
  length marks = length l → mark_at marks i = true →
  select marks l !! rank marks 0 i = l !! i.
Proof.
  revert l i. induction marks as [|b marks IH]; intros [|x l] i Hl Hm;
    simplify_eq; try done.
  destruct i as [|i]; [by cbv in Hm; subst b|].
  rewrite rank_cons. rewrite mark_at_cons in Hm. cbn [select].
  destruct b; cbn; by apply IH.
Qed.

Lemma rank_surj mk base n j :
  (j < rank mk base n)%nat →
  ∃ i, (i < n)%nat ∧ mark_at mk (base + i) = true ∧ rank mk base i = j.
Proof.
  induction n as [|n IH]; cbn; [lia|]. intros Hj.
  destruct (decide (j < rank mk base n)%nat) as [Hlt|Hge].
  - destruct (IH Hlt) as (i & ? & ? & ?). exists i. split_and!; [lia|done..].
  - destruct (mark_at mk (base + n)) eqn:Hm; [|lia].
    exists n. split_and!; [lia|done|lia].
Qed.

Lemma select_perm {A} (marks : list bool) (l : list A) :
  length marks = length l →
  l ≡ₚ select marks l ++ select (negb <$> marks) l.
Proof.
  revert l. induction marks as [|b marks IH]; intros [|x l] Hl;
    simplify_eq/=; [done|].
  destruct b; cbn.
  - f_equiv. by apply IH.
  - rewrite <- Permutation_middle. f_equiv. by apply IH.
Qed.

(** The output of [compact], read from position [offset] on and around the
    end, starts with the marked records in their original order. *)
Lemma compact_rotate k arr marks ps (z : nat) log :
  (k ≤ 63)%nat → length arr = (2 ^ k)%nat → length marks = (2 ^ k)%nat →
  prefix_sums_from 0 marks ps 0 (2 ^ k) → (z < 2 ^ k)%nat →
  ∃ m', compact marks ps 0 (2 ^ k) (Z.of_nat z) (OMem arr log) = Some (0, m')
    ∧ take (rank marks 0 (2 ^ k)) (rotate z (cells m')) = select marks arr
    ∧ drop (rank marks 0 (2 ^ k)) (rotate z (cells m'))
        ≡ₚ select (negb <$> marks) arr.
Proof.
  intros Hk Harr Hmarks Hps Hz.
  destruct (compact_fuel_places k (2 ^ k) marks ps 0 0 z (OMem arr log))
    as (m' & Hrun & Hlen & _ & Hplace); try done; cbn [cells]; try lia.
  destruct (compact_run marks ps 0 (2 ^ k) (Z.of_nat z) (OMem arr log))
    as (m'' & Hrun' & Hperm & _).
  unfold compact in *. rewrite Hrun in Hrun'. simplify_eq. cbn in *.
  exists m''. split; [done|].
  assert (take (rank marks 0 (2 ^ k)) (rotate z (cells m'')) = select marks arr)
    as Htake.
  { apply list_eq_same_length with (rank marks 0 (2 ^ k)).
    - rewrite select_length, Harr by lia. done.
    - rewrite length_take, length_rotate, Hlen.
      pose proof (rank_le marks 0 (2 ^ k)). lia.
    - intros j x y Hj. rewrite lookup_take_lt by done.
      destruct (rank_surj marks 0 (2 ^ k) j Hj) as (i & Hi & Hm & <-).
      pose proof (rank_le marks 0 (2 ^ k)).
      rewrite lookup_rotate_r by lia. unfold rotate_nat_add.
      rewrite Hlen, <- Nat2Z.inj_add, <- Nat2Z.inj_mod, Nat2Z.id, Harr.
      specialize (Hplace i Hi Hm). cbn in Hplace. rewrite Hplace.
      rewrite select_lookup by (done || lia). congruence. }
  split; [done|].
  apply (Permutation_app_inv_l (select marks arr)).
  rewrite <- select_perm by lia.
  rewrite <- Htake, take_drop, <- Hperm.
  unfold rotate. rewrite Permutation_app_comm. by rewrite take_drop.
Qed.

End CompactFacts.

(** ** The marking loop writes the running counts of its marks *)

Section MarkFacts.
Import Crypto Orshuffle.

Lemma mark_at_insert mk i j b :
  mark_at (<[i := b]> mk) j
  = if decide (i = j ∧ (i < length mk)%nat) then b else mark_at mk j.
Proof. unfold mark_at. rewrite list_lookup_insert. by case_decide. Qed.

Lemma rank_insert_ge mk base k t b :
  (k ≤ t)%nat → rank (<[(base + t)%nat := b]> mk) base k = rank mk base k.
Proof.
  intros Hk. induction k as [|k IH]; cbn; [done|].
  rewrite IH by lia. rewrite mark_at_insert.
  rewrite decide_False by lia. done.
Qed.

Lemma prefix_at_insert ps i j v :
  prefix_at (<[i := v]> ps) j
  = if decide (i = j ∧ (i < length ps)%nat) then v else prefix_at ps j.
Proof. unfold prefix_at. rewrite list_lookup_insert. by case_decide. Qed.

Lemma mark_elem_inv base ntm lenM lenP i coins j s :
  (base + (i + j) < lenM)%nat → (base + (i + j) < lenP)%nat →
  Z.of_nat (i + j) < 2 ^ 63 →
  marking_inv base lenM lenP (i + j) s →
  marking_inv base lenM lenP (S (i + j)) (mark_elem base ntm i coins j s).
Proof.
  intros HM HP Hk (LM & LP & Hsf & Hps). unfold mark_elem.
  set (b := (_ >=? _)). unfold marking_inv.
  cbn [mk_marked mk_prefix_sums marked_so_far].
  assert (rank (<[(base + (i + j))%nat := b]> (mk_marked s)) base (S (i + j))
          = (rank (mk_marked s) base (i + j) + if b then 1 else 0)%nat) as Erank.
  { cbn [rank]. rewrite rank_insert_ge by lia. rewrite mark_at_insert.
    rewrite decide_True by lia. done. }
  assert (wrap64 (marked_so_far s + b2z b)
          = Z.of_nat (rank (mk_marked s) base (i + j) + if b then 1 else 0))
    as Esf.
  { pose proof (rank_le (mk_marked s) base (i + j)).
    unfold wrap64. rewrite Z.mod_small; rewrite Hsf; destruct b; cbn; lia. }
  split_and!.
  - by rewrite length_insert.
  - by rewrite length_insert.
  - by rewrite Erank.
  - intros t Ht. rewrite prefix_at_insert.
    destruct (decide (t = i + j)%nat) as [->|Hne].
    + rewrite decide_True by lia. by rewrite Erank.
    + rewrite decide_False by lia. rewrite rank_insert_ge by lia.
      apply Hps. lia.
Qed.

Lemma mark_chunks_inv base length ntm lenM lenP :
  (base + length ≤ lenM)%nat → (base + length ≤ lenP)%nat →
  Z.of_nat length < 2 ^ 63 →
  ∀ chunks i e s e' s',
  (length ≤ i + chunks * MARK_COINS)%nat →
  marking_inv base lenM lenP (i `min` length) s →
  mark_chunks chunks base length ntm i e s = (0, e', s') →
  marking_inv base lenM lenP length s'.
Proof.
  intros HM HP Hlen. induction chunks as [|chunks IH];
    intros i e s e' s' Hchunks Hinv Hrun; cbn [mark_chunks] in Hrun.
  - simplify_eq. replace (i `min` length)%nat with length in Hinv by lia. done.
  - unfold rand_read_u32 in Hrun.
    destruct (Z.eqb_spec (draw_ret (e O)) 0) as [_|Hne]; cbn [negb] in Hrun;
      [|by simplify_eq].
    eapply (IH (i + MARK_COINS)%nat); [|  |done].
    { rewrite Nat.mul_succ_l in Hchunks. lia. }
    set (n := MIN (length - i) MARK_COINS).
    assert (n = (i + MARK_COINS) `min` length - i `min` length)%nat as En.
    { unfold n, MIN. destruct (Nat.ltb_spec (length - i) MARK_COINS); lia. }
    destruct (decide (length ≤ i)%nat) as [Hge|Hlt].
    { replace n with O by lia. cbn.
      replace ((i + MARK_COINS) `min` length)%nat with (i `min` length)%nat by lia.
      done. }
    replace (i `min` length)%nat with i in * by lia.
    replace ((i + MARK_COINS) `min` length)%nat with (0 + i + n)%nat by lia.
    rewrite <- Nat.add_assoc, (Nat.add_comm i n), Nat.add_assoc.
    apply (for_loop_inv_idx (λ j s, marking_inv base lenM lenP (j + i) s)).
    + done.
    + intros j s0 Hj Hs0. rewrite (Nat.add_comm j i) in Hs0.
      replace (S j + i)%nat with (S (i + j)) by lia.
      apply mark_elem_inv; [lia..|done].
Qed.

Lemma ceil_div_covers length : (length ≤ CEIL_DIV length MARK_COINS * MARK_COINS)%nat.
Proof.
  unfold CEIL_DIV, MARK_COINS.
  pose proof (Nat.div_mod_eq (length + 2048 - 1) 2048).
  pose proof (Nat.mod_upper_bound (length + 2048 - 1) 2048). lia.
Qed.

(** After a marking phase that drew its coins, whatever they were, the
    prefix sums are the running counts of the marks. *)
Lemma mark_phase_prefix_sums base length s s' :
  (base + length ≤ List.length (marked s))%nat →
  (base + length ≤ List.length (marked_prefix_sums s))%nat →
  Z.of_nat length < 2 ^ 63 →
  mark_phase base length s = (0, s') →
  prefix_sums_from 0 (marked s') (marked_prefix_sums s') base length.
Proof.
  intros HM HP Hlen Hrun. unfold mark_phase in Hrun.
  destruct (mark_chunks _ _ _ _ _ _ _) as [[ret e'] ms] eqn:Hchunks.
  simplify_eq. cbn.
  assert (marking_inv base (List.length (marked s))
            (List.length (marked_prefix_sums s)) length ms) as (_ & _ & _ & Hps).
  { eapply (mark_chunks_inv base length (length / 2) _ _ HM HP Hlen
              (CEIL_DIV length MARK_COINS) 0%nat);
      [apply ceil_div_covers| |exact Hchunks].
    split_and!; try done. intros t Ht. lia. }
  intros i Hi. rewrite Hps by done. lia.
Qed.

End MarkFacts.

(** ** The claims about the shuffle *)

Section ShuffleClaims.
Import Crypto Orshuffle Inputs.

(** C10. For every record array, every contents of the marker and
    prefix-sum arrays, every offset and every outcome of the entropy source,
    [compact] and [shuffle] return, and the records they leave are a
    permutation of the records they were given: the array changes through
    [o_memswap] only. *)
Theorem compact_shuffle_permute (mk : list bool) (ps : list Z)
    (base length : nat) (offset : Z) (m : omem) (s : shuffle_state) :
  (∃ m', compact mk ps base length offset m = Some (0, m')
         ∧ cells m' ≡ₚ cells m)
  ∧ (∃ ret s', shuffle base length s = Some (ret, s')
               ∧ cells (mem s') ≡ₚ cells (mem s)).
Proof.
  split.
  - destruct (compact_run mk ps base length offset m) as (m' & ? & ? & _).
    by exists m'.
  - destruct (shuffle_fuel_run length base length s (le_n _))
      as (ret & s' & ? & ? & _).
    by exists ret, s'.
Qed.

(** C5. Two successful runs of [shuffle] over the same [length], whatever
    the records, the marker arrays and the coins, hand the same sequence of
    index pairs to [o_memswap]: the schedule [shuffle_schedule], a function
    of [base] and [length] alone. *)
Theorem shuffle_swaps_fixed (base length : nat) (s1 s2 s1' s2' : shuffle_state) :
  swaps (mem s1) = [] → swaps (mem s2) = [] →
  shuffle base length s1 = Some (0, s1') →
  shuffle base length s2 = Some (0, s2') →
  swaps (mem s1') = shuffle_schedule (S length) base length
  ∧ swaps (mem s2') = swaps (mem s1').
Proof.
  intros E1 E2 H1 H2.
  destruct (shuffle_fuel_run length base length s1 (le_n _))
    as (r1 & t1 & Hr1 & _ & _ & Hs1).
  destruct (shuffle_fuel_run length base length s2 (le_n _))
    as (r2 & t2 & Hr2 & _ & _ & Hs2).
  unfold shuffle in *. simplify_eq.
  rewrite Hs1, Hs2, E1, E2 by done. done.
Qed.

Lemma shuffle_swaps_fixed_witness :
  ∃ s1' s2',
    shuffle 0 4 (shuffle_input arr4 zero_entropy) = Some (0, s1')
    ∧ shuffle 0 4 (shuffle_input arr4' ones_entropy) = Some (0, s2')
    ∧ swaps (mem s1') = shuffle_schedule 5 0 4
    ∧ swaps (mem s2') = swaps (mem s1').
Proof.
  eexists _, _. split; [reflexivity|]. split; [reflexivity|].
  apply (shuffle_swaps_fixed 0 4 (shuffle_input arr4 zero_entropy)
           (shuffle_input arr4' ones_entropy)); reflexivity.
Defined.

(** C3 (the code at the failing inputs). Over four records the marking
    phase marks none of them when every coin is 0 and three of them when
    every coin is all-one; in neither run does it mark [length / 2 = 2].
    The prefix sums it writes are the running counts of its marks. *)
Theorem mark_phase_misses_half :
  let zero := (mark_phase 0 4 (shuffle_input arr4 zero_entropy)).2 in
  let ones := (mark_phase 0 4 (shuffle_input arr4 ones_entropy)).2 in
  marked zero = [false; false; false; false]
  ∧ marked_prefix_sums zero = [0; 0; 0; 0]
  ∧ marked ones = [true; true; true; false]
  ∧ marked_prefix_sums ones = [1; 2; 3; 3].
Proof. vm_compute. done. Qed.

(** C4 (amended). For a power-of-two length [L = 2 ^ k], marks with exactly
    [L / 2] marked positions, prefix sums that count the marks, and an
    offset below [L]: [compact] returns 0, and its output read from position
    [offset] on, around the end of the array, has the marked records in
    their original order in its first half and the unmarked records in its
    second half.  At offset 0 the output is read as it stands. *)
Theorem compact_marked_prefix (k : nat) (arr : list elem_t)
    (marks : list bool) (ps : list Z) (offset : Z) :
  (k ≤ 63)%nat → length arr = (2 ^ k)%nat → length marks = (2 ^ k)%nat →
  prefix_sums_from 0 marks ps 0 (2 ^ k) →
  rank marks 0 (2 ^ k) = (2 ^ k / 2)%nat →
  0 ≤ offset < Z.of_nat (2 ^ k) →
  ∃ m', compact marks ps 0 (2 ^ k) offset {| cells := arr; swaps := [] |}
        = Some (0, m')
    ∧ take (2 ^ k / 2) (rotate (Z.to_nat offset) (cells m')) = select marks arr
    ∧ drop (2 ^ k / 2) (rotate (Z.to_nat offset) (cells m'))
        ≡ₚ select (negb <$> marks) arr
    ∧ (offset = 0 →
       take (2 ^ k / 2) (cells m') = select marks arr
       ∧ drop (2 ^ k / 2) (cells m') ≡ₚ select (negb <$> marks) arr).
Proof.
  intros Hk Harr Hmarks Hps Hhalf Hoff.
  destruct (compact_rotate k arr marks ps (Z.to_nat offset) [])
    as (m' & Hrun & Htake & Hdrop); try done; [lia|].
  rewrite Z2Nat.id in Hrun by lia. rewrite Hhalf in Htake, Hdrop.
  exists m'. split_and!; try done.
  intros ->. change (Z.to_nat 0) with 0%nat in *.
  assert (rotate 0 (cells m') = cells m') as E.
  { unfold rotate. rewrite Nat.Div0.mod_0_l. cbn. apply app_nil_r. }
  by rewrite E in Htake, Hdrop.
Qed.

Lemma compact_marked_prefix_witness :
  ∃ m', compact [true; false; false; true] [1; 1; 1; 2] 0 4 3
          {| cells := arr4; swaps := [] |} = Some (0, m')
    ∧ take 2 (rotate 3 (cells m')) = rec <$> [10; 13]
    ∧ drop 2 (rotate 3 (cells m')) ≡ₚ rec <$> [11; 12]
    ∧ ((3 : Z) = 0 →
       take 2 (cells m') = rec <$> [10; 13]
       ∧ drop 2 (cells m') ≡ₚ rec <$> [11; 12]).
Proof.
  apply (compact_marked_prefix 2 arr4 [true; false; false; true] [1; 1; 1; 2] 3);
    [lia|reflexivity|reflexivity| |reflexivity|cbn; lia].
  intros i Hi. do 4 (destruct i as [|i]; [reflexivity|]). cbn in Hi. lia.
Defined.

(** C4 as the specification words it fails: with four records, the first
    two marked, and offset 2, the marked records land in positions 2 and 3,
    a shift by 2 and not by [2 mod (4 / 2) = 0]. *)
Lemma compact_shift_counterexample :
  ¬ shifted_by_offset_mod_half arr4 [true; true; false; false] [1; 2; 2; 2] 2.
Proof.
  intros H. specialize (H _ eq_refl). vm_compute in H. discriminate H.
Qed.

End ShuffleClaims.

(** ** The claims about the iter-tasks *)

Section IterTaskClaims.
Import Crypto Threading Orshuffle Mergesort Inputs.

Lemma assign_random_id_nothing arr start nt r e i :
  assign_random_id
    ({| aa_arr := arr; aa_length := 0; aa_start_idx := start;
        aa_num_threads := nt; aa_ret := r |}, e) i
  = ({| aa_arr := arr; aa_length := 0; aa_start_idx := start;
        aa_num_threads := nt; aa_ret := r |}, e).
Proof.
  unfold assign_random_id. cbn [aa_length aa_num_threads aa_arr aa_ret aa_start_idx].
  change (Z.of_nat 0) with 0. rewrite !Z.mul_0_r.
  change (wrap64 0) with 0. rewrite Zdiv_0_l. done.
Qed.

(** C2 (the code at every input). The iter-task that [orshuffle_sort] runs
    to assign the ORP ids is given [length = 0]: whatever the records, the
    number of threads, the entropy source and the order of the shards, it
    returns 0, leaves every record as it was and draws nothing. *)
Theorem assign_orp_ids_keeps_ids (arr : list elem_t) (length num_threads : nat)
    (e : entropy) (schedule : list nat) :
  assign_orp_ids arr length num_threads e schedule = (0, arr, e).
Proof.
  unfold assign_orp_ids, thread_work_iter.
  induction schedule as [|i schedule IH]; [done|].
  cbn [foldl]. by rewrite assign_random_id_nothing.
Qed.

Lemma mergesort_pass_failed_malloc malloc_errno args run_idx :
  malloc_errno run_idx ≠ 0 → mp_ret args = 0 →
  mergesort_pass malloc_errno args run_idx = Some args.
Proof.
  intros Hne Hret. unfold mergesort_pass, atomic_compare_exchange_n.
  destruct (Z.eqb_spec (malloc_errno run_idx) 0) as [|_]; [done|]. cbn [negb].
  rewrite Hret. destruct (Z.eqb_spec 0 (malloc_errno run_idx)) as [|_];
    [congruence|]. cbn. by destruct args; simplify_eq/=.
Qed.

Lemma mergesort_passes_all_failed malloc_errno schedule fuel mem input output
    length run_length :
  (∀ rl i, malloc_errno rl i ≠ 0) →
  (1 ≤ run_length)%nat → (length < run_length + fuel)%nat →
  ∃ input', mergesort_passes fuel malloc_errno schedule mem input output
              length run_length = Some (0, mem, input').
Proof.
  intros Hfail. revert mem input output run_length.
  induction fuel as [|fuel IH]; intros mem input output run_length Hrl Hfuel.
  - cbn [mergesort_passes].
    destruct (Nat.ltb_spec run_length length); [lia|]. eauto.
  - cbn [mergesort_passes]. destruct (Nat.ltb_spec run_length length); [|eauto].
    set (args := {| mp_mem := mem |}).
    assert (thread_work_iter
              (λ st i, st ≫= λ a, mergesort_pass (malloc_errno run_length) a i)
              (schedule run_length) (Some args) = Some args) as ->.
    { unfold thread_work_iter.
      induction (schedule run_length) as [|i l IHl]; [done|].
      cbn [foldl mbind option_bind]. by rewrite mergesort_pass_failed_malloc. }
    cbn [mp_ret args negb Z.eqb mp_mem]. apply IH; unfold BUF_SIZE; lia.
Qed.

(** C8 (the code at the failing inputs). When the [malloc] of every shard
    of every merge pass fails, with whatever non-zero [errno], [mergesort]
    still returns 0: the compare-exchange of [mergesort_pass] never stores
    the status of a shard in [args->ret]. *)
Theorem mergesort_loses_shard_status (qsort : list elem_t → list elem_t)
    (malloc_errno : nat → nat → Z) (first_schedule : list nat)
    (schedule : nat → list nat) (mem : list elem_t) (arr out length : nat) :
  (∀ run_length run_idx, malloc_errno run_length run_idx ≠ 0) →
  ∃ mem', mergesort qsort malloc_errno first_schedule schedule mem arr out
            length = Some (0, mem').
Proof.
  intros Hfail. unfold mergesort.
  edestruct (mergesort_passes_all_failed malloc_errno schedule length)
    as [input' ->]; [done|unfold BUF_SIZE; lia..|].
  cbn [negb Z.eqb]. destruct (negb _); eauto.
Qed.

Lemma mergesort_loses_shard_status_witness :
  ∃ mem', mergesort id (λ _ _, 12) [0; 1]%nat (λ _, [0%nat])
            (replicate 4096 (rec 1)) 0 2048 2048 = Some (0, mem').
Proof.
  apply (mergesort_loses_shard_status id (λ _ _, 12)). intros _ _. lia.
Defined.

End IterTaskClaims.

(** ** The sample partition receives its share *)

Section PartitionHelpers.
Import SamplePartition.

Lemma take_S_insert {A} (l : list A) i x :
  (i < length l)%nat → take (S i) (<[i := x]> l) = take i l ++ [x].
Proof.
  revert i. induction l as [|y l IH]; intros [|i] Hi; cbn in *; try lia.
  - by rewrite take_0.
  - rewrite IH by lia. done.
Qed.

Lemma npend_insert l i x r :
  l !! i = Some r →
  (npend (<[i := x]> l) + (if is_pending r then 1 else 0)
   = npend l + (if is_pending x then 1 else 0))%nat.
Proof.
  revert i. induction l as [|y l IH]; intros [|i] Hi; simplify_eq/=; [lia|].
  specialize (IH _ Hi). lia.
Qed.

Lemma npend_zero l i r : npend l = O → l !! i = Some r → is_pending r = false.
Proof.
  revert i. induction l as [|y l IH]; intros [|i] H0 Hi; simplify_eq/=.
  - destruct (is_pending r); [lia|done].
  - eapply IH; [|done]. lia.
Qed.

Lemma npend_app l1 l2 : npend (l1 ++ l2) = (npend l1 + npend l2)%nat.
Proof. induction l1 as [|y l1 IH]; cbn; [done|]. rewrite IH. lia. Qed.

Lemma npend_le l : (npend l ≤ length l)%nat.
Proof. induction l as [|y l IH]; cbn; [done|]. destruct (is_pending y); lia. Qed.

Lemma pending_spec l i :
  i ∈ pending l → ∃ r, l !! i = Some r ∧ is_pending r = true.
Proof.
  unfold pending. intros [Hp Hi]%list_elem_of_filter.
  apply elem_of_seq in Hi as [_ Hi]. cbn in Hi.
  destruct (lookup_lt_is_Some_2 l i Hi) as [r Hr]. rewrite Hr in Hp.
  by exists r.
Qed.

Lemma waitany_index requests net r index count data net1 :
  mpi_tls_waitany requests net = (r, index, count, data, net1) → r = 0 →
  ∃ q, requests !! index = Some q ∧ is_pending q = true.
Proof.
  unfold mpi_tls_waitany. intros H Hr.
  destruct (pending requests) as [|i0 act] eqn:Hact; [simplify_eq|].
  destruct (Z.eqb_spec (ev_ret (net O)) 0); cbn [negb] in H; simplify_eq.
  apply pending_spec. rewrite Hact.
  apply list_elem_of_In, nth_In.
  apply Nat.mod_upper_bound. done.
Qed.

End PartitionHelpers.

Section SamplePartitionFacts.
Import SamplePartition.

Variable world_rank world_size : nat.
Variable SIZEOF_ELEM : Z.
Variable total_length : Z.
Hypothesis rank_lt_size : (world_rank < world_size)%nat.
Hypothesis size_fits : Z.of_nat world_size < 2 ^ 64.

Local Abbreviation src := (src_local_length world_rank world_size total_length).
Local Abbreviation partition_inv :=
  (SamplePartition.partition_inv world_rank world_size total_length).

Lemma src_range : 0 ≤ src < 2 ^ 64.
Proof. unfold src_local_length, wrap64. apply Z.mod_pos_bound. lia. Qed.

Lemma recv_done n :
  0 ≤ n < 2 ^ 64 →
  (MINZ (wrap64 (src - n)) SAMPLE_PARTITION_BUF_SIZE >? 0) = false → n = src.
Proof.
  intros Hn H. pose proof src_range as Hs.
  unfold MINZ, SAMPLE_PARTITION_BUF_SIZE, wrap64 in H.
  pose proof (Z.mod_pos_bound (src - n) (2 ^ 64) ltac:(lia)) as Hm.
  assert ((src - n) mod 2 ^ 64 = 0) as H0.
  { destruct (Z.ltb_spec ((src - n) mod 2 ^ 64) 512); lia. }
  destruct (decide (n ≤ src)).
  - rewrite Z.mod_small in H0 by lia. lia.
  - rewrite <- (Z.mod_add _ 1) in H0 by lia.
    rewrite Z.mod_small in H0 by lia. lia.
Qed.

Ltac split_inv := split; [|split; [|split]].

Lemma initial_request_inv i s :
  (i < world_size)%nat →
  partition_inv i s →
  partition_inv (S i) (initial_request world_rank world_size total_length i s).
Proof.
  intros Hi Hinv. unfold initial_request.
  destruct (Z.eqb_spec (ret s) 0) as [Hret|Hret]; cbn [negb];
    [|intros ?; done].
  destruct (Hinv Hret) as (Hlen & Hcnt & Hnum & Hdone).
  assert (wrap64 (requests_len s - 1) = requests_len s - 1) as Ewrap.
  { pose proof (npend_le (take i (requests s))) as Hle.
    rewrite length_take in Hle. apply Z.mod_small. rewrite Hcnt. lia. }
  destruct (Nat.eqb_spec i world_rank) as [->|Hne].
  - destruct (_ >? 0) eqn:Hgt; intros Hret'; cbn in *.
    + rewrite length_insert, take_S_insert, npend_app by lia. cbn.
      split_inv; [done|lia|done|].
      rewrite list_lookup_insert_eq by lia. done.
    + rewrite length_insert, take_S_insert, npend_app by lia. cbn.
      split_inv; [done|lia|done|]. intros _ _. by apply recv_done.
  - destruct (_ <? _) eqn:Hlt; intros Hret'; cbn in *.
    + rewrite length_insert, take_S_insert, npend_app by lia. cbn.
      split_inv; [done|lia|done|].
      rewrite list_lookup_insert_ne by done. intros ?. apply Hdone. lia.
    + rewrite length_insert, take_S_insert, npend_app by lia. cbn.
      split_inv; [done|lia|done|].
      rewrite list_lookup_insert_ne by done. intros ?. apply Hdone. lia.
Qed.

Lemma handle_completion_inv s :
  ret s = 0 → requests_len s ≠ 0 →
  partition_inv world_size s →
  partition_inv world_size
    (handle_completion world_rank world_size SIZEOF_ELEM total_length s).
Proof.
  intros Hret Hlen0 Hinv.
  destruct (Hinv Hret) as (Hlen & Hcnt & Hnum & Hdone).
  rewrite take_ge in Hcnt by lia.
  unfold handle_completion.
  destruct (mpi_tls_waitany (requests s) (net s))
    as [[[[r index] count] data] net1] eqn:Hwait.
  destruct (Z.eqb_spec r 0) as [->|Hr]; cbn [negb]; [|intros ?; done].
  destruct (waitany_index _ _ _ _ _ _ _ Hwait eq_refl) as (q & Hq & Hpend).
  pose proof (lookup_lt_Some _ _ _ Hq) as Hidx.
  pose proof (npend_insert (requests s) index MPI_TLS_NULL q Hq) as Hnull.
  pose proof (npend_insert (requests s) index MPI_TLS_SEND q Hq) as Hsend.
  pose proof (npend_insert (requests s) index MPI_TLS_RECV q Hq) as Hrecv.
  rewrite Hpend in Hnull, Hsend, Hrecv. cbn in Hnull, Hsend, Hrecv.
  assert (wrap64 (requests_len s - 1) = requests_len s - 1) as Ewrap.
  { pose proof (npend_le (requests s)). apply Z.mod_small. lia. }
  assert (∀ n, 0 ≤ wrap64 n < 2 ^ 64) as Hw
    by (intros; apply Z.mod_pos_bound; lia).
  destruct (Nat.eqb_spec index world_rank) as [->|Hne].
  - destruct (_ >? 0) eqn:Hgt; intros Hret'; cbn in *;
      rewrite length_insert, take_ge by (rewrite length_insert; lia).
    + split_inv; [done|lia|apply Hw|].
      rewrite list_lookup_insert_eq by lia. done.
    + split_inv; [done|lia|apply Hw|]. intros _ _. apply recv_done; [apply Hw|done].
  - destruct (_ >? 0) eqn:Hgt; intros Hret'; cbn in *;
      rewrite length_insert, take_ge by (rewrite length_insert; lia).
    + split_inv; [done|lia|done|].
      rewrite list_lookup_insert_ne by done. done.
    + split_inv; [done|lia|done|].
      rewrite list_lookup_insert_ne by done. done.
Qed.

Lemma completion_loop_inv fuel s s' :
  partition_inv world_size s →
  completion_loop world_rank world_size SIZEOF_ELEM fuel total_length s = Some s' →
  ret s' = 0 → num_received s' = src.
Proof.
  revert s. induction fuel as [|fuel IH]; intros s Hinv Hrun Hret'; cbn in Hrun.
  - destruct (Z.eqb_spec (ret s) 0) as [Hret|Hret]; cbn in Hrun;
      [|by simplify_eq].
    destruct (Z.eqb_spec (requests_len s) 0) as [Hlen0|Hlen0]; [|done].
    simplify_eq. destruct (Hinv Hret) as (Hlen & Hcnt & Hnum & Hdone).
    rewrite take_ge in Hcnt by lia.
    destruct (lookup_lt_is_Some_2 (requests s') world_rank ltac:(lia)) as [q Hq].
    pose proof (npend_zero (requests s') world_rank q ltac:(lia) Hq).
    destruct q; try done. by apply Hdone.
  - destruct (Z.eqb_spec (ret s) 0) as [Hret|Hret]; cbn in Hrun;
      [|by simplify_eq].
    destruct (Z.eqb_spec (requests_len s) 0) as [Hlen0|Hlen0].
    + simplify_eq. destruct (Hinv Hret) as (Hlen & Hcnt & Hnum & Hdone).
      rewrite take_ge in Hcnt by lia.
      destruct (lookup_lt_is_Some_2 (requests s') world_rank ltac:(lia)) as [q Hq].
      pose proof (npend_zero (requests s') world_rank q ltac:(lia) Hq).
      destruct q; try done. by apply Hdone.
    + eapply IH; [|done..]. by apply handle_completion_inv.
Qed.

End SamplePartitionFacts.

Section SamplePartitionClaims.
Import SamplePartition Inputs.

Lemma src_local_length_floor (world_rank world_size : nat) (total_length : Z) :
  (world_rank < world_size)%nat → Z.of_nat world_size < 2 ^ 31 →
  0 ≤ total_length → total_length * Z.of_nat world_size < 2 ^ 64 →
  src_local_length world_rank world_size total_length
  = total_length * (Z.of_nat world_rank + 1) / Z.of_nat world_size
    - total_length * Z.of_nat world_rank / Z.of_nat world_size.
Proof.
  intros Hr HW HN Hfit. unfold src_local_length, src_local_start, wrap64.
  assert (0 ≤ total_length * Z.of_nat world_rank
          ≤ total_length * (Z.of_nat world_rank + 1)) as H1 by nia.
  assert (total_length * (Z.of_nat world_rank + 1)
          ≤ total_length * Z.of_nat world_size) as H2 by nia.
  rewrite (Z.mod_small (Z.of_nat world_rank + 1)) by lia.
  rewrite (Z.mod_small (total_length * (Z.of_nat world_rank + 1))) by lia.
  rewrite (Z.mod_small (total_length * Z.of_nat world_rank)) by lia.
  pose proof (Z.div_le_mono _ _ (Z.of_nat world_size) ltac:(lia) (proj2 H1)).
  pose proof (Z.div_pos _ (Z.of_nat world_size) (proj1 H1) ltac:(lia)).
  pose proof (Z.div_le_upper_bound (total_length * (Z.of_nat world_rank + 1))
    (Z.of_nat world_size) total_length ltac:(lia) ltac:(lia)).
  apply Z.mod_small. nia.
Qed.

(** C7 (amended). When [distributed_sample_partition] over total length N
    and W workers returns 0 on worker r, the number of records put into the
    output buffer, [num_received], equals [src_local_length]: the assertion
    of line 620 holds in every run.  That share is
    floor((r+1) N / W) - floor(r N / W). *)
Theorem sample_partition_receives_share (world_rank world_size : nat)
    (SIZEOF_ELEM : Z) (quickselect : Z * list Z) (network : network)
    (fuel : nat) (arr out : list elem_t) (local_length total_length : Z)
    (out' : list elem_t) (n : Z) :
  (world_rank < world_size)%nat → Z.of_nat world_size < 2 ^ 31 →
  0 ≤ total_length → total_length * Z.of_nat world_size < 2 ^ 64 →
  distributed_sample_partition world_rank world_size SIZEOF_ELEM quickselect
    network fuel arr out local_length total_length = Some (0, out', n) →
  n = src_local_length world_rank world_size total_length
  ∧ n = total_length * (Z.of_nat world_rank + 1) / Z.of_nat world_size
        - total_length * Z.of_nat world_rank / Z.of_nat world_size.
Proof.
  intros Hr HW HN Hfit Hrun.
  rewrite <- src_local_length_floor by done.
  enough (n = src_local_length world_rank world_size total_length) by done.
  unfold distributed_sample_partition in Hrun.
  destruct (Nat.eqb_spec world_size 1) as [E1|_].
  { simplify_eq. assert (world_rank = 0%nat) as -> by lia.
    rewrite src_local_length_floor by (done || lia).
    change (Z.of_nat 1) with 1. change (Z.of_nat 0) with 0.
    rewrite Z.mul_0_r, !Z.div_1_r, Z.add_0_l, Z.mul_1_r, Z.sub_0_r.
    apply Z.mod_small. lia. }
  destruct quickselect as [r idxs].
  destruct (Z.eqb_spec r 0) as [->|Hne]; cbn [negb] in Hrun; [|by simplify_eq].
  match type of Hrun with
  | context [completion_loop _ _ _ _ _ ?s0] => set (s := s0) in Hrun
  end.
  destruct (completion_loop _ _ _ _ _ s) as [s'|] eqn:Hloop; [|done].
  simplify_eq.
  eapply (completion_loop_inv world_rank world_size SIZEOF_ELEM total_length);
    [done|lia| |done..].
  subst s.
  apply (for_loop_inv_idx (partition_inv world_rank world_size total_length)
           world_size 0).
  - intros _. cbn. rewrite length_replicate, take_0, Nat.sub_0_r. cbn.
    split; [done|]. split; [lia|]. split; [|lia].
    apply Z.mod_pos_bound. lia.
  - intros i s Hi. apply initial_request_inv; lia.
Qed.

Lemma sample_partition_receives_share_witness :
  1 = src_local_length 0 2 3 ∧ 1 = 3 * (Z.of_nat 0 + 1) / Z.of_nat 2
                                     - 3 * Z.of_nat 0 / Z.of_nat 2.
Proof.
  apply (sample_partition_receives_share 0 2 16 (0, [1]) quiet_network 8
           [rec 1; rec 5] (replicate 4 (rec 0)) 2 3
           (rec 1 :: replicate 3 (rec 0)) 1);
    [lia|lia|lia|lia|reflexivity].
Defined.

(** C7 as the specification words it fails: worker 0 of 2, over 3 records in
    all, returns 0 with [num_received = 1], and
    ceil(1 * 3 / 2) - ceil(0 * 3 / 2) = 2. *)
Lemma sample_partition_ceil_counterexample :
  ¬ receives_spec_share 0 2 16 (0, [1]) quiet_network 8
      [rec 1; rec 5] (replicate 4 (rec 0)) 2 3.
Proof.
  intros H. specialize (H _ _ eq_refl). vm_compute in H. discriminate H.
Qed.

End SamplePartitionClaims.

(** ** The distributed quickselect finds the target ranks *)

Section QuickselectProofs.
Import Comparator Quickselect QuickselectSpec Inputs.

Section QuickselectOrder.

Lemma comparator_le x p :
  elem_sample_comparator x p ≤ 0 ↔ sample_le (sample_of x) p.
Proof.
  unfold elem_sample_comparator, sample_le, sample_of; cbn.
  rewrite Z.shiftl_mul_pow2 by lia. change (2 ^ 1) with 2.
  destruct (three_way_cases (key x) (sample_key p)) as [[? ->]|[[? ->]|[? ->]]],
    (three_way_cases (orp_id x) (sample_orp_id p)) as [[? ->]|[[? ->]|[? ->]]];
    lia.
Qed.

Lemma comparator_ge x p :
  0 ≤ elem_sample_comparator x p ↔ sample_le p (sample_of x).
Proof.
  unfold elem_sample_comparator, sample_le, sample_of; cbn.
  rewrite Z.shiftl_mul_pow2 by lia. change (2 ^ 1) with 2.
  destruct (three_way_cases (key x) (sample_key p)) as [[? ->]|[[? ->]|[? ->]]],
    (three_way_cases (orp_id x) (sample_orp_id p)) as [[? ->]|[[? ->]|[? ->]]];
    lia.
Qed.

Lemma sample_le_refl p : sample_le p p.
Proof. unfold sample_le. lia. Qed.

Lemma sample_le_trans p q r : sample_le p q → sample_le q r → sample_le p r.
Proof. unfold sample_le. lia. Qed.

Lemma window_stable_refl lo hi arr : window_stable lo hi arr arr.
Proof. split_and!; eauto. Qed.

Lemma window_stable_trans lo hi a b c :
  window_stable lo hi a b → window_stable lo hi b c → window_stable lo hi a c.
Proof.
  intros (L1 & P1 & F1 & M1) (L2 & P2 & F2 & M2). split_and!.
  - lia.
  - by rewrite P2.
  - intros j Hj. by rewrite F2, F1.
  - intros j x Hj Hx. destruct (M2 j x Hj Hx) as (j' & Hj' & Hx'). eauto.
Qed.

Lemma window_stable_mono lo hi lo' hi' a b :
  (lo ≤ lo')%nat → (hi' ≤ hi)%nat →
  window_stable lo' hi' a b → window_stable lo hi a b.
Proof.
  intros Hlo Hhi (L & P & F & M). split_and!; [done..| |].
  - intros j Hj. apply F. lia.
  - intros j x Hj Hx.
    destruct (decide (lo' ≤ j < hi')%nat) as [Hin|Hout].
    + destruct (M j x Hin Hx) as (j' & ? & ?). exists j'. split; [lia|done].
    + exists j. split; [done|]. by rewrite <- F.
Qed.

Lemma window_stable_swap lo hi arr a b :
  (lo ≤ a < hi)%nat → (lo ≤ b < hi)%nat → (hi ≤ length arr)%nat →
  window_stable lo hi arr (<[a := elem_at arr b]> (<[b := elem_at arr a]> arr)).
Proof.
  intros Ha Hb Hhi.
  destruct (lookup_lt_is_Some_2 arr a ltac:(lia)) as [x Hx].
  destruct (lookup_lt_is_Some_2 arr b ltac:(lia)) as [y Hy].
  unfold elem_at. rewrite Hx, Hy. cbn.
  split_and!.
  - by rewrite !length_insert.
  - by apply insert_swap_perm.
  - intros j Hj. rewrite !list_lookup_insert_ne by lia. done.
  - intros j z Hj. rewrite !list_lookup_insert, !length_insert.
    repeat case_decide; intros; simplify_eq; eauto.
Qed.

End QuickselectOrder.

Section PartitionFacts.

Lemma elem_at_lookup arr j x : arr !! j = Some x → elem_at arr j = x.
Proof. unfold elem_at. by intros ->. Qed.

Lemma partition_loop_spec pivot arr0 lo hi :
  ∀ fuel arr pl pr st,
  (hi ≤ length arr0)%nat → (lo ≤ pl)%nat → (pl ≤ pr)%nat → (pr ≤ hi)%nat →
  window_stable lo hi arr0 arr →
  below pivot arr lo pl → above pivot arr pr hi →
  (st = PARTITION_SCAN_RIGHT →
   ¬ sample_le (sample_of (elem_at arr pl)) pivot) →
  (2 * (pr - pl)
   + match st with PARTITION_SCAN_LEFT => 1 | PARTITION_SCAN_RIGHT => 0 end
   ≤ fuel)%nat →
  ∃ arr' c, partition_loop fuel pivot arr pl pr st = Some (arr', c, c)
    ∧ (pl ≤ c ≤ pr)%nat ∧ window_stable lo hi arr0 arr'
    ∧ below pivot arr' lo c ∧ above pivot arr' c hi.
Proof.
  induction fuel as [|fuel IH]; intros arr pl pr st Hhi Hlo Hle Hpr Hst Hb Ha Hright Hfuel.
  { cbn [partition_loop]. destruct (Nat.ltb_spec pl pr); [destruct st; lia|].
    assert (pl = pr) as -> by lia. exists arr, pr. split_and!; auto; lia. }
  cbn [partition_loop]. destruct (Nat.ltb_spec pl pr) as [Hlt|Hge].
  2:{ assert (pl = pr) as -> by lia. exists arr, pr. split_and!; auto; lia. }
  pose proof Hst as (Hlen & _).
  destruct st.
  - (* scanning left *)
    destruct (Z.gtb_spec (elem_sample_comparator (elem_at arr pl) pivot) 0)
      as [Hgt|Hngt].
    + destruct (IH arr pl pr PARTITION_SCAN_RIGHT) as (arr' & c & ? & ? & ? & ? & ?);
        try done; [|lia|eauto 10].
      intros _. rewrite <- comparator_le. lia.
    + destruct (IH arr (S pl) pr PARTITION_SCAN_LEFT) as (arr' & c & ? & ? & ? & ? & ?);
        try done; try lia.
      * intros j x Hj Hx. destruct (decide (j = pl)) as [->|]; [|apply (Hb j); [lia|done]].
        rewrite <- (elem_at_lookup _ _ _ Hx). apply comparator_le. lia.
      * exists arr', c. split_and!; auto; lia.
  - (* scanning right *)
    specialize (Hright eq_refl).
    destruct (Z.ltb_spec (elem_sample_comparator (elem_at arr (pr - 1)) pivot) 0)
      as [Hlt0|Hge0].
    + assert (pl ≠ pr - 1)%nat as Hne.
      { intros ->. apply Hright, comparator_le. lia. }
      set (arr1 := <[pl := elem_at arr (pr - 1)]>
                     (<[(pr - 1)%nat := elem_at arr pl]> arr)).
      assert (window_stable lo hi arr arr1) as Hsw
        by (apply window_stable_swap; lia).
      destruct (IH arr1 (S pl) (pr - 1)%nat PARTITION_SCAN_LEFT)
        as (arr' & c & ? & ? & ? & ? & ?); try done; try lia.
      * by eapply window_stable_trans.
      * intros j x Hj. unfold arr1.
        rewrite !list_lookup_insert, !length_insert.
        repeat case_decide; try lia; intros Hx; simplify_eq.
        -- apply comparator_le. lia.
        -- apply (Hb j); [lia|done].
      * intros j x Hj. unfold arr1.
        rewrite !list_lookup_insert, !length_insert.
        repeat case_decide; try lia; intros Hx; simplify_eq.
        -- destruct (decide (sample_le pivot (sample_of (elem_at arr pl))))
             as [|Hn]; [done|]. exfalso. apply Hright.
           unfold sample_le in *. lia.
        -- apply (Ha j); [lia|done].
      * exists arr', c. split_and!; auto; lia.
    + destruct (IH arr pl (pr - 1)%nat PARTITION_SCAN_RIGHT)
        as (arr' & c & ? & ? & ? & ? & ?); try done; try lia.
      * intros j x Hj Hx.
        destruct (decide (j = pr - 1)%nat) as [->|]; [|apply (Ha j); [lia|done]].
        rewrite <- (elem_at_lookup _ _ _ Hx). apply comparator_ge. lia.
      * exists arr', c. split_and!; auto; lia.
Qed.

End PartitionFacts.

Section PartitionWorker.

Lemma below_frame p a b lo hi :
  (∀ j, (lo ≤ j < hi)%nat → b !! j = a !! j) → below p a lo hi → below p b lo hi.
Proof. intros F H j x Hj Hx. apply (H j); [done|]. by rewrite <- F. Qed.

Lemma above_frame p a b lo hi :
  (∀ j, (lo ≤ j < hi)%nat → b !! j = a !! j) → above p a lo hi → above p b lo hi.
Proof. intros F H j x Hj Hx. apply (H j); [done|]. by rewrite <- F. Qed.

Lemma below_stable p a b lo hi :
  window_stable lo hi a b → below p a lo hi → below p b lo hi.
Proof.
  intros (_ & _ & _ & M) H j x Hj Hx.
  destruct (M j x Hj Hx) as (j' & Hj' & Hx'). by apply (H j').
Qed.

Lemma above_stable p a b lo hi :
  window_stable lo hi a b → above p a lo hi → above p b lo hi.
Proof.
  intros (_ & _ & _ & M) H j x Hj Hx.
  destruct (M j x Hj Hx) as (j' & Hj' & Hx'). by apply (H j').
Qed.

Lemma below_app p a lo mid hi :
  below p a lo mid → below p a mid hi → below p a lo hi.
Proof.
  intros H1 H2 j x Hj Hx. destruct (decide (j < mid)%nat).
  - apply (H1 j); [lia|done].
  - apply (H2 j); [lia|done].
Qed.

Lemma above_app p a lo mid hi :
  above p a lo mid → above p a mid hi → above p a lo hi.
Proof.
  intros H1 H2 j x Hj Hx. destruct (decide (j < mid)%nat).
  - apply (H1 j); [lia|done].
  - apply (H2 j); [lia|done].
Qed.

Lemma below_sub p a lo hi lo' hi' :
  (lo ≤ lo')%nat → (hi' ≤ hi)%nat → below p a lo hi → below p a lo' hi'.
Proof. intros ?? H j x Hj. apply H. lia. Qed.

Lemma above_sub p a lo hi lo' hi' :
  (lo ≤ lo')%nat → (hi' ≤ hi)%nat → above p a lo hi → above p a lo' hi'.
Proof. intros ?? H j x Hj. apply H. lia. Qed.

Lemma below_le p q a lo hi : sample_le p q → below p a lo hi → below q a lo hi.
Proof. intros Hpq H j x Hj Hx. eapply sample_le_trans; [by eapply H|done]. Qed.

Lemma above_le p q a lo hi : sample_le q p → above p a lo hi → above q a lo hi.
Proof. intros Hpq H j x Hj Hx. eapply sample_le_trans; [done|by eapply H]. Qed.

Lemma partition_spec (is_master : bool) pivot arr lo hi :
  (lo ≤ hi)%nat → (hi ≤ length arr)%nat →
  (is_master = true → (lo < hi)%nat ∧ sample_of (elem_at arr lo) = pivot) →
  ∃ arr' pl pr,
    partition is_master pivot arr lo hi = Some (arr', pl, pr)
    ∧ partitioned_ok pivot lo hi arr arr' pl pr
    ∧ (is_master = true → (pr < pl)%nat).
Proof.
  intros Hle Hhi Hm. unfold partition. destruct is_master.
  - destruct (Hm eq_refl) as [Hlt Hpiv].
    destruct (partition_loop_spec pivot arr (lo + 1) hi (2 * (hi - lo) + 2) arr
                (lo + 1) hi PARTITION_SCAN_LEFT)
      as (arr1 & c & -> & Hc & Hst & Hb & Ha); try done; try lia.
    { apply window_stable_refl. }
    { intros j x Hj. lia. }
    { intros j x Hj. lia. }
    pose proof Hst as (Hlen1 & _ & Hframe1 & _).
    set (arr2 := <[lo := elem_at arr1 (c - 1)]>
                   (<[(c - 1)%nat := elem_at arr1 lo]> arr1)).
    assert (window_stable lo hi arr1 arr2) as Hsw
      by (apply window_stable_swap; lia).
    assert (elem_at arr1 lo = elem_at arr lo) as Elo.
    { unfold elem_at. rewrite Hframe1 by lia. done. }
    exists arr2, c, (c - 1)%nat. split; [done|]. split; [|lia].
    split_and!; try lia.
    + eapply window_stable_trans; [|done].
      eapply window_stable_mono; [| |done]; lia.
    + intros j x Hj. unfold arr2.
      rewrite !list_lookup_insert, !length_insert.
      repeat case_decide; try lia; intros Hx; try injection Hx as <-.
      * destruct (decide (c - 1 = lo)%nat) as [E|].
        -- rewrite E, Elo, Hpiv. apply sample_le_refl.
        -- destruct (lookup_lt_is_Some_2 arr1 (c - 1) ltac:(lia)) as [y Hy].
           rewrite (elem_at_lookup _ _ _ Hy). apply (Hb (c - 1)%nat); [lia|done].
      * rewrite Elo, Hpiv. apply sample_le_refl.
      * apply (Hb j); [lia|done].
    + intros j x Hj. unfold arr2.
      rewrite !list_lookup_insert, !length_insert.
      repeat case_decide; try lia; intros Hx; try injection Hx as <-.
      * replace (c - 1)%nat with lo by lia.
        rewrite Elo, Hpiv. apply sample_le_refl.
      * rewrite Elo, Hpiv. apply sample_le_refl.
      * apply (Ha j); [lia|done].
  - rewrite Nat.add_0_r.
    destruct (partition_loop_spec pivot arr lo hi (2 * (hi - lo) + 2) arr
                lo hi PARTITION_SCAN_LEFT)
      as (arr1 & c & -> & Hc & Hst & Hb & Ha); try done; try lia.
    { apply window_stable_refl. }
    { intros j x Hj. lia. }
    { intros j x Hj. lia. }
    exists arr1, c, c. split; [done|]. split; [|done].
    split_and!; try done; lia.
Qed.

Lemma partition_master_pivot pivot arr lo hi arr' pl pr :
  (lo < hi)%nat → (hi ≤ length arr)%nat →
  sample_of (elem_at arr lo) = pivot →
  partition true pivot arr lo hi = Some (arr', pl, pr) →
  ∃ x, arr' !! pr = Some x ∧ sample_of x = pivot.
Proof.
  intros Hlt Hhi Hpiv Hrun. unfold partition in Hrun.
  destruct (partition_loop_spec pivot arr (lo + 1) hi (2 * (hi - lo) + 2) arr
              (lo + 1) hi PARTITION_SCAN_LEFT)
    as (arr1 & c & E & Hc & Hst & _); try done; try lia.
  { apply window_stable_refl. }
  { intros j x Hj. lia. }
  { intros j x Hj. lia. }
  rewrite E in Hrun. injection Hrun as <- <- <-.
  pose proof Hst as (Hlen1 & _ & Hframe1 & _).
  assert (elem_at arr1 lo = elem_at arr lo) as Elo.
  { unfold elem_at. rewrite Hframe1 by lia. done. }
  exists (elem_at arr lo). split; [|done].
  rewrite !list_lookup_insert, !length_insert.
  repeat case_decide; try lia; f_equal; try done.
  replace (c - 1)%nat with lo by lia. done.
Qed.

End PartitionWorker.

Section RoundFacts.

Lemma elect_master_spec flags :
  elect_master flags = -1
  ∨ (0 ≤ elect_master flags
     ∧ flags !! Z.to_nat (elect_master flags) = Some true).
Proof.
  unfold elect_master.
  apply (for_loop_inv (λ m, m = -1 ∨ (0 ≤ m ∧ flags !! Z.to_nat m = Some true)));
    [by left|].
  intros i m Hm.
  destruct (flags !! i) as [[]|] eqn:Hi; cbn; try done.
  destruct (_ || _); [|done].
  right. split; [lia|]. by rewrite Nat2Z.id.
Qed.

Lemma skip_sum_none m k l : (m < k)%nat → skip_sum m k l = sum_list l.
Proof.
  revert k. induction l as [|x l IH]; intros k Hk; cbn; [done|].
  destruct (Nat.eqb_spec k m); [lia|]. rewrite IH by lia. done.
Qed.

Lemma skip_sum_one m k l :
  (k ≤ m < k + length l)%nat →
  (skip_sum m k l + default O (l !! (m - k)%nat))%nat = sum_list l.
Proof.
  revert k. induction l as [|x l IH]; intros k Hk; cbn in *; [lia|].
  destruct (Nat.eqb_spec k m) as [->|Hne].
  - rewrite Nat.sub_diag, skip_sum_none by lia. cbn. lia.
  - replace (m - k)%nat with (S (m - S k)) by lia. cbn.
    rewrite <- (IH (S k)) by lia. by rewrite Nat.add_assoc.
Qed.

Lemma gather_loop m (l1 l2 : list nat) acc :
  0 ≤ acc → acc + Z.of_nat (skip_sum m (length l1) l2) < 2 ^ 64 →
  for_loop (length l2) (length l1)
    (λ i cur_pivot,
       if (i =? m)%nat then cur_pivot
       else wrap64 (cur_pivot + Z.of_nat (default O ((l1 ++ l2) !! i)))) acc
  = acc + Z.of_nat (skip_sum m (length l1) l2).
Proof.
  revert l1 acc. induction l2 as [|x l2 IH]; intros l1 acc Hacc Hsum;
    cbn [for_loop length skip_sum] in *; [lia|].
  specialize (IH (l1 ++ [x])).
  rewrite length_app, Nat.add_1_r, <- app_assoc in IH. cbn [app] in IH.
  revert Hsum. destruct (length l1 =? m)%nat; intros Hsum.
  - rewrite IH by lia. lia.
  - rewrite list_lookup_middle by done. change (default O (Some x)) with x.
    unfold wrap64. rewrite Z.mod_small by lia. rewrite IH by lia. lia.
Qed.

Lemma gather_cur_pivot_sum master (prs : list nat) :
  (master < length prs)%nat → Z.of_nat (sum_list prs) < 2 ^ 64 →
  gather_cur_pivot master prs = Z.of_nat (sum_list prs).
Proof.
  intros Hm Hsum. unfold gather_cur_pivot.
  pose proof (skip_sum_one master 0 prs ltac:(lia)) as E.
  rewrite Nat.sub_0_r in E.
  rewrite (gather_loop master [] prs) by (cbn; lia). cbn. lia.
Qed.

Lemma bsearch_ge_le k l : (bsearch_ge k l ≤ length l)%nat.
Proof. induction l as [|t l IH]; cbn; [done|]. destruct (k <=? t); lia. Qed.

Lemma parts_lookup {A B C} (f : nat → A * B → option C) (l : list A)
    (k : list B) parts :
  length k = length l →
  mapM id (imap f (zip l k)) = Some parts →
  length parts = length l
  ∧ ∀ r p, parts !! r = Some p →
      ∃ x y, l !! r = Some x ∧ k !! r = Some y ∧ f r (x, y) = Some p.
Proof.
  intros Hlen Hm. apply mapM_Some in Hm.
  pose proof (Forall2_length _ _ _ Hm) as HL.
  rewrite length_imap, length_zip in HL. split; [lia|].
  intros r p Hp.
  destruct (Forall2_lookup_r _ _ _ _ _ Hm Hp) as (o & Ho & Hid).
  apply list_lookup_imap_Some in Ho as ([x y] & Hz & ->).
  apply lookup_zip_Some in Hz as [??]. exists x, y. done.
Qed.

End RoundFacts.

Section GlobalFacts.

Lemma worker_step_refl win tlo thi w : worker_step win tlo thi w w.
Proof. split_and!; auto using window_stable_refl. Qed.

Lemma worker_step_trans win tlo thi a b c :
  worker_step win tlo thi a b → worker_step win tlo thi b c →
  worker_step win tlo thi a c.
Proof.
  intros (S1 & L1 & M1 & F1) (S2 & L2 & M2 & F2). split_and!.
  - by eapply window_stable_trans.
  - lia.
  - lia.
  - intros i Hi. destruct (F1 i Hi) as [E1 E2], (F2 i Hi) as [E3 E4].
    split; congruence.
Qed.

Lemma worker_step_mono win win' tlo thi tlo' thi' a b :
  (win.1 ≤ win'.1)%nat → (win'.2 ≤ win.2)%nat →
  (tlo ≤ tlo')%nat → (thi' ≤ thi)%nat →
  worker_step win' tlo' thi' a b → worker_step win tlo thi a b.
Proof.
  intros ???? (S1 & L1 & M1 & F1). split_and!; try done.
  - by eapply window_stable_mono.
  - intros i Hi. apply F1. lia.
Qed.

Lemma step_refl windows tlo thi ws : call_step windows tlo thi ws ws.
Proof.
  split; [done|]. intros r w w' win ???. simplify_eq. apply worker_step_refl.
Qed.

Lemma step_trans windows tlo thi a b c :
  call_step windows tlo thi a b → call_step windows tlo thi b c →
  call_step windows tlo thi a c.
Proof.
  intros [L1 S1] [L2 S2]. split; [lia|].
  intros r w w'' win Hw Hw'' Hwin.
  destruct (lookup_lt_is_Some_2 b r) as [w' Hw'].
  { apply lookup_lt_Some in Hw. lia. }
  eapply worker_step_trans; eauto.
Qed.

Lemma step_lengths windows tlo thi ws ws' :
  length windows = length ws → call_step windows tlo thi ws ws' →
  Forall2 (λ w w', length (w_arr w') = length (w_arr w)) ws ws'.
Proof.
  intros HW [HL HS]. apply Forall2_same_length_lookup. split; [done|].
  intros r w w' Hw Hw'.
  destruct (lookup_lt_is_Some_2 windows r) as [win Hwin].
  { apply lookup_lt_Some in Hw. lia. }
  by destruct (HS r w w' win Hw Hw' Hwin) as ((? & _) & _).
Qed.

Lemma step_total_length windows tlo thi ws ws' :
  length windows = length ws → call_step windows tlo thi ws ws' →
  total_records ws' = total_records ws.
Proof.
  intros HW HS. pose proof (step_lengths _ _ _ _ _ HW HS) as HF.
  clear HW HS. unfold total_records.
  induction HF as [|w w' ws ws' E _ IH]; cbn; [done|]. by rewrite E, IH.
Qed.

Lemma idx_sum_eq i ws ws' :
  Forall2 (λ w w', w_sample_idxs w' !! i = w_sample_idxs w !! i) ws ws' →
  idx_sum i ws' = idx_sum i ws.
Proof. induction 1 as [|w w' ws ws' E _ IH]; cbn; [done|]. by rewrite E, IH. Qed.

Lemma step_idx_sum windows tlo thi ws ws' i :
  length windows = length ws → call_step windows tlo thi ws ws' →
  ¬ (tlo ≤ i < thi)%nat → idx_sum i ws' = idx_sum i ws.
Proof.
  intros HW [HL HS] Hi. apply idx_sum_eq.
  apply Forall2_same_length_lookup. split; [done|].
  intros r w w' Hw Hw'.
  destruct (lookup_lt_is_Some_2 windows r) as [win Hwin].
  { apply lookup_lt_Some in Hw. lia. }
  destruct (HS r w w' win Hw Hw' Hwin) as (_ & _ & _ & F).
  by destruct (F i Hi).
Qed.

End GlobalFacts.

Section LiftFacts.

Variables (pivot : sample) (lo hi pl pr : nat) (arr0 arr1 arr2 arr3 : list elem_t).
Hypothesis Hpart : partitioned_ok pivot lo hi arr0 arr1 pl pr.
Hypothesis Hleft : window_stable lo pr arr1 arr2.
Hypothesis Hright : window_stable pl hi arr2 arr3.

Lemma after_calls_below : below pivot arr3 lo pl.
Proof using Hpart Hleft Hright.
  destruct Hpart as (? & ? & ? & _ & Hb & _).
  destruct Hleft as (_ & _ & F12 & _). destruct Hright as (_ & _ & F23 & _).
  apply (below_frame _ arr2); [intros j Hj; apply F23; lia|].
  apply (below_app _ _ _ pr).
  - apply (below_stable _ arr1); [done|]. eapply below_sub; [| |done]; lia.
  - apply (below_frame _ arr1); [intros j Hj; apply F12; lia|].
    eapply below_sub; [| |done]; lia.
Qed.

Lemma after_calls_above : above pivot arr3 pr hi.
Proof using Hpart Hleft Hright.
  destruct Hpart as (? & ? & ? & _ & _ & Ha).
  destruct Hleft as (_ & _ & F12 & _). destruct Hright as (_ & _ & F23 & _).
  apply (above_app _ _ _ pl).
  - apply (above_frame _ arr2); [intros j Hj; apply F23; lia|].
    apply (above_frame _ arr1); [intros j Hj; apply F12; lia|].
    eapply above_sub; [| |done]; lia.
  - apply (above_stable _ arr2); [done|].
    apply (above_frame _ arr1); [intros j Hj; apply F12; lia|].
    eapply above_sub; [| |done]; lia.
Qed.

Lemma lift_left_split p idx :
  sample_le p pivot → (lo ≤ idx)%nat → (idx ≤ pr)%nat →
  below p arr2 lo idx → above p arr2 idx pr →
  below p arr3 lo idx ∧ above p arr3 idx hi.
Proof using Hpart Hleft Hright.
  intros Hp ?? Hb Ha.
  destruct Hpart as (? & ? & ? & _). destruct Hright as (_ & _ & F23 & _).
  split.
  - apply (below_frame _ arr2); [intros j Hj; apply F23; lia|done].
  - apply (above_app _ _ _ pr).
    + apply (above_frame _ arr2); [intros j Hj; apply F23; lia|done].
    + eapply above_le; [done|]. apply after_calls_above.
Qed.

Lemma lift_right_split p idx :
  sample_le pivot p → (pl ≤ idx)%nat → (idx ≤ hi)%nat →
  below p arr3 pl idx → above p arr3 idx hi →
  below p arr3 lo idx ∧ above p arr3 idx hi.
Proof using Hpart Hleft Hright.
  intros Hp ?? Hb Ha. split; [|done].
  apply (below_app _ _ _ pl); [|done].
  eapply below_le; [done|]. apply after_calls_below.
Qed.

End LiftFacts.

Section HelperFacts.

Lemma step_mono windows windows' tlo thi tlo' thi' a b :
  length windows' = length windows →
  (∀ r win win', windows !! r = Some win → windows' !! r = Some win' →
     (win.1 ≤ win'.1)%nat ∧ (win'.2 ≤ win.2)%nat) →
  (tlo ≤ tlo')%nat → (thi' ≤ thi)%nat →
  call_step windows' tlo' thi' a b → call_step windows tlo thi a b.
Proof.
  intros HL Hsub ?? [L S]. split; [done|].
  intros r w w' win Hw Hw' Hwin.
  destruct (lookup_lt_is_Some_2 windows' r) as [win' Hwin'].
  { apply lookup_lt_Some in Hwin. lia. }
  destruct (Hsub r win win' Hwin Hwin').
  eapply worker_step_mono; [..|by eapply S]; done.
Qed.

Lemma wf_step ws ws' windows windows' thi tlo' thi' :
  length windows' = length ws →
  call_wf ws windows thi → call_step windows' tlo' thi' ws ws' → call_wf ws' windows thi.
Proof.
  intros HL' [HL Hwf] [L S]. split; [lia|].
  intros r w' win Hw' Hwin.
  destruct (lookup_lt_is_Some_2 ws r) as [w Hw].
  { apply lookup_lt_Some in Hw'. lia. }
  destruct (lookup_lt_is_Some_2 windows' r) as [win' Hwin'].
  { apply lookup_lt_Some in Hw. lia. }
  destruct (Hwf r w win Hw Hwin) as (? & ? & ? & ?).
  destruct (S r w w' win' Hw Hw' Hwin') as ((E & _) & E1 & E2 & _).
  rewrite E, E1, E2. done.
Qed.

Lemma round_parts master pivot ws windows thi parts :
  call_wf ws windows thi →
  (∀ w win, ws !! master = Some w → windows !! master = Some win →
     (win.1 < win.2)%nat ∧ sample_of (elem_at (w_arr w) win.1) = pivot) →
  mapM id (imap (λ rank ww, partition_worker master pivot rank ww.1 ww.2)
             (zip ws windows)) = Some parts →
  length parts = length ws
  ∧ ∀ r w win p, ws !! r = Some w → windows !! r = Some win →
      parts !! r = Some p →
      w_samples (p_worker p) = w_samples w
      ∧ w_sample_idxs (p_worker p) = w_sample_idxs w
      ∧ partitioned_ok pivot win.1 win.2 (w_arr w) (w_arr (p_worker p))
          (p_left p) (p_right p).
Proof.
  intros [HL Hwf] Hmaster Hparts.
  destruct (parts_lookup _ _ _ _ HL Hparts) as [Hlen Hlook].
  split; [done|]. intros r w win p Hw Hwin Hp.
  destruct (Hlook r p Hp) as (w0 & win0 & ? & ? & Hpw). simplify_eq.
  cbn in Hpw. unfold partition_worker in Hpw.
  destruct (Hwf r w win Hw Hwin) as (? & ? & _).
  destruct (partition_spec (r =? master)%nat pivot (w_arr w) win.1 win.2)
    as (arr' & pl & pr & Hrun & Hok & _); [done..| |].
  { intros ->%Nat.eqb_eq. by apply Hmaster. }
  rewrite Hrun in Hpw. by simplify_eq.
Qed.

Lemma parts_sum_le ws parts :
  Forall2 (λ w p, (p_right p ≤ length (w_arr w))%nat) ws parts →
  (sum_list (p_right <$> parts) ≤ total_records ws)%nat.
Proof.
  unfold total_records. induction 1; cbn; [done|]. lia.
Qed.

Lemma idx_sum_set_sample i pivot found parts :
  Forall (λ p, (i < length (w_sample_idxs (p_worker p)))%nat) parts →
  found = true →
  idx_sum i ((λ p, if found : bool
                   then set_sample i pivot (p_right p) (p_worker p)
                   else p_worker p) <$> parts)
  = Z.of_nat (sum_list (p_right <$> parts)).
Proof.
  intros HF ->. induction HF as [|p parts Hp _ IH]; cbn; [done|].
  rewrite list_lookup_insert_eq by done. cbn. rewrite IH. lia.
Qed.

End HelperFacts.

Section HelperSpec.

Variable targets : list Z.

Lemma helper_spec :
  ∀ fuel ws tbase n windows ret ws',
  call_wf ws windows (tbase + n) → (tbase + n ≤ length targets)%nat →
  Z.of_nat (total_records ws) < 2 ^ 64 →
  distributed_quickselect_helper fuel targets ws tbase n windows
  = Some (ret, ws') →
  call_step windows tbase (tbase + n) ws ws'
  ∧ (ret = 0 → ∀ i, (tbase ≤ i < tbase + n)%nat →
       selected targets ws windows ws' i).
Proof.
  induction fuel as [|fuel IH]; intros ws tbase n windows ret ws' Hwf Htg Htot Hrun;
    [done|].
  cbn [distributed_quickselect_helper] in Hrun.
  destruct (Nat.eqb_spec n 0) as [->|Hn].
  { simplify_eq. split; [apply step_refl|]. intros _ i Hi. lia. }
  destruct (elect_master_spec ((λ w, (w.1 <? w.2)%nat) <$> windows))
    as [Hm|[Hm0 Hflag]].
  { rewrite Hm in Hrun. cbn in Hrun. simplify_eq.
    split; [apply step_refl|done]. }
  set (m := elect_master _) in *.
  destruct (Z.eqb_spec m (-1)) as [|_]; [lia|].
  set (master := Z.to_nat m) in *.
  pose proof Hwf as [HLw Hwf'].
  (* the master and its pivot *)
  apply list_lookup_fmap_Some in Hflag as (winm & Hready & Hwinm).
  symmetry in Hready. apply Nat.ltb_lt in Hready.
  destruct (lookup_lt_is_Some_2 ws master) as [wm Hwm].
  { apply lookup_lt_Some in Hwinm. lia. }
  assert (default (Worker [] [] []) (ws !! master) = wm) as Edw
    by (by rewrite Hwm).
  assert (default (O, O) (windows !! master) = winm) as Edwin
    by (by rewrite Hwinm).
  rewrite Edw, Edwin in Hrun. clear Edw Edwin.
  destruct (Hwf' master wm winm Hwm Hwinm) as (_ & Hhim & _).
  destruct (lookup_lt_is_Some_2 (w_arr wm) winm.1 ltac:(lia)) as [first Hfirst].
  rewrite (elem_at_lookup _ _ _ Hfirst) in Hrun.
  set (pivot := {| sample_key := key first; sample_orp_id := orp_id first |}) in *.
  destruct (mapM id _) as [parts|] eqn:Hparts; [|done].
  destruct (round_parts master pivot ws windows (tbase + n) parts Hwf)
    as [HLp Hpart]; [|done|].
  { intros w win ??. simplify_eq. split; [done|].
    by rewrite (elem_at_lookup _ _ _ Hfirst). }
  (* the rank of the pivot *)
  set (prs := p_right <$> parts) in *.
  assert (gather_cur_pivot master prs = Z.of_nat (sum_list prs)) as Hcur.
  { apply gather_cur_pivot_sum.
    - unfold prs. rewrite length_fmap, HLp. by eapply lookup_lt_Some.
    - enough (sum_list prs ≤ total_records ws)%nat by lia.
      apply parts_sum_le, Forall2_same_length_lookup. split; [done|].
      intros r w p Hw Hp.
      destruct (lookup_lt_is_Some_2 windows r) as [win Hwin].
      { apply lookup_lt_Some in Hw. lia. }
      destruct (Hpart r w win p Hw Hwin Hp) as (_ & _ & Hok).
      destruct Hok as (? & ? & ? & (Hlen & _) & _).
      destruct (Hwf' r w win Hw Hwin) as (? & ? & _). lia. }
  rewrite Hcur in Hrun. set (cur_pivot := Z.of_nat (sum_list prs)) in *.
  set (geq := bsearch_ge cur_pivot (take n (drop tbase targets))) in *.
  assert (geq ≤ n)%nat as Hgeq.
  { unfold geq. etransitivity; [apply bsearch_ge_le|].
    rewrite length_take. lia. }
  set (found := (geq <? n)%nat
                && (default 0 (targets !! (tbase + geq)%nat) =? cur_pivot)) in *.
  set (gt := (geq + if found then 1 else 0)%nat) in *.
  assert (found = true → (geq < n)%nat
                         ∧ targets !! (tbase + geq)%nat = Some cur_pivot)
    as Hfound.
  { unfold found. intros [Hlt Heq]%andb_true_iff.
    apply Nat.ltb_lt in Hlt. split; [done|].
    destruct (lookup_lt_is_Some_2 targets (tbase + geq) ltac:(lia)) as [t Ht].
    rewrite Ht in Heq |- *. cbn in Heq. apply Z.eqb_eq in Heq. by subst. }
  assert (gt ≤ n)%nat as Hgt.
  { unfold gt. destruct found; [|lia]. destruct (Hfound eq_refl). lia. }
  assert (geq ≤ gt)%nat as Hgg by (unfold gt; lia).
  set (ws1 := (λ p, if found
                    then set_sample (tbase + geq) pivot (p_right p) (p_worker p)
                    else p_worker p) <$> parts) in *.
  set (winL := zip_with (λ w p, (w.1, p_right p)) windows parts) in *.
  set (winR := zip_with (λ w p, (p_left p, w.2)) windows parts) in *.
  assert (length ws1 = length ws) as HL1 by (unfold ws1; by rewrite length_fmap).
  assert (length winL = length ws) as HLL
    by (unfold winL; rewrite length_zip_with; lia).
  assert (length winR = length ws) as HLR
    by (unfold winR; rewrite length_zip_with; lia).
  (* what holds on every worker after the partition *)
  assert (∀ r w1, ws1 !! r = Some w1 →
            ∃ w win p, ws !! r = Some w ∧ windows !! r = Some win
              ∧ parts !! r = Some p
              ∧ winL !! r = Some (win.1, p_right p)
              ∧ winR !! r = Some (p_left p, win.2)
              ∧ w_arr w1 = w_arr (p_worker p)
              ∧ partitioned_ok pivot win.1 win.2 (w_arr w) (w_arr w1)
                  (p_left p) (p_right p)
              ∧ worker_step win tbase (tbase + n) w w1
              ∧ (found = true →
                 w_sample_idxs w1 !! (tbase + geq)%nat = Some (Z.of_nat (p_right p))
                 ∧ w_samples w1 !! (tbase + geq)%nat = Some pivot)) as Hround.
  { intros r w1 Hw1. unfold ws1 in Hw1.
    apply list_lookup_fmap_Some in Hw1 as (p & -> & Hp).
    destruct (lookup_lt_is_Some_2 ws r) as [w Hw].
    { apply lookup_lt_Some in Hp. lia. }
    destruct (lookup_lt_is_Some_2 windows r) as [win Hwin].
    { apply lookup_lt_Some in Hw. lia. }
    destruct (Hpart r w win p Hw Hwin Hp) as (Es & Ei & Hok).
    destruct (Hwf' r w win Hw Hwin) as (? & ? & Hls & Hli).
    exists w, win, p. split_and!; try done.
    - unfold winL. rewrite lookup_zip_with, Hwin, Hp. done.
    - unfold winR. rewrite lookup_zip_with, Hwin, Hp. done.
    - by destruct found.
    - by destruct found.
    - destruct Hok as (_ & _ & _ & Hst & _).
      unfold worker_step. destruct found eqn:Efound; cbn.
      + destruct (Hfound eq_refl) as [? _].
        split_and!; [done|by rewrite length_insert, Es
                    |by rewrite length_insert, Ei|].
        intros i Hi. rewrite !list_lookup_insert_ne by lia.
        by rewrite Es, Ei.
      + split_and!; [done|by rewrite Es|by rewrite Ei|].
        intros i Hi. by rewrite Es, Ei.
    - intros ->. destruct (Hfound eq_refl) as [? _]. cbn.
      rewrite !list_lookup_insert_eq by (rewrite ?Es, ?Ei; lia). done. }
  assert (call_step windows tbase (tbase + n) ws ws1) as Hstep1.
  { split; [done|]. intros r w w1 win Hw Hw1 Hwin.
    destruct (Hround r w1 Hw1) as (w0 & win0 & p & ? & ? & _ & _ & _ & _ & _ & S & _).
    by simplify_eq. }
  assert (call_wf ws1 winL (tbase + geq)) as HwfL.
  { split; [lia|]. intros r w1 win Hw1 Hwin.
    destruct (Hround r w1 Hw1)
      as (w & win0 & p & Hw & Hwin0 & _ & HwL & _ & _ & Hok & S & _).
    rewrite HwL in Hwin. simplify_eq. cbn.
    destruct Hok as (? & ? & ? & (Hlen & _) & _).
    destruct S as (_ & E1 & E2 & _).
    destruct (Hwf' r w win0 Hw Hwin0) as (? & ? & ? & ?). lia. }
  assert (call_wf ws1 winR (tbase + gt + (n - gt))) as HwfR.
  { split; [lia|]. intros r w1 win Hw1 Hwin.
    destruct (Hround r w1 Hw1)
      as (w & win0 & p & Hw & Hwin0 & _ & _ & HwR & _ & Hok & S & _).
    rewrite HwR in Hwin. simplify_eq. cbn.
    destruct Hok as (? & ? & ? & (Hlen & _) & _).
    destruct S as (_ & E1 & E2 & _).
    destruct (Hwf' r w win0 Hw Hwin0) as (? & ? & ? & ?). lia. }
  assert (total_records ws1 = total_records ws) as Htot1
    by (eapply step_total_length; [|done]; lia).
  (* the call for the targets below the pivot *)
  destruct (distributed_quickselect_helper fuel targets ws1 tbase geq winL)
    as [[ret1 ws2]|] eqn:HrunL; [|done].
  destruct (IH ws1 tbase geq winL ret1 ws2 HwfL ltac:(lia) ltac:(lia) HrunL)
    as [HstepL HselL].
  assert (call_step windows tbase (tbase + n) ws1 ws2) as Hstep2.
  { eapply step_mono; [| | | |done]; try lia.
    intros r win win' Hwin Hwin'. unfold winL in Hwin'.
    apply lookup_zip_with_Some in Hwin' as (w0 & p & -> & ? & Hp).
    simplify_eq. cbn. split; [done|].
    destruct (lookup_lt_is_Some_2 ws r) as [w Hw].
    { apply lookup_lt_Some in Hwin. lia. }
    destruct (Hpart r w _ p Hw Hwin Hp) as (_ & _ & ? & ? & ? & _). lia. }
  assert (length ws2 = length ws) as HL2 by (destruct Hstep2; lia).
  destruct (Z.eqb_spec ret1 0) as [->|Hret1]; cbn [negb] in Hrun.
  2:{ simplify_eq. split; [by eapply step_trans|done]. }
  (* the call for the targets above the pivot *)
  assert (call_wf ws2 winR (tbase + gt + (n - gt))) as HwfR2.
  { eapply wf_step; [|done|done]. lia. }
  assert (total_records ws2 = total_records ws1) as Htot2
    by (eapply step_total_length; [|done]; lia).
  destruct (IH ws2 (tbase + gt)%nat (n - gt)%nat winR ret ws' HwfR2
              ltac:(lia) ltac:(lia) Hrun) as [HstepR HselR].
  replace (tbase + gt + (n - gt))%nat with (tbase + n)%nat in * by lia.
  assert (call_step windows tbase (tbase + n) ws2 ws') as Hstep3.
  { eapply step_mono; [| | | |done]; try lia.
    intros r win win' Hwin Hwin'. unfold winR in Hwin'.
    apply lookup_zip_with_Some in Hwin' as (w0 & p & -> & ? & Hp).
    simplify_eq. cbn. split; [|done].
    destruct (lookup_lt_is_Some_2 ws r) as [w Hw].
    { apply lookup_lt_Some in Hwin. lia. }
    destruct (Hpart r w _ p Hw Hwin Hp) as (_ & _ & ? & ? & ? & _). lia. }
  split; [eapply step_trans; [done|]; by eapply step_trans|].
  intros -> i Hi. specialize (HselL eq_refl). specialize (HselR eq_refl).
  (* every worker, through the partition and the two calls *)
  assert (∀ r w' win, ws' !! r = Some w' → windows !! r = Some win →
            ∃ w w1 w2 p, ws !! r = Some w ∧ ws1 !! r = Some w1
              ∧ ws2 !! r = Some w2 ∧ parts !! r = Some p
              ∧ winL !! r = Some (win.1, p_right p)
              ∧ winR !! r = Some (p_left p, win.2)
              ∧ partitioned_ok pivot win.1 win.2 (w_arr w) (w_arr w1)
                  (p_left p) (p_right p)
              ∧ worker_step (win.1, p_right p) tbase (tbase + geq) w1 w2
              ∧ worker_step (p_left p, win.2) (tbase + gt) (tbase + n) w2 w'
              ∧ (found = true →
                 w_sample_idxs w1 !! (tbase + geq)%nat = Some (Z.of_nat (p_right p))
                 ∧ w_samples w1 !! (tbase + geq)%nat = Some pivot)) as Hall.
  { intros r w' win Hw' Hwin.
    destruct HstepL as [LL SL]. destruct HstepR as [LR SR].
    destruct (lookup_lt_is_Some_2 ws2 r) as [w2 Hw2].
    { apply lookup_lt_Some in Hw'. lia. }
    destruct (lookup_lt_is_Some_2 ws1 r) as [w1 Hw1].
    { apply lookup_lt_Some in Hw2. lia. }
    destruct (Hround r w1 Hw1)
      as (w & win0 & p & Hw & Hwin0 & Hp & HwL & HwR & _ & Hok & _ & Hf).
    simplify_eq. exists w, w1, w2, p. split_and!; try done.
    - by apply (SL r w1 w2 _ Hw1 Hw2 HwL).
    - by apply (SR r w2 w' _ Hw2 Hw' HwR). }
  destruct (decide (i < tbase + geq)%nat) as [HiL|HiL];
    [|destruct (decide (tbase + gt ≤ i)%nat) as [HiR|HiR]].
  - (* a target below the pivot *)
    destruct (HselL i ltac:(lia)) as (p' & Hin & Hsplit & Htarget & Hpos).
    destruct Hin as (r0 & w1_0 & win1_0 & j & x & Hw1_0 & Hwin1_0 & Hj & Hx & Hpx).
    destruct (Hround r0 w1_0 Hw1_0)
      as (w_0 & win_0 & p_0 & Hw_0 & Hwin_0 & _ & HwL_0 & _ & _ & Hok_0 & _).
    rewrite HwL_0 in Hwin1_0. simplify_eq. cbn in Hj.
    pose proof Hok_0 as (? & ? & ? & (_ & _ & _ & Mem_0) & Hb_0 & _).
    assert (sample_le (sample_of x) pivot) as Hle
      by (apply (Hb_0 j); [lia|done]).
    exists (sample_of x). split_and!.
    + destruct (Mem_0 j x ltac:(lia) Hx) as (j' & ? & ?).
      by exists r0, w_0, win_0, j', x.
    + intros r w' win Hw' Hwin.
      destruct (Hall r w' win Hw' Hwin)
        as (w & w1 & w2 & p & Hw & Hw1 & Hw2 & Hp & HwL & HwR & Hok & S12 & S23 & _).
      destruct (Hsplit r w2 _ Hw2 HwL)
        as (idx & ? & ? & Hidx & Hsam & Hb & Ha). cbn in *.
      destruct S12 as (St12 & _). destruct S23 as (St23 & _ & _ & F23).
      destruct (F23 i ltac:(lia)) as [Es Ei].
      destruct (lift_left_split pivot win.1 win.2 (p_left p) (p_right p)
                  (w_arr w) (w_arr w1) (w_arr w2) (w_arr w') Hok St12 St23
                  (sample_of x) idx) as [Hb' Ha']; try done.
      exists idx. pose proof Hok as (? & ? & ? & _).
      split_and!; try done; try lia; congruence.
    + rewrite Htarget. f_equal. symmetry.
      eapply (step_idx_sum winR); [lia|done|lia].
    + destruct Hpos as (r & w2r & winr & idx & y & Hw2r & Hwinr & Hidx & Hsi
                        & Hy & Hsy).
      destruct (lookup_lt_is_Some_2 ws' r) as [w' Hw'].
      { apply lookup_lt_Some in Hw2r. destruct HstepR. lia. }
      destruct (lookup_lt_is_Some_2 windows r) as [win Hwin].
      { apply lookup_lt_Some in Hw2r. lia. }
      destruct (Hall r w' win Hw' Hwin)
        as (w & w1 & w2 & p & Hw & Hw1 & Hw2 & Hp & HwL & HwR & Hok & S12 & S23 & _).
      rewrite HwL in Hwinr. revert Hsy. simplify_eq. intros Hsy.
      cbn [fst snd] in *.
      pose proof Hok as (? & ? & ? & _).
      destruct S23 as ((_ & _ & F23a & _) & _ & _ & F23).
      destruct (F23 i ltac:(lia)) as [_ Ei]. cbn [fst snd] in F23a.
      exists r, w', win, idx, y.
      split_and!; try done; try lia; try congruence.
      rewrite F23a by lia. done.
  - (* a target above the pivot *)
    destruct (HselR i ltac:(lia)) as (p' & Hin & Hsplit & Htarget & Hpos).
    destruct Hin as (r0 & w2_0 & win2_0 & j & x & Hw2_0 & Hwin2_0 & Hj & Hx & Hpx).
    destruct HstepL as [LL SL].
    destruct (lookup_lt_is_Some_2 ws1 r0) as [w1_0 Hw1_0].
    { apply lookup_lt_Some in Hw2_0. lia. }
    destruct (Hround r0 w1_0 Hw1_0)
      as (w_0 & win_0 & p_0 & Hw_0 & Hwin_0 & _ & HwL_0 & HwR_0 & _ & Hok_0 & _).
    rewrite HwR_0 in Hwin2_0. simplify_eq. cbn in Hj.
    pose proof Hok_0 as (? & ? & ? & (_ & _ & _ & Mem_0) & _ & Ha_0).
    destruct (SL r0 w1_0 w2_0 _ Hw1_0 Hw2_0 HwL_0) as ((_ & _ & F12 & _) & _).
    cbn in F12. rewrite F12 in Hx by lia.
    assert (sample_le pivot (sample_of x)) as Hle
      by (apply (Ha_0 j); [lia|done]).
    exists (sample_of x). split_and!.
    + destruct (Mem_0 j x ltac:(lia) Hx) as (j' & ? & ?).
      by exists r0, w_0, win_0, j', x.
    + intros r w' win Hw' Hwin.
      destruct (Hall r w' win Hw' Hwin)
        as (w & w1 & w2 & p & Hw & Hw1 & Hw2 & Hp & HwL & HwR & Hok & S12 & S23 & _).
      destruct (Hsplit r w' _ Hw' HwR)
        as (idx & ? & ? & Hidx & Hsam & Hb & Ha). cbn in *.
      destruct S12 as (St12 & _). destruct S23 as (St23 & _).
      destruct (lift_right_split pivot win.1 win.2 (p_left p) (p_right p)
                  (w_arr w) (w_arr w1) (w_arr w2) (w_arr w') Hok St12 St23
                  (sample_of x) idx) as [Hb' Ha']; try done.
      exists idx. pose proof Hok as (? & ? & ? & _).
      split_and!; try done; lia.
    + done.
    + destruct Hpos as (r & w' & winr & idx & y & Hw' & Hwinr & Hidx & Hsi
                        & Hy & Hsy).
      destruct (lookup_lt_is_Some_2 windows r) as [win Hwin].
      { apply lookup_lt_Some in Hw'. destruct HstepR. lia. }
      destruct (Hall r w' win Hw' Hwin)
        as (w & w1 & w2 & p & Hw & Hw1 & Hw2 & Hp & HwL & HwR & Hok & _).
      rewrite HwR in Hwinr. revert Hsy. simplify_eq. intros Hsy.
      cbn [fst snd] in *.
      pose proof Hok as (? & ? & ? & _).
      exists r, w', win, idx, y. split_and!; try done; lia.
  - (* the target of this round *)
    assert (found = true) as Hf.
    { destruct found eqn:E; [done|]. unfold gt in HiR. lia. }
    destruct (Hfound Hf) as [Hlt Htarget].
    assert (i = tbase + geq)%nat as -> by (unfold gt in HiR; rewrite Hf in HiR; lia).
    exists pivot. split_and!.
    + exists master, wm, winm, winm.1, first. split_and!; try done; lia.
    + intros r w' win Hw' Hwin.
      destruct (Hall r w' win Hw' Hwin)
        as (w & w1 & w2 & p & Hw & Hw1 & Hw2 & Hp & HwL & HwR & Hok & S12 & S23 & Hset).
      destruct (Hset Hf) as [Hidx Hsam].
      destruct S12 as (St12 & _ & _ & F12). destruct S23 as (St23 & _ & _ & F23).
      destruct (F12 (tbase + geq)%nat ltac:(lia)) as [Es1 Ei1].
      destruct (F23 (tbase + geq)%nat ltac:(unfold gt; rewrite Hf; lia))
        as [Es2 Ei2].
      cbn in *. exists (p_right p). pose proof Hok as (? & ? & ? & _).
      split_and!; try lia; try congruence.
      * eapply below_sub; [| |by eapply after_calls_below]; lia.
      * by eapply after_calls_above.
    + rewrite Htarget. f_equal. unfold cur_pivot.
      rewrite (step_idx_sum winR (tbase + gt) (tbase + n) ws2 ws');
        [|lia|done|unfold gt; rewrite Hf; lia].
      rewrite (step_idx_sum winL tbase (tbase + geq) ws1 ws2); [|lia|done|lia].
      unfold ws1. rewrite idx_sum_set_sample; [done| |done].
      apply Forall_lookup. intros r p Hp.
      destruct (lookup_lt_is_Some_2 ws r) as [w Hw].
      { apply lookup_lt_Some in Hp. lia. }
      destruct (lookup_lt_is_Some_2 windows r) as [win Hwin].
      { apply lookup_lt_Some in Hw. lia. }
      destruct (Hpart r w win p Hw Hwin Hp) as (_ & -> & _).
      destruct (Hwf' r w win Hw Hwin) as (_ & _ & _ & ?). lia.
    + (* the master holds the pivot at its index *)
      destruct (lookup_lt_is_Some_2 ws' master) as [w' Hw'].
      { apply lookup_lt_Some in Hwm. destruct HstepR. lia. }
      destruct (Hall master w' winm Hw' Hwinm)
        as (w & w1 & w2 & p & Hw & Hw1 & Hw2 & Hp & HwL & HwR & Hok & S12 & S23 & Hset).
      destruct (Hset Hf) as [Hidx Hsam].
      destruct (Hround master w1 Hw1)
        as (w0 & win0 & p0 & ? & ? & ? & _ & _ & Earr & _).
      simplify_eq.
      destruct (parts_lookup _ _ _ _ HLw Hparts) as [_ Hlook].
      destruct (Hlook master p Hp) as (w0 & win0 & ? & ? & Hpw). simplify_eq.
      cbn [fst snd] in Hpw. unfold partition_worker in Hpw.
      rewrite Nat.eqb_refl in Hpw.
      destruct (partition true pivot (w_arr wm) winm.1 winm.2)
        as [[[arr' pl] pr]|] eqn:Hrunm; [|done].
      destruct (partition_master_pivot pivot (w_arr wm) winm.1 winm.2 arr' pl pr)
        as (y & Hy & Hsy); [done|lia| |done|].
      { by rewrite (elem_at_lookup _ _ _ Hfirst). }
      destruct (partition_spec true pivot (w_arr wm) winm.1 winm.2)
        as (arr'' & pl' & pr' & Hrun' & _ & Hprpl); [lia|lia| |].
      { intros _. split; [done|]. by rewrite (elem_at_lookup _ _ _ Hfirst). }
      rewrite Hrunm in Hrun'. specialize (Hprpl eq_refl).
      injection Hrun' as <- <- <-. injection Hpw as <-.
      cbn [p_worker p_left p_right w_arr fst snd] in *.
      pose proof Hok as (? & ? & ? & _).
      destruct S12 as ((_ & _ & F12a & _) & _ & _ & F12).
      destruct S23 as ((_ & _ & F23a & _) & _ & _ & F23).
      destruct (F12 (tbase + geq)%nat ltac:(lia)) as [_ Ei1].
      destruct (F23 (tbase + geq)%nat ltac:(unfold gt; rewrite Hf; lia))
        as [_ Ei2].
      cbn [fst snd] in F12a, F23a.
      exists master, w', winm, pr, y.
      split_and!; try done; try lia; try congruence.
      rewrite F23a, F12a, Earr by lia. done.
Qed.

End HelperSpec.

Section HelperReturns.

Variable targets : list Z.

Lemma window_total_lt (windows windows' : list (nat * nat)) r win win' :
  Forall2 (λ a b, (b.2 - b.1 ≤ a.2 - a.1)%nat) windows windows' →
  windows !! r = Some win → windows' !! r = Some win' →
  (win'.2 - win'.1 < win.2 - win.1)%nat →
  (window_total windows' < window_total windows)%nat.
Proof.
  unfold window_total. intros HF. revert r.
  induction HF as [|a b l k Hab HF IH]; intros [|r] Hw Hw' Hlt; simplify_eq/=.
  - assert (sum_list_with (λ win, win.2 - win.1) k
            ≤ sum_list_with (λ win, win.2 - win.1) l)%nat; [|lia].
    clear -HF. induction HF; cbn; lia.
  - specialize (IH r Hw Hw' Hlt). lia.
Qed.

Lemma helper_returns :
  ∀ fuel ws tbase n windows,
  call_wf ws windows (tbase + n) → (tbase + n ≤ length targets)%nat →
  Z.of_nat (total_records ws) < 2 ^ 64 →
  (window_total windows < fuel)%nat →
  ∃ ret ws',
    distributed_quickselect_helper fuel targets ws tbase n windows
    = Some (ret, ws').
Proof.
  induction fuel as [|fuel IH]; intros ws tbase n windows Hwf Htg Htot Hfuel;
    [lia|].
  cbn [distributed_quickselect_helper].
  destruct (Nat.eqb_spec n 0) as [->|Hn]; [eauto|].
  destruct (elect_master_spec ((λ w, (w.1 <? w.2)%nat) <$> windows))
    as [Hm|[Hm0 Hflag]].
  { rewrite Hm. cbn. eauto. }
  set (m := elect_master _) in *.
  destruct (Z.eqb_spec m (-1)) as [|_]; [lia|].
  set (master := Z.to_nat m) in *.
  pose proof Hwf as [HLw Hwf'].
  apply list_lookup_fmap_Some in Hflag as (winm & Hready & Hwinm).
  symmetry in Hready. apply Nat.ltb_lt in Hready.
  destruct (lookup_lt_is_Some_2 ws master) as [wm Hwm].
  { apply lookup_lt_Some in Hwinm. lia. }
  assert (default (Worker [] [] []) (ws !! master) = wm) as ->
    by (by rewrite Hwm).
  assert (default (O, O) (windows !! master) = winm) as ->
    by (by rewrite Hwinm).
  destruct (Hwf' master wm winm Hwm Hwinm) as (_ & Hhim & _).
  destruct (lookup_lt_is_Some_2 (w_arr wm) winm.1 ltac:(lia)) as [first Hfirst].
  rewrite (elem_at_lookup _ _ _ Hfirst).
  set (pivot := {| sample_key := key first; sample_orp_id := orp_id first |}).
  assert (∀ w win, ws !! master = Some w → windows !! master = Some win →
            (win.1 < win.2)%nat ∧ sample_of (elem_at (w_arr w) win.1) = pivot)
    as Hmaster.
  { intros w win ??. simplify_eq. split; [done|].
    by rewrite (elem_at_lookup _ _ _ Hfirst). }
  (* every worker partitions *)
  destruct (mapM id _) as [parts|] eqn:Hparts.
  2:{ exfalso. apply mapM_None_1, Exists_exists in Hparts as (o & Ho & Hnone).
      apply list_elem_of_lookup in Ho as [r Ho].
      apply list_lookup_imap_Some in Ho as ([w win] & Hz & ->).
      apply lookup_zip_Some in Hz as [Hw Hwin]. cbn in Hnone.
      destruct (Hwf' r w win Hw Hwin) as (? & ? & _).
      destruct (partition_spec (r =? master)%nat pivot (w_arr w) win.1 win.2)
        as (arr' & pl & pr & Hrun & _); [done..| |].
      { intros ->%Nat.eqb_eq. by apply Hmaster. }
      unfold partition_worker in Hnone. by rewrite Hrun in Hnone. }
  destruct (round_parts master pivot ws windows (tbase + n) parts Hwf Hmaster Hparts)
    as [HLp Hpart].
  destruct (parts_lookup _ _ _ _ HLw Hparts) as [_ Hlook].
  set (prs := p_right <$> parts).
  set (cur_pivot := gather_cur_pivot master prs).
  set (geq := bsearch_ge cur_pivot (take n (drop tbase targets))).
  assert (geq ≤ n)%nat as Hgeq.
  { unfold geq. etransitivity; [apply bsearch_ge_le|].
    rewrite length_take. lia. }
  set (found := (geq <? n)%nat
                && (default 0 (targets !! (tbase + geq)%nat) =? cur_pivot)).
  set (gt := (geq + if found then 1 else 0)%nat).
  assert (gt ≤ n)%nat as Hgt.
  { unfold gt, found. destruct (Nat.ltb_spec geq n); cbn; [|lia].
    destruct (_ =? _); lia. }
  set (ws1 := (λ p, if found
                    then set_sample (tbase + geq) pivot (p_right p) (p_worker p)
                    else p_worker p) <$> parts).
  set (winL := zip_with (λ w p, (w.1, p_right p)) windows parts).
  set (winR := zip_with (λ w p, (p_left p, w.2)) windows parts).
  assert (length ws1 = length ws) as HL1 by (unfold ws1; by rewrite length_fmap).
  assert (length winL = length ws) as HLL
    by (unfold winL; rewrite length_zip_with; lia).
  assert (length winR = length ws) as HLR
    by (unfold winR; rewrite length_zip_with; lia).
  assert (∀ r w1, ws1 !! r = Some w1 →
            ∃ w win p, ws !! r = Some w ∧ windows !! r = Some win
              ∧ parts !! r = Some p
              ∧ winL !! r = Some (win.1, p_right p)
              ∧ winR !! r = Some (p_left p, win.2)
              ∧ partitioned_ok pivot win.1 win.2 (w_arr w) (w_arr w1)
                  (p_left p) (p_right p)
              ∧ length (w_samples w1) = length (w_samples w)
              ∧ length (w_sample_idxs w1) = length (w_sample_idxs w)) as Hround.
  { intros r w1 Hw1. unfold ws1 in Hw1.
    apply list_lookup_fmap_Some in Hw1 as (p & -> & Hp).
    destruct (Hlook r p Hp) as (w & win & Hw & Hwin & _).
    destruct (Hpart r w win p Hw Hwin Hp) as (Es & Ei & Hok).
    exists w, win, p. split_and!; try done.
    - unfold winL. rewrite lookup_zip_with, Hwin, Hp. done.
    - unfold winR. rewrite lookup_zip_with, Hwin, Hp. done.
    - by destruct found.
    - destruct found; cbn; by rewrite ?length_insert, Es.
    - destruct found; cbn; by rewrite ?length_insert, Ei. }
  assert (∀ thi, (thi ≤ tbase + n)%nat → call_wf ws1 winL thi ∧ call_wf ws1 winR thi)
    as Hwf1.
  { intros thi Hthi. split; (split; [lia|]); intros r w1 win Hw1 Hwin;
      destruct (Hround r w1 Hw1)
        as (w & win0 & p & Hw & Hwin0 & _ & HwL & HwR & Hok & E1 & E2);
      destruct Hok as (? & ? & ? & (Hlen & _) & _);
      destruct (Hwf' r w win0 Hw Hwin0) as (? & ? & ? & ?);
      simplify_eq; cbn; lia. }
  assert (total_records ws1 = total_records ws) as Htot1.
  { unfold total_records. 
    assert (Forall2 (λ w w1, length (w_arr w1) = length (w_arr w)) ws ws1) as HF.
    { apply Forall2_same_length_lookup. split; [done|].
      intros r w w1 Hw Hw1.
      destruct (Hround r w1 Hw1) as (w0 & win0 & p & ? & _ & _ & _ & _ & Hok & _).
      simplify_eq. by destruct Hok as (_ & _ & _ & (? & _) & _). }
    clear -HF. induction HF as [|???? E _ IH]; cbn; [done|]. by rewrite E, IH. }
  (* the windows shrink: the master leaves its pivot out *)
  destruct (lookup_lt_is_Some_2 parts master) as [pm Hpm].
  { rewrite HLp. by eapply lookup_lt_Some. }
  destruct (partition_spec true pivot (w_arr wm) winm.1 winm.2)
    as (arr' & pl & pr & Hrunm & Hokm & Hltm); [lia|done|by intros _; apply Hmaster|].
  destruct (Hlook master pm Hpm) as (w0 & win0 & ? & ? & Hpwm). simplify_eq.
  cbn in Hpwm. unfold partition_worker in Hpwm.
  rewrite Nat.eqb_refl, Hrunm in Hpwm. simplify_eq. cbn in *.
  specialize (Hltm eq_refl). destruct Hokm as (? & ? & ? & _).
  assert (window_total winL < window_total windows
          ∧ window_total winR < window_total windows)%nat as [HmL HmR].
  { split.
    - apply (window_total_lt windows winL master winm (winm.1, pr)); cbn;
        [|done|unfold winL; by rewrite lookup_zip_with, Hwinm, Hpm|lia].
      apply Forall2_same_length_lookup. split; [lia|].
      intros r win win' Hwin Hwin'. unfold winL in Hwin'.
      apply lookup_zip_with_Some in Hwin' as (w0 & p & -> & ? & Hp).
      simplify_eq. cbn.
      destruct (Hlook r p Hp) as (w & win0 & Hw & ? & _). simplify_eq.
      destruct (Hpart r w _ p Hw Hwin Hp) as (_ & _ & ? & ? & ? & _). lia.
    - apply (window_total_lt windows winR master winm (pl, winm.2)); cbn;
        [|done|unfold winR; by rewrite lookup_zip_with, Hwinm, Hpm|lia].
      apply Forall2_same_length_lookup. split; [lia|].
      intros r win win' Hwin Hwin'. unfold winR in Hwin'.
      apply lookup_zip_with_Some in Hwin' as (w0 & p & -> & ? & Hp).
      simplify_eq. cbn.
      destruct (Hlook r p Hp) as (w & win0 & Hw & ? & _). simplify_eq.
      destruct (Hpart r w _ p Hw Hwin Hp) as (_ & _ & ? & ? & ? & _). lia. }
  destruct (Hwf1 (tbase + geq)%nat ltac:(lia)) as [HwfL _].
  destruct (Hwf1 (tbase + gt + (n - gt))%nat ltac:(lia)) as [_ HwfR].
  destruct (IH ws1 tbase geq winL HwfL ltac:(lia) ltac:(lia) ltac:(lia))
    as (ret1 & ws2 & HrunL).
  rewrite HrunL.
  destruct (Z.eqb_spec ret1 0) as [->|Hret1]; cbn [negb]; [|eauto].
  destruct (helper_spec targets _ _ _ _ _ _ _ HwfL ltac:(lia) ltac:(lia) HrunL)
    as [HstepL _].
  apply IH; [|lia| |lia].
  - eapply wf_step; [|done|done]. lia.
  - erewrite step_total_length; [|..|done]; lia.
Qed.

(** [distributed_quickselect] returns on every input that fits in memory:
    the fuel given to the recursion is never used up. *)
Lemma distributed_quickselect_returns (ws : list worker) :
  Z.of_nat (total_records ws) < 2 ^ 64 →
  Forall (λ w, (length targets ≤ length (w_samples w))%nat
               ∧ (length targets ≤ length (w_sample_idxs w))%nat) ws →
  ∃ ret ws', distributed_quickselect targets ws = Some (ret, ws').
Proof.
  intros Htot Hout. unfold distributed_quickselect.
  apply helper_returns; [|lia|done|].
  - split; [by rewrite length_fmap|].
    intros r w win Hw Hwin.
    rewrite list_lookup_fmap, Hw in Hwin. cbn in Hwin. simplify_eq. cbn.
    rewrite Forall_lookup in Hout. destruct (Hout r w Hw). lia.
  - unfold window_total. apply Nat.lt_succ_r.
    induction ws as [|w ws' IH]; cbn; [done|].
    rewrite Nat.sub_0_r. apply Nat.add_le_mono_l, IH.
    + cbn in Htot. unfold total_records in *. cbn in Htot. lia.
    + by inversion Hout.
Qed.

End HelperReturns.

Section QuickselectClaim.

Lemma count_filter_upper {A} (P : A → Prop) `{∀ x, Decision (P x)} (l : list A) idx :
  (∀ j x, (idx ≤ j)%nat → l !! j = Some x → ¬ P x) →
  (length (filter P l) ≤ idx)%nat.
Proof.
  revert idx. induction l as [|y l IH]; intros idx Hout; [cbn; lia|].
  rewrite filter_cons. destruct (decide (P y)) as [Hy|Hy].
  - destruct idx as [|idx]; [by destruct (Hout O y (le_n _) eq_refl)|].
    cbn. apply le_n_S, IH. intros j x Hj Hx. apply (Hout (S j)); [lia|done].
  - etransitivity; [apply (IH (pred idx))|lia].
    intros j x Hj Hx. apply (Hout (S j)); [lia|done].
Qed.

Lemma count_filter_lower {A} (P : A → Prop) `{∀ x, Decision (P x)} (l : list A) idx :
  (idx ≤ length l)%nat →
  (∀ j x, (j < idx)%nat → l !! j = Some x → P x) →
  (idx ≤ length (filter P l))%nat.
Proof.
  revert idx. induction l as [|y l IH]; intros idx Hidx Hin; cbn in Hidx; [lia|].
  destruct idx as [|idx]; [lia|].
  rewrite filter_cons.
  destruct (decide (P y)) as [_|Hn]; [|destruct Hn; apply (Hin O); [lia|done]].
  cbn. apply le_n_S, IH; [lia|].
  intros j x Hj Hx. apply (Hin (S j)); [lia|done].
Qed.

Lemma split_counts p arr idx :
  (idx ≤ length arr)%nat →
  below p arr 0 idx → above p arr idx (length arr) →
  (count_lt p arr ≤ idx)%nat ∧ (idx ≤ count_le p arr)%nat.
Proof.
  intros Hidx Hb Ha. split.
  - apply count_filter_upper. intros j x Hj Hx.
    apply lookup_lt_Some in Hx as Hlt.
    pose proof (proj2 (comparator_ge x p) (Ha j x ltac:(lia) Hx)). lia.
  - apply count_filter_lower; [done|]. intros j x Hj Hx.
    apply comparator_le, (Hb j); [lia|done].
Qed.

Lemma idx_sum_between i p ws' :
  Forall (λ w', ∃ idx, w_sample_idxs w' !! i = Some (Z.of_nat idx)
                  ∧ (count_lt p (w_arr w') ≤ idx)%nat
                  ∧ (idx ≤ count_le p (w_arr w'))%nat) ws' →
  Z.of_nat (sum_list_with (λ w', count_lt p (w_arr w')) ws') ≤ idx_sum i ws'
  ∧ idx_sum i ws' ≤ Z.of_nat (sum_list_with (λ w', count_le p (w_arr w')) ws').
Proof.
  induction 1 as [|w' ws' (idx & E & ? & ?) _ IH]; cbn; [lia|].
  rewrite E. cbn. lia.
Qed.

Lemma comparator_zero x p : elem_sample_comparator x p = 0 → sample_of x = p.
Proof.
  unfold elem_sample_comparator, sample_of.
  rewrite Z.shiftl_mul_pow2 by lia. change (2 ^ 1) with 2.
  destruct p as [k o]; cbn.
  destruct (three_way_cases (key x) k) as [[? ->]|[[? ->]|[? ->]]],
    (three_way_cases (orp_id x) o) as [[? ->]|[[? ->]|[? ->]]];
    intros; try lia; by subst.
Qed.

Lemma distinct_records_perm ws ws' :
  Forall2 (λ w w', w_arr w' ≡ₚ w_arr w) ws ws' →
  distinct_records ws → distinct_records ws'.
Proof.
  intros HF Hd r1 r2 w1' w2' j1 j2 x1 x2 Hw1' Hw2' Hx1 Hx2 Hs.
  destruct (Forall2_lookup_r _ _ _ _ _ HF Hw1') as (w1 & Hw1 & Hp1).
  destruct (Forall2_lookup_r _ _ _ _ _ HF Hw2') as (w2 & Hw2 & Hp2).
  assert (x1 ∈ w_arr w1) as [k1 Hk1]%list_elem_of_lookup
    by (rewrite <- Hp1; by eapply list_elem_of_lookup_2).
  assert (x2 ∈ w_arr w2) as [k2 Hk2]%list_elem_of_lookup
    by (rewrite <- Hp2; by eapply list_elem_of_lookup_2).
  destruct (Hd r1 r2 w1 w2 k1 k2 x1 x2 Hw1 Hw2 Hk1 Hk2 Hs) as [-> _].
  split; [done|].
  rewrite Hw1' in Hw2'. injection Hw2' as <-.
  assert (NoDup (sample_of <$> w_arr w1)) as Hnd.
  { apply NoDup_alt. intros a b y Ha Hb.
    apply list_lookup_fmap_Some in Ha as (ya & -> & Ha).
    apply list_lookup_fmap_Some in Hb as (yb & E & Hb).
    by destruct (Hd r2 r2 w1 w1 a b ya yb Hw1 Hw1 Ha Hb E). }
  assert (NoDup (sample_of <$> w_arr w1')) as Hnd' by (by rewrite Hp1).
  eapply (proj1 (NoDup_alt _) Hnd' j1 j2 (sample_of x1)).
  - by rewrite list_lookup_fmap, Hx1.
  - by rewrite list_lookup_fmap, Hx2, Hs.
Qed.

(** C6 (amended). [distributed_quickselect] returns, on every worker; and
    when it returns 0, then for every target rank [t = targets[i]] all
    workers hold the same sample [samples[i]]; over all workers, the number
    of records that compare strictly less than it is at most [t] and the
    number that compare less than or equal to it is at least [t]; and on
    each worker [sample_idxs[i]] is a position of its slice before which no
    record is greater than the sample and from which on none is less.
    When no two records have the same key and ORP id, the records less
    than the sample are exactly those before [sample_idxs[i]]; records
    equal to the sample may lie before it otherwise.  The slices are
    permutations of what they were. *)
Theorem distributed_quickselect_ranks (targets : list Z) (ws : list worker) :
  Z.of_nat (sum_list_with (λ w, length (w_arr w)) ws) < 2 ^ 64 →
  Forall (λ w, (length targets ≤ length (w_samples w))%nat
               ∧ (length targets ≤ length (w_sample_idxs w))%nat) ws →
  ∃ ret ws',
    distributed_quickselect targets ws = Some (ret, ws')
    ∧ (ret = 0 →
       Forall2 (λ w w', w_arr w' ≡ₚ w_arr w) ws ws'
       ∧ ∀ i t, targets !! i = Some t →
           ∃ p, Forall (λ w', w_samples w' !! i = Some p) ws'
             ∧ Z.of_nat (sum_list_with (λ w', count_lt p (w_arr w')) ws') ≤ t
             ∧ t ≤ Z.of_nat (sum_list_with (λ w', count_le p (w_arr w')) ws')
             ∧ Forall (λ w', ∃ idx,
                         w_sample_idxs w' !! i = Some (Z.of_nat idx)
                         ∧ ∀ j x, w_arr w' !! j = Some x →
                             ((j < idx)%nat → elem_sample_comparator x p ≤ 0)
                             ∧ ((idx ≤ j)%nat → 0 ≤ elem_sample_comparator x p))
                 ws'
             ∧ (distinct_records ws →
                Forall (λ w', ∃ idx,
                          w_sample_idxs w' !! i = Some (Z.of_nat idx)
                          ∧ less_end_at p (w_arr w') idx) ws')).
Proof.
  intros Htot Hout.
  destruct (distributed_quickselect_returns targets ws Htot Hout)
    as (ret & ws' & Hrun).
  exists ret, ws'. split; [done|]. intros ->.
  unfold distributed_quickselect in Hrun.
  set (windows := (λ w, (O, length (w_arr w))) <$> ws) in *.
  assert (call_wf ws windows (0 + length targets)) as Hwf.
  { split; [unfold windows; by rewrite length_fmap|].
    intros r w win Hw Hwin. unfold windows in Hwin.
    rewrite list_lookup_fmap, Hw in Hwin. cbn in Hwin. simplify_eq. cbn.
    rewrite Forall_lookup in Hout. destruct (Hout r w Hw). lia. }
  destruct (helper_spec targets _ ws 0 (length targets) windows 0 ws' Hwf
              ltac:(lia) Htot Hrun) as [[HL Hstep] Hsel].
  assert (∀ r w', ws' !! r = Some w' →
            ∃ w, ws !! r = Some w
              ∧ windows !! r = Some (O, length (w_arr w))
              ∧ worker_step (O, length (w_arr w)) 0 (0 + length targets) w w')
    as Hall.
  { intros r w' Hw'. destruct (lookup_lt_is_Some_2 ws r) as [w Hw].
    { apply lookup_lt_Some in Hw'. lia. }
    assert (windows !! r = Some (O, length (w_arr w))) as Hwin
      by (unfold windows; by rewrite list_lookup_fmap, Hw).
    exists w. split_and!; [done..|]. by eapply Hstep. }
  assert (Forall2 (λ w w', w_arr w' ≡ₚ w_arr w) ws ws') as Hperm.
  { apply Forall2_same_length_lookup. split; [done|].
    intros r w w' Hw Hw'. destruct (Hall r w' Hw') as (w0 & ? & _ & S).
    simplify_eq. by destruct S as ((_ & ? & _) & _). }
  split; [done|].
  intros i t Ht. apply lookup_lt_Some in Ht as Hi.
  destruct (Hsel eq_refl i ltac:(lia)) as (p & _ & Hsplit & Htarget & Hpos).
  rewrite Ht in Htarget. injection Htarget as ->.
  assert (Forall (λ w', ∃ idx,
            w_sample_idxs w' !! i = Some (Z.of_nat idx)
            ∧ w_samples w' !! i = Some p
            ∧ (idx ≤ length (w_arr w'))%nat
            ∧ below p (w_arr w') 0 idx
            ∧ above p (w_arr w') idx (length (w_arr w'))) ws') as Hfor.
  { apply Forall_lookup. intros r w' Hw'.
    destruct (Hall r w' Hw') as (w & Hw & Hwin & ((Hlen & _) & _)).
    destruct (Hsplit r w' _ Hw' Hwin) as (idx & ? & ? & ? & ? & ? & ?).
    cbn in *. exists idx. rewrite Hlen. done. }
  exists p. split_and!.
  - eapply Forall_impl; [done|]. by intros w' (idx & _ & ? & _).
  - apply (idx_sum_between i p ws').
    eapply Forall_impl; [done|]. intros w' (idx & ? & _ & ? & ? & ?).
    exists idx. split; [done|]. by apply split_counts.
  - apply (idx_sum_between i p ws').
    eapply Forall_impl; [done|]. intros w' (idx & ? & _ & ? & ? & ?).
    exists idx. split; [done|]. by apply split_counts.
  - eapply Forall_impl; [done|]. intros w' (idx & ? & _ & ? & Hb & Ha).
    exists idx. split; [done|]. intros j x Hx.
    apply lookup_lt_Some in Hx as Hj. split; intros ?.
    + apply comparator_le, (Hb j); [lia|done].
    + apply comparator_ge, (Ha j); [lia|done].
  - intros Hd. apply (distinct_records_perm _ _ Hperm) in Hd.
    destruct Hpos as (r0 & w0 & win0 & idx0 & x0 & Hw0 & _ & _ & Hidx0 & Hx0 & Hs0).
    apply Forall_lookup. intros r w' Hw'.
    rewrite Forall_lookup in Hfor.
    destruct (Hfor r w' Hw') as (idx & Hidx & _ & ? & Hb & Ha).
    exists idx. split; [done|]. intros j x Hx.
    apply lookup_lt_Some in Hx as Hj. split.
    + intros Hlt.
      pose proof (proj2 (comparator_le x p) (Hb j x ltac:(lia) Hx)) as Hle.
      destruct (decide (elem_sample_comparator x p = 0)) as [E|]; [|lia].
      apply comparator_zero in E.
      destruct (Hd r r0 w' w0 j idx0 x x0 Hw' Hw0 Hx Hx0) as [-> ->];
        [congruence|].
      rewrite Hw0 in Hw'. injection Hw' as ->.
      rewrite Hidx0 in Hidx. injection Hidx as Hidx. lia.
    + intros Hlt. destruct (decide (j < idx)%nat) as [|Hge]; [done|].
      pose proof (proj2 (comparator_ge x p) (Ha j x ltac:(lia) Hx)). lia.
Qed.

Lemma two_workers_distinct : distinct_records two_workers.
Proof.
  intros r1 r2 w1 w2 j1 j2 x1 x2 H1 H2 Hx1 Hx2 Hs.
  destruct r1 as [|[|r1]]; try done; injection H1 as <-;
  (destruct r2 as [|[|r2]]; try done; injection H2 as <-);
  (destruct j1 as [|[|j1]]; try done; injection Hx1 as <-);
  (destruct j2 as [|[|j2]]; try done; injection Hx2 as <-);
  try done; discriminate Hs.
Qed.

Lemma distributed_quickselect_ranks_witness :
  distributed_quickselect [1] two_workers = Some (0, two_workers_selected)
  ∧ Forall2 (λ w w', w_arr w' ≡ₚ w_arr w) two_workers two_workers_selected
  ∧ ∃ p, Forall (λ w', ∃ idx,
                   w_sample_idxs w' !! 0%nat = Some (Z.of_nat idx)
                   ∧ less_end_at p (w_arr w') idx) two_workers_selected.
Proof.
  assert (distributed_quickselect [1] two_workers
          = Some (0, two_workers_selected)) as E by reflexivity.
  split; [exact E|].
  destruct (distributed_quickselect_ranks [1] two_workers)
    as (ret & ws' & Hrun & Hok).
  - cbn. lia.
  - repeat constructor; cbn; lia.
  - rewrite E in Hrun. injection Hrun as <- <-.
    destruct (Hok eq_refl) as [Hperm Hall]. split; [exact Hperm|].
    destruct (Hall 0%nat 1 eq_refl) as (p & _ & _ & _ & _ & Hstrict).
    exists p. apply Hstrict.
    apply two_workers_distinct.
Defined.

(** C6 as the specification words it fails: one worker holds the keys
    2, 2, 1, 2, 3 and the target rank is 2.  The call leaves 1, 2, 2, 2, 3,
    the sample of key 2 and [sample_idxs[0] = 2], while the records less
    than the sample end at position 1: the record at position 1 equals the
    sample. *)
Lemma quickselect_ties_counterexample :
  ¬ idxs_where_less_ends [2] one_worker_ties.
Proof.
  intros H.
  assert (distributed_quickselect [2] one_worker_ties
          = Some (0, [ {| w_arr := rec <$> [1; 2; 2; 2; 3];
                          w_samples := [Sample 2 0];
                          w_sample_idxs := [2] |} ])) as E
    by (vm_compute; reflexivity).
  specialize (H _ E 0%nat ltac:(cbn; lia)).
  apply Forall_inv in H. destruct H as (p & idx & Hp & Hidx & Hless).
  cbn in Hp, Hidx. injection Hp as <-. injection Hidx as Hidx.
  assert (idx = 2%nat) as -> by lia.
  destruct (Hless 1%nat (rec 2) eq_refl) as [H1 _].
  specialize (H1 ltac:(lia)). vm_compute in H1. discriminate H1.
Qed.

End QuickselectClaim.

End QuickselectProofs.

(* ================================================================ *)
(** * Further properties of the shuffle *)

Section ShuffleFrame.
Import Crypto Orshuffle.

Lemma range_schedule_in_window base length :
  Forall (in_window base length) (range_schedule base length).
Proof.
  unfold range_schedule. apply Forall_forall. intros [a b] Hab.
  apply list_elem_of_fmap in Hab as (i & E & Hi). simplify_eq.
  apply elem_of_seq in Hi. unfold in_window; cbn [fst snd].
  pose proof (Nat.div_mod_eq length 2).
  pose proof (Nat.mod_upper_bound length 2). lia.
Qed.

Lemma in_window_mono base length base' length' ab :
  (base ≤ base')%nat → (base' + length' ≤ base + length)%nat →
  in_window base' length' ab → in_window base length ab.
Proof. unfold in_window. lia. Qed.

Lemma half_window base length :
  (base + length / 2 + length / 2 ≤ base + length)%nat.
Proof. pose proof (Nat.div_mod_eq length 2). lia. Qed.

Lemma compact_schedule_in_window fuel : ∀ base length,
  Forall (in_window base length) (compact_schedule fuel base length).
Proof.
  induction fuel as [|fuel IH]; intros base length; cbn [compact_schedule];
    [constructor|].
  destruct (Nat.ltb_spec length 2); [constructor|].
  destruct (Nat.eqb_spec length 2) as [->|].
  { repeat constructor; cbn [fst snd]; lia. }
  pose proof (half_window base length).
  rewrite !Forall_app. split_and!.
  - eapply Forall_impl; [apply IH|]. intros ab. apply in_window_mono; lia.
  - eapply Forall_impl; [apply IH|]. intros ab. apply in_window_mono; lia.
  - apply range_schedule_in_window.
Qed.

Lemma shuffle_schedule_in_window fuel : ∀ base length,
  Forall (in_window base length) (shuffle_schedule fuel base length).
Proof.
  induction fuel as [|fuel IH]; intros base length; cbn [shuffle_schedule];
    [constructor|].
  destruct (Nat.ltb_spec length 2); [constructor|].
  destruct (Nat.eqb_spec length 2) as [->|].
  { repeat constructor; cbn [fst snd]; lia. }
  pose proof (half_window base length).
  rewrite !Forall_app. split_and!.
  - apply compact_schedule_in_window.
  - eapply Forall_impl; [apply IH|]. intros ab. apply in_window_mono; lia.
  - eapply Forall_impl; [apply IH|]. intros ab. apply in_window_mono; lia.
Qed.

Lemma untouched_refl base length c : untouched base length c c.
Proof. done. Qed.

Lemma untouched_trans base length c1 c2 c3 :
  untouched base length c1 c2 → untouched base length c2 c3 →
  untouched base length c1 c3.
Proof. intros H1 H2 p Hp. by rewrite H2, H1. Qed.

Lemma untouched_mono base length base' length' c c' :
  (base ≤ base')%nat → (base' + length' ≤ base + length)%nat →
  untouched base' length' c c' → untouched base length c c'.
Proof. intros ?? H p Hp. apply H. lia. Qed.

Lemma o_memswap_untouched base length a b cond m :
  in_window base length (a, b) →
  untouched base length (cells m) (cells (o_memswap a b cond m)).
Proof.
  intros (Ha & Hab & Hb) p Hp. cbn [fst snd] in *.
  unfold o_memswap; cbn [cells]. destruct cond; [|done].
  destruct (cells m !! a); [|done]. destruct (cells m !! b); [|done].
  rewrite !list_lookup_insert_ne by lia. done.
Qed.

Lemma swap_loop_untouched base length (f : nat → nat * nat) (c : nat → bool)
    n start m :
  (∀ i, (start ≤ i < start + n)%nat → in_window base length (f i)) →
  untouched base length (cells m)
    (cells (for_loop n start (λ i m, o_memswap (f i).1 (f i).2 (c i) m) m)).
Proof.
  revert start m. induction n as [|n IH]; intros start m Hin; cbn [for_loop];
    [done|].
  eapply untouched_trans; [|apply IH].
  - apply o_memswap_untouched. destruct (f start) eqn:E.
    rewrite <- E. apply Hin. lia.
  - intros i Hi. apply Hin. lia.
Qed.

Lemma swap_local_range_untouched base length offset lmc m :
  untouched base length (cells m)
    (cells (swap_local_range base length offset lmc m).2).
Proof.
  unfold swap_local_range; cbn [snd].
  pose proof (range_schedule_in_window base length) as Hin.
  unfold range_schedule in Hin. rewrite Forall_fmap, Forall_seq in Hin.
  apply (swap_loop_untouched base length
           (λ i, (base + i, base + i + length / 2)%nat)).
  intros i Hi. apply Hin. lia.
Qed.

Lemma compact_fuel_untouched fuel : ∀ mk ps base length offset m ret m',
  compact_fuel fuel mk ps base length offset m = Some (ret, m') →
  untouched base length (cells m) (cells m').
Proof.
  induction fuel as [|fuel IH]; intros mk ps base length offset m ret m' Hrun;
    [done|].
  cbn [compact_fuel] in Hrun.
  destruct (Nat.ltb_spec length 2); [by simplify_eq|].
  destruct (Nat.eqb_spec length 2) as [->|].
  { simplify_eq. apply o_memswap_untouched. unfold in_window; cbn [fst snd]. lia. }
  pose proof (half_window base length).
  destruct (compact_fuel fuel mk ps base _ _ m) as [[r1 m1]|] eqn:H1; [|done].
  apply IH in H1.
  assert (untouched base length (cells m) (cells m1)) as U1
    by (eapply untouched_mono; [| |done]; lia).
  destruct (negb (r1 =? 0)); [by simplify_eq|].
  destruct (compact_fuel fuel mk ps (base + length / 2) _ _ m1)
    as [[r2 m2]|] eqn:H2; [|done].
  apply IH in H2.
  assert (untouched base length (cells m1) (cells m2)) as U2
    by (eapply untouched_mono; [| |done]; lia).
  destruct (negb (r2 =? 0)); [simplify_eq; by eapply untouched_trans|].
  rewrite swap_range_eq in Hrun. simplify_eq.
  eapply untouched_trans; [by eapply untouched_trans|].
  apply swap_local_range_untouched.
Qed.

Lemma shuffle_fuel_untouched fuel : ∀ base length s ret s',
  shuffle_fuel fuel base length s = Some (ret, s') →
  untouched base length (cells (mem s)) (cells (mem s')).
Proof.
  induction fuel as [|fuel IH]; intros base length s ret s' Hrun; [done|].
  cbn [shuffle_fuel] in Hrun.
  destruct (Nat.ltb_spec length 2); [by simplify_eq|].
  destruct (Nat.eqb_spec length 2) as [->|].
  { unfold rand_bit in Hrun. destruct (negb _); simplify_eq; [done|].
    apply o_memswap_untouched. unfold in_window; cbn [fst snd]. lia. }
  pose proof (half_window base length).
  pose proof (mark_phase_mem base length s) as Hmk.
  destruct (mark_phase base length s) as [ret0 s0]; cbn [snd] in Hmk.
  destruct (negb (ret0 =? 0)); [simplify_eq; by rewrite Hmk|].
  destruct (compact _ _ _ _ _ _) as [[r1 m1]|] eqn:H1; [|done].
  apply compact_fuel_untouched in H1. rewrite Hmk in H1.
  destruct (negb (r1 =? 0)); [by simplify_eq|].
  destruct (shuffle_fuel fuel base _ _) as [[r2 s2]|] eqn:H2; [|done].
  apply IH in H2. cbn [mem] in H2.
  assert (untouched base length (cells (mem s)) (cells (mem s2))) as U2.
  { eapply untouched_trans; [done|]. eapply untouched_mono; [| |done]; lia. }
  destruct (negb (r2 =? 0)); [by simplify_eq|].
  destruct (shuffle_fuel fuel (base + length / 2) _ _) as [[r3 s3]|] eqn:H3;
    [|done].
  apply IH in H3.
  assert (untouched base length (cells (mem s)) (cells (mem s3))) as U3.
  { eapply untouched_trans; [done|]. eapply untouched_mono; [| |done]; lia. }
  by destruct (negb (r3 =? 0)); simplify_eq.
Qed.

Lemma window_perm (c c' : list elem_t) base length :
  c' ≡ₚ c → untouched base length c c' →
  take length (drop base c') ≡ₚ take length (drop base c).
Proof.
  intros Hp Hu. pose proof (Permutation_length Hp) as HL.
  assert (take base c' = take base c) as E1.
  { apply list_eq. intros p. rewrite !lookup_take.
    case_decide; [|done]. apply Hu. lia. }
  assert (drop (base + length) c' = drop (base + length) c) as E2.
  { apply list_eq. intros p. rewrite !lookup_drop. apply Hu. lia. }
  rewrite <- (take_drop base c'), <- (take_drop base c), E1 in Hp.
  apply Permutation_app_inv_l in Hp.
  rewrite <- (take_drop length (drop base c')),
          <- (take_drop length (drop base c)), !drop_drop, E2 in Hp.
  by apply Permutation_app_inv_r in Hp.
Qed.

(** X1. [shuffle] rearranges the records of
    [arr[base .. base + length)] among themselves and leave every other
    record of the memory where it is; every pair it hands to [o_memswap]
    lies in that range. *)
Theorem shuffle_stays_in_range (base length : nat) (s s' : shuffle_state)
    (ret : Z) :
  shuffle base length s = Some (ret, s') →
  (∀ p, ¬ (base ≤ p < base + length)%nat →
     cells (mem s') !! p = cells (mem s) !! p)
  ∧ take length (drop base (cells (mem s')))
      ≡ₚ take length (drop base (cells (mem s)))
  ∧ (swaps (mem s) = [] →
     Forall (λ ab, (base ≤ ab.1)%nat ∧ (ab.1 < ab.2)%nat
                   ∧ (ab.2 < base + length)%nat) (swaps (mem s'))).
Proof.
  intros Hrun.
  pose proof (shuffle_fuel_untouched _ _ _ _ _ _ Hrun) as Hu.
  destruct (shuffle_fuel_run length base length s (le_n _))
    as (ret1 & s1 & Hrun1 & Hperm & [rest Hpre] & _).
  unfold shuffle in Hrun. rewrite Hrun in Hrun1. simplify_eq.
  split_and!; [done|by apply window_perm|].
  intros E. rewrite E in Hpre. cbn [app] in Hpre.
  pose proof (shuffle_schedule_in_window (S length) base length) as Hin.
  rewrite <- Hpre, Forall_app in Hin. apply Hin.
Qed.

Lemma shuffle_stays_in_range_witness :
  ∃ s', shuffle 0 4 (Inputs.shuffle_input (Inputs.arr4 ++ Inputs.arr4')
                       Inputs.zero_entropy) = Some (0, s')
    ∧ drop 4 (cells (mem s')) = Inputs.arr4'.
Proof.
  assert (∃ s', shuffle 0 4 (Inputs.shuffle_input (Inputs.arr4 ++ Inputs.arr4')
                               Inputs.zero_entropy) = Some (0, s'))
    as [s' Hrun] by (eexists; reflexivity).
  exists s'. split; [done|].
  destruct (shuffle_stays_in_range 0 4 _ _ _ Hrun) as (Hu & _).
  apply list_eq. intros p. rewrite !lookup_drop. rewrite Hu by lia.
  unfold Inputs.shuffle_input; cbn [mem cells].
  rewrite lookup_app_r by (cbn; lia). f_equal. cbn. lia.
Defined.

End ShuffleFrame.

Section ShuffleCost.
Import Crypto Orshuffle.

Lemma pow2_half k : (2 ^ S k / 2 = 2 ^ k)%nat.
Proof. rewrite Nat.pow_succ_r', Nat.mul_comm, Nat.div_mul by lia. done. Qed.

Lemma pow2_ge_2 k : (2 ≤ 2 ^ S k)%nat.
Proof. rewrite Nat.pow_succ_r'. pose proof (pow2_pos k). lia. Qed.

Lemma range_schedule_length base length :
  List.length (range_schedule base length) = (length / 2)%nat.
Proof. unfold range_schedule. by rewrite length_map, length_seq. Qed.

Lemma compact_schedule_length k : ∀ fuel base,
  (2 ^ k ≤ fuel)%nat →
  (2 * length (compact_schedule (S fuel) base (2 ^ k)) = k * 2 ^ k)%nat.
Proof.
  induction k as [|k IH]; intros fuel base Hfuel.
  { done. }
  cbn [compact_schedule]. pose proof (pow2_ge_2 k) as H2.
  destruct (Nat.ltb_spec (2 ^ S k) 2); [lia|].
  destruct (Nat.eqb_spec (2 ^ S k) 2) as [E|Hne].
  { rewrite E. destruct k as [|k]; [done|].
    pose proof (pow2_ge_2 k). rewrite Nat.pow_succ_r' in E. lia. }
  destruct fuel as [|fuel]; [lia|].
  rewrite !length_app, range_schedule_length, !pow2_half.
  assert (2 ^ k ≤ fuel)%nat as Hf.
  { rewrite Nat.pow_succ_r' in Hfuel, Hne, H2. lia. }
  pose proof (IH fuel base Hf) as E1.
  pose proof (IH fuel (base + 2 ^ k)%nat Hf) as E2.
  rewrite Nat.pow_succ_r'. nia.
Qed.

Lemma shuffle_schedule_length k : ∀ fuel base,
  (2 ^ k ≤ fuel)%nat →
  (4 * length (shuffle_schedule (S fuel) base (2 ^ k)) = k * (k + 1) * 2 ^ k)%nat.
Proof.
  induction k as [|k IH]; intros fuel base Hfuel.
  { done. }
  cbn [shuffle_schedule]. pose proof (pow2_ge_2 k) as H2.
  destruct (Nat.ltb_spec (2 ^ S k) 2); [lia|].
  destruct (Nat.eqb_spec (2 ^ S k) 2) as [E|Hne].
  { rewrite E. destruct k as [|k]; [done|].
    pose proof (pow2_ge_2 k). rewrite Nat.pow_succ_r' in E. lia. }
  destruct fuel as [|fuel]; [lia|].
  rewrite !length_app, !pow2_half.
  assert (2 ^ k ≤ fuel)%nat as Hf.
  { rewrite Nat.pow_succ_r' in Hfuel, Hne, H2. lia. }
  pose proof (IH fuel base Hf) as E1.
  pose proof (IH fuel (base + 2 ^ k)%nat Hf) as E2.
  pose proof (compact_schedule_length (S k) (2 ^ S k) base (le_n _)) as E3.
  rewrite Nat.pow_succ_r' in *. nia.
Qed.

(** X2. A successful [shuffle] of [2 ^ k] records calls [o_memswap]
    [k (k + 1) 2 ^ k / 4] times, whatever the records and the coins. *)
Theorem shuffle_swap_count (k base : nat) (s s' : shuffle_state) :
  swaps (mem s) = [] →
  shuffle base (2 ^ k) s = Some (0, s') →
  (4 * length (swaps (mem s')) = k * (k + 1) * 2 ^ k)%nat.
Proof.
  intros E Hrun.
  destruct (shuffle_fuel_run (2 ^ k) base (2 ^ k) s (le_n _))
    as (ret1 & s1 & Hrun1 & _ & _ & Hs).
  unfold shuffle in Hrun. rewrite Hrun in Hrun1. simplify_eq.
  rewrite Hs, E by done. cbn [app]. by apply shuffle_schedule_length.
Qed.

Lemma shuffle_swap_count_witness :
  ∃ s', shuffle 0 (2 ^ 3) (Inputs.shuffle_input
                              (Inputs.arr4 ++ Inputs.arr4') Inputs.zero_entropy)
        = Some (0, s')
    ∧ length (swaps (mem s')) = 24%nat.
Proof.
  assert (∃ s', shuffle 0 (2 ^ 3) (Inputs.shuffle_input
                  (Inputs.arr4 ++ Inputs.arr4') Inputs.zero_entropy)
                = Some (0, s')) as [s' Hrun]
    by (eexists; vm_compute; reflexivity).
  exists s'. split; [done|].
  pose proof (shuffle_swap_count 3 0 (Inputs.shuffle_input
                (Inputs.arr4 ++ Inputs.arr4') Inputs.zero_entropy) s' eq_refl Hrun) as E.
  change (3 * (3 + 1) * 2 ^ 3)%nat with 96%nat in E. lia.
Defined.

End ShuffleCost.

Section ShuffleStatus.
Import Crypto Orshuffle.








End ShuffleStatus.

Section MarkBound.
Import Crypto Orshuffle.

Lemma shiftr32_lt x : 0 ≤ Z.shiftr (wrap64 x) 32 < 2 ^ 32.
Proof.
  unfold wrap64. rewrite Z.shiftr_div_pow2 by lia.
  pose proof (Z.mod_pos_bound x (2 ^ 64) ltac:(lia)).
  split; [apply Z.div_pos; lia|]. apply Z.div_lt_upper_bound; lia.
Qed.

Lemma mark_elem_bound base ntm i coins j s :
  Z.of_nat ntm + 1 < 2 ^ 63 →
  0 ≤ marked_so_far s ≤ Z.of_nat ntm + 1 →
  0 ≤ marked_so_far (mark_elem base ntm i coins j s) ≤ Z.of_nat ntm + 1.
Proof.
  intros Hn Hs. unfold mark_elem. cbn [marked_so_far].
  set (b := (_ >=? _)).
  assert (b = true → marked_so_far s ≤ Z.of_nat ntm) as Hb.
  { unfold b. intros Hge. apply Z.geb_le in Hge.
    pose proof (shiftr32_lt (coins j * total_left s)) as Hlt.
    destruct (decide (marked_so_far s = Z.of_nat ntm + 1)) as [E|]; [|lia].
    exfalso. rewrite E in Hge.
    replace (Z.of_nat ntm - (Z.of_nat ntm + 1)) with (-1) in Hge by lia.
    change (wrap64 (-1)) with (2 ^ 64 - 1) in Hge. lia. }
  unfold wrap64. destruct b; cbn [b2z].
  - specialize (Hb eq_refl). rewrite Z.mod_small; lia.
  - rewrite Z.mod_small; lia.
Qed.

Lemma mark_chunks_bound chunks : ∀ base length ntm i e s ret e' s',
  Z.of_nat ntm + 1 < 2 ^ 63 →
  0 ≤ marked_so_far s ≤ Z.of_nat ntm + 1 →
  mark_chunks chunks base length ntm i e s = (ret, e', s') →
  0 ≤ marked_so_far s' ≤ Z.of_nat ntm + 1.
Proof.
  induction chunks as [|chunks IH]; intros base length ntm i e s ret e' s' Hn Hs Hrun;
    cbn [mark_chunks] in Hrun.
  { by simplify_eq. }
  unfold rand_read_u32 in Hrun.
  destruct (negb (draw_ret (e 0%nat) =? 0)); [by simplify_eq|].
  eapply IH; [done| |done].
  apply (for_loop_inv (λ s, 0 ≤ marked_so_far s ≤ Z.of_nat ntm + 1)); [done|].
  intros j s0 Hs0. by apply mark_elem_bound.
Qed.

(** X4. After a marking phase of [shuffle] that drew its coins, whatever
    they were, [marked_prefix_sums[i]] is the number of marked positions
    among [0 .. i], and at most [length / 2 + 1] positions are marked. *)
Theorem mark_phase_counts (base length : nat) (s s' : shuffle_state) :
  (base + length ≤ List.length (marked s))%nat →
  (base + length ≤ List.length (marked_prefix_sums s))%nat →
  Z.of_nat length < 2 ^ 63 →
  mark_phase base length s = (0, s') →
  prefix_sums_from 0 (marked s') (marked_prefix_sums s') base length
  ∧ (rank (marked s') base length ≤ length / 2 + 1)%nat.
Proof.
  intros HM HP Hlen Hrun.
  split; [by eapply mark_phase_prefix_sums|].
  unfold mark_phase in Hrun.
  destruct (mark_chunks _ _ _ _ _ _ _) as [[ret e'] ms] eqn:Hchunks.
  simplify_eq. cbn [marked].
  pose proof (Nat.div_mod_eq length 2) as Hhalf.
  assert (0 ≤ marked_so_far ms ≤ Z.of_nat (length / 2) + 1) as Hb.
  { eapply mark_chunks_bound; [| |exact Hchunks]; cbn [marked_so_far]; lia. }
  assert (marking_inv base (List.length (marked s))
            (List.length (marked_prefix_sums s)) length ms) as (_ & _ & E & _).
  { eapply (mark_chunks_inv base length (length / 2) _ _ HM HP Hlen
              (CEIL_DIV length MARK_COINS) 0%nat);
      [apply ceil_div_covers| |exact Hchunks].
    split_and!; try done. intros t Ht. lia. }
  lia.
Qed.

Lemma mark_phase_counts_witness :
  ∃ s', mark_phase 0 4 (Inputs.shuffle_input Inputs.arr4 Inputs.ones_entropy)
        = (0, s')
    ∧ prefix_sums_from 0 (marked s') (marked_prefix_sums s') 0 4
    ∧ (rank (marked s') 0 4 ≤ 3)%nat.
Proof.
  eexists. split; [reflexivity|].
  apply (mark_phase_counts 0 4 (Inputs.shuffle_input Inputs.arr4
                                   Inputs.ones_entropy));
    [cbn; lia|cbn; lia|lia|reflexivity].
Defined.

(** X5. [compact] gathers the marked records, however many there are: on
    [2 ^ k] records at [base] with prefix sums that count the marks (from
    any start value) and an offset [z] below [2 ^ k], the marked record of
    position [i] lands [z + rank i] places from [base], around the end of
    the range, where [rank i] is the number of marked records before it;
    nothing outside the range moves. *)
Theorem compact_gathers_marked (k base z : nat) (mk : list bool)
    (ps : list Z) (c0 : Z) (m : omem) :
  (k ≤ 63)%nat → (z < 2 ^ k)%nat →
  (base + 2 ^ k ≤ length (cells m))%nat →
  prefix_sums_from c0 mk ps base (2 ^ k) →
  ∃ m', compact mk ps base (2 ^ k) (Z.of_nat z) m = Some (0, m')
    ∧ length (cells m') = length (cells m)
    ∧ (∀ p, ¬ (base ≤ p < base + 2 ^ k)%nat → cells m' !! p = cells m !! p)
    ∧ (∀ i, (i < 2 ^ k)%nat → mark_at mk (base + i) = true →
         cells m' !! (base + (z + rank mk base i) mod 2 ^ k)%nat
         = cells m !! (base + i)%nat).
Proof.
  intros Hk Hz Hlen Hps.
  by apply (compact_fuel_places k (2 ^ k) mk ps c0 base z m).
Qed.

Lemma compact_gathers_marked_witness :
  ∃ m', compact [true; false; true; true] [1; 1; 2; 3] 0 (2 ^ 2) (Z.of_nat 1)
          {| cells := Inputs.arr4; swaps := [] |} = Some (0, m')
    ∧ cells m' !! 1%nat = Some (Inputs.rec 10)
    ∧ cells m' !! 2%nat = Some (Inputs.rec 12)
    ∧ cells m' !! 3%nat = Some (Inputs.rec 13).
Proof.
  destruct (compact_gathers_marked 2 0 1 [true; false; true; true]
              [1; 1; 2; 3] 0 {| cells := Inputs.arr4; swaps := [] |})
    as (m' & Hrun & _ & _ & Hplace); [lia|cbn; lia|cbn; lia| |].
  { intros i Hi. do 4 (destruct i as [|i]; [reflexivity|]). cbn in Hi. lia. }
  exists m'. split; [exact Hrun|]. split_and!.
  - exact (Hplace 0%nat ltac:(cbn; lia) eq_refl).
  - exact (Hplace 2%nat ltac:(cbn; lia) eq_refl).
  - exact (Hplace 3%nat ltac:(cbn; lia) eq_refl).
Defined.

(** X6. The two steps of [shuffle] together: after a successful marking
    phase over [2 ^ k] records, [compact] at offset 0 returns 0 and moves
    the marked records to the front of the range, in their order: the
    marked record of position [i] lands at the position that is the number
    of marks before it. *)
Theorem mark_then_compact (k base : nat) (s s' : shuffle_state) :
  (k ≤ 62)%nat →
  (base + 2 ^ k ≤ length (marked s))%nat →
  (base + 2 ^ k ≤ length (marked_prefix_sums s))%nat →
  (base + 2 ^ k ≤ length (cells (mem s)))%nat →
  mark_phase base (2 ^ k) s = (0, s') →
  ∃ m', compact (marked s') (marked_prefix_sums s') base (2 ^ k) 0 (mem s')
        = Some (0, m')
    ∧ cells m' ≡ₚ cells (mem s)
    ∧ ∀ i, (i < 2 ^ k)%nat → mark_at (marked s') (base + i) = true →
        cells m' !! (base + rank (marked s') base i)%nat
        = cells (mem s) !! (base + i)%nat.
Proof.
  intros Hk HM HP HC Hrun.
  assert (Z.of_nat (2 ^ k) < 2 ^ 63) as Hlen.
  { pose proof (pow2_le_63 (S k) ltac:(lia)) as H.
    rewrite Nat.pow_succ_r' in H. pose proof (pow2_pos k). lia. }
  pose proof (mark_phase_prefix_sums _ _ _ _ HM HP Hlen Hrun) as Hps.
  pose proof (mark_phase_mem base (2 ^ k) s) as Hmem.
  rewrite Hrun in Hmem. cbn [snd] in Hmem.
  destruct (compact_fuel_places k (2 ^ k) (marked s') (marked_prefix_sums s') 0
              base 0 (mem s')) as (m' & Hc & _ & _ & Hplace);
    [done|lia|apply pow2_pos|by rewrite Hmem|done|].
  exists m'. split; [done|].
  destruct (compact_run (marked s') (marked_prefix_sums s') base (2 ^ k) 0 (mem s'))
    as (m1 & Hc1 & Hperm & _).
  unfold compact in Hc1. change (Z.of_nat 0) with 0 in Hc.
  rewrite Hc in Hc1. simplify_eq. split; [by rewrite <- Hmem|].
  intros i Hi Hmark. rewrite <- Hmem, <- (Hplace i Hi Hmark).
  rewrite Nat.add_0_l, Nat.mod_small; [done|].
  pose proof (rank_le (marked s') base i). lia.
Qed.

Lemma mark_then_compact_witness :
  ∃ s' m', mark_phase 0 (2 ^ 2) (Inputs.shuffle_input Inputs.arr4
                                   Inputs.ones_entropy) = (0, s')
    ∧ compact (marked s') (marked_prefix_sums s') 0 (2 ^ 2) 0 (mem s')
      = Some (0, m')
    ∧ cells m' ≡ₚ Inputs.arr4.
Proof.
  pose (s0 := Inputs.shuffle_input Inputs.arr4 Inputs.ones_entropy).
  assert (mark_phase 0 (2 ^ 2) s0 = (0, (mark_phase 0 (2 ^ 2) s0).2)) as Hrun
    by (vm_compute; reflexivity).
  destruct (mark_then_compact 2 0 s0 _ ltac:(lia) ltac:(cbn; lia)
              ltac:(cbn; lia) ltac:(cbn; lia) Hrun) as (m' & Hc & Hp & _).
  exists (mark_phase 0 (2 ^ 2) s0).2, m'.
  split; [exact Hrun|]. split; [exact Hc|exact Hp].
Defined.

End MarkBound.

Section AssignFacts.
Import Crypto Threading Orshuffle.

Lemma assign_loop_ok n : ∀ j arr e,
  (∀ d, (d < n)%nat → draw_ret (e d) = 0) →
  ∃ arr' e', assign_loop n j arr e = (0, arr', e')
    ∧ (∀ d, e' d = e (n + d)%nat)
    ∧ length arr' = length arr
    ∧ ∀ p, arr' !! p
        = if decide (j ≤ p < j + n)%nat
          then set_orp_id (wrap64 (draw_word (e (p - j)%nat) 0)) <$> arr !! p
          else arr !! p.
Proof.
  induction n as [|n IH]; intros j arr e Hok; cbn [assign_loop].
  { exists arr, e. split_and!; try done. intros p. case_decide; [lia|done]. }
  unfold rand_read_u64. rewrite (Hok 0%nat) by lia. cbn [negb Z.eqb].
  assert (∀ d, (d < n)%nat → draw_ret (entropy_next e d) = 0) as Hok'.
  { intros d Hd. unfold entropy_next. apply Hok. lia. }
  destruct (IH (S j) (alter (set_orp_id (wrap64 (draw_word (e 0%nat) 0))) j arr)
              (entropy_next e) Hok') as (arr' & e' & -> & He & Hl & Hp).
  exists arr', e'. split_and!; try done.
  - by rewrite Hl, length_alter.
  - intros p. rewrite Hp. destruct (decide (p = j)) as [->|Hne].
    + rewrite decide_False, decide_True by lia.
      rewrite list_lookup_alter_eq, Nat.sub_diag. done.
    + rewrite list_lookup_alter_ne by done.
      repeat case_decide; try lia; try done.
      replace (p - j)%nat with (S (p - S j)) by lia. done.
Qed.



Section Shards.

Variables (len nt : nat).
Hypothesis Hnt : (0 < nt)%nat.
Hypothesis Hnt64 : Z.of_nat nt < 2 ^ 64.
Hypothesis Hsize : Z.of_nat (len * nt) < 2 ^ 64.

Local Abbreviation bound := (shard_bound len nt).

Lemma shard_bound_0 : bound 0 = 0%nat.
Proof using All. unfold shard_bound. by rewrite Nat.mul_0_l, Nat.Div0.div_0_l. Qed.

Lemma shard_bound_all : bound nt = len.
Proof using All. unfold shard_bound. rewrite Nat.mul_comm. apply Nat.div_mul. lia. Qed.

Lemma shard_bound_mono i j : (i ≤ j)%nat → (bound i ≤ bound j)%nat.
Proof using All.
  intros Hij. unfold shard_bound. apply Nat.Div0.div_le_mono. nia.
Qed.

Lemma shard_bound_le i : (i ≤ nt)%nat → (bound i ≤ len)%nat.
Proof using All.
  intros Hi. rewrite <- shard_bound_all at 2. by apply shard_bound_mono.
Qed.

Lemma shard_start_eq i :
  (i ≤ nt)%nat →
  Z.to_nat (wrap64 (Z.of_nat i * Z.of_nat len) / Z.of_nat nt) = bound i.
Proof using All.
  intros Hi. unfold wrap64, shard_bound.
  rewrite Z.mod_small by nia.
  rewrite <- Nat2Z.inj_mul, <- Nat2Z.inj_div, Nat2Z.id. done.
Qed.

Lemma shard_end_eq i :
  (i < nt)%nat →
  Z.to_nat (wrap64 (wrap64 (Z.of_nat i + 1) * Z.of_nat len) / Z.of_nat nt)
  = bound (S i).
Proof using All.
  intros Hi. rewrite <- (shard_start_eq (S i)) by lia.
  unfold wrap64 at 2. rewrite Z.mod_small by lia.
  do 3 f_equal. lia.
Qed.

(** One shard, with the bounds of its range written out. *)
Lemma assign_random_id_shard args e i :
  aa_length args = len → aa_num_threads args = nt → (i < nt)%nat →
  assign_random_id (args, e) i
  = let '(ret, arr, e') :=
      assign_loop (bound (S i) - bound i) (bound i) (aa_arr args) e in
    ({| aa_arr := arr; aa_length := len; aa_start_idx := aa_start_idx args;
        aa_num_threads := nt;
        aa_ret := if negb (ret =? 0)
                  then (atomic_compare_exchange_n (aa_ret args) 0 ret).1
                  else aa_ret args |}, e').
Proof using All.
  intros El En Hi. unfold assign_random_id.
  rewrite El, En, shard_start_eq, shard_end_eq by lia. done.
Qed.

Lemma sum_shards_seq m :
  (m ≤ nt)%nat →
  sum_list_with (λ i, bound (S i) - bound i)%nat (seq 0 m) = bound m.
Proof using All.
  induction m as [|m IH]; intros Hm; [by rewrite shard_bound_0|].
  rewrite seq_S, sum_list_with_app, IH by lia. cbn.
  pose proof (shard_bound_mono m (S m) ltac:(lia)). lia.
Qed.

Lemma sum_shards schedule :
  is_schedule nt schedule →
  sum_list_with (λ i, bound (S i) - bound i)%nat schedule = len.
Proof using All.
  intros Hs. unfold is_schedule in Hs. rewrite Hs, sum_shards_seq by done.
  apply shard_bound_all.
Qed.



Lemma shard_disjoint i i' p :
  i ≠ i' → (bound i ≤ p < bound (S i))%nat → ¬ (bound i' ≤ p < bound (S i'))%nat.
Proof using All.
  intros Hne Hp Hp'. destruct (decide (i < i')%nat).
  - pose proof (shard_bound_mono (S i) i' ltac:(lia)). lia.
  - pose proof (shard_bound_mono (S i') i ltac:(lia)). lia.
Qed.

Lemma read_range (arr arr' : list elem_t) (e : entropy) b sz :
  (b + sz ≤ length arr)%nat →
  (∀ p, (b ≤ p < b + sz)%nat →
     arr' !! p = set_orp_id (drawn_id e (p - b)) <$> arr !! p) →
  orp_id <$> take sz (drop b arr') = drawn_id e <$> seq 0 sz.
Proof.
  intros Hlen Hp. apply list_eq. intros k.
  rewrite !list_lookup_fmap.
  destruct (decide (k < sz)%nat) as [Hk|Hk].
  - rewrite lookup_take_lt, lookup_drop by done. rewrite Hp by lia.
    destruct (lookup_lt_is_Some_2 arr (b + k) ltac:(lia)) as [x ->].
    rewrite lookup_seq_lt by done. cbn. do 2 f_equal. lia.
  - rewrite lookup_take_ge, lookup_seq_ge by lia. done.
Qed.

Lemma assign_shards_ok schedule : ∀ args (e_cur : entropy),
  NoDup schedule → Forall (λ i, (i < nt)%nat) schedule →
  aa_length args = len → aa_num_threads args = nt →
  (len ≤ length (aa_arr args))%nat →
  (∀ d, (d < sum_list_with (λ i, bound (S i) - bound i)%nat schedule)%nat →
     draw_ret (e_cur d) = 0) →
  let args' := (thread_work_iter assign_random_id schedule (args, e_cur)).1 in
  aa_ret args' = aa_ret args
  ∧ length (aa_arr args') = length (aa_arr args)
  ∧ (∀ p, (∀ i, i ∈ schedule → ¬ (bound i ≤ p < bound (S i))%nat) →
       aa_arr args' !! p = aa_arr args !! p)
  ∧ (∀ p x', aa_arr args' !! p = Some x' →
       ∃ x, aa_arr args !! p = Some x ∧ key x' = key x
            ∧ payload x' = payload x)
  ∧ flat_map
      (λ i, orp_id <$> take (bound (S i) - bound i)
                         (drop (bound i) (aa_arr args'))) schedule
    = drawn_id e_cur <$> seq 0
        (sum_list_with (λ i, bound (S i) - bound i)%nat schedule).
Proof using All.
  unfold thread_work_iter.
  induction schedule as [|i schedule IH];
    intros args e_cur Hnd Hin El En Hlen Hok; cbn [foldl sum_list_with flat_map].
  { split_and!; try done. intros p x' Hx. by exists x'. }
  apply NoDup_cons in Hnd as [Hni Hnd]. apply Forall_cons in Hin as [Hi Hin].
  rewrite (assign_random_id_shard args e_cur i El En Hi).
  cbn [sum_list_with] in Hok.
  set (sz := (bound (S i) - bound i)%nat) in *.
  pose proof (shard_bound_mono i (S i) ltac:(lia)) as Hmono.
  pose proof (shard_bound_le (S i) ltac:(lia)) as Hle.
  destruct (assign_loop_ok sz (bound i) (aa_arr args) e_cur)
    as (arr1 & e1 & -> & He1 & Hl1 & Hp1).
  { intros d Hd. apply Hok. lia. }
  cbn [negb Z.eqb].
  set (args1 := {| aa_arr := arr1 |}).
  pose proof (IH args1 e1 Hnd Hin eq_refl eq_refl) as HIH.
  cbv zeta in HIH.
  destruct HIH as (Hret & Hl & Hframe & Hkeys & Hids).
  { cbn [args1 aa_arr]. lia. }
  { intros d Hd. rewrite He1. apply Hok. lia. }
  cbn [args1 aa_arr aa_ret] in *.
  split_and!.
  - done.
  - lia.
  - intros p Hp. rewrite Hframe.
    + rewrite Hp1. rewrite decide_False; [done|].
      intros ?. apply (Hp i); [left|]. unfold sz in *. lia.
    + intros i' Hi'. apply Hp. by right.
  - intros p x' Hx'. destruct (Hkeys p x' Hx') as (x1 & Hx1 & Ek & Epay).
    rewrite Hp1 in Hx1. case_decide; [|by exists x1].
    destruct (aa_arr args !! p) as [x|]; [|done].
    injection Hx1 as <-. exists x. by rewrite Ek, Epay.
  - rewrite Hids, seq_app, fmap_app. f_equal.
    + apply (read_range (aa_arr args)); [lia|].
      intros p Hp. rewrite Hframe.
      * rewrite Hp1. rewrite decide_True by done. done.
      * intros i' Hi'. apply (shard_disjoint i i' p); [|unfold sz in *; lia].
        intros ->. done.
    + replace (0 + sz)%nat with (sz + 0)%nat by lia.
      rewrite <- fmap_add_seq, <- list_fmap_compose.
      apply list_fmap_ext. intros k d Hd. cbn. unfold drawn_id.
      by rewrite He1.
Qed.

Lemma flat_shards (arr' : list elem_t) m :
  (m ≤ nt)%nat →
  flat_map (λ i, orp_id <$> take (bound (S i) - bound i) (drop (bound i) arr'))
    (seq 0 m)
  = orp_id <$> take (bound m) arr'.
Proof using All.
  induction m as [|m IH]; intros Hm.
  { by rewrite shard_bound_0. }
  rewrite seq_S, flat_map_app, IH by lia. cbn [flat_map].
  rewrite app_nil_r, <- fmap_app, take_take_drop. do 2 f_equal.
  rewrite Nat.add_0_l.
  pose proof (shard_bound_mono m (S m) ltac:(lia)). lia.
Qed.

End Shards.

Section AssignClaims.



(** X8. The task that assigns the ORP ids, given the [length] of the array
    and an entropy source whose first [length] draws succeed: once every
    shard has run, in whatever order, [args.ret] is 0, every record of
    [arr[0 .. length)] has its key and payload and a new ORP id, the ids
    given out are the first [length] draws, each used once, and the
    records from [length] on are untouched. *)
Theorem assign_random_id_fresh (arr : list elem_t) (len nt start_idx : nat)
    (e : entropy) (schedule : list nat) :
  (0 < nt)%nat → Z.of_nat nt < 2 ^ 64 → Z.of_nat (len * nt) < 2 ^ 64 →
  (len ≤ length arr)%nat → is_schedule nt schedule →
  (∀ d, (d < len)%nat → draw_ret (e d) = 0) →
  let args' :=
    (thread_work_iter assign_random_id schedule
       ({| aa_arr := arr; aa_length := len; aa_start_idx := start_idx;
           aa_num_threads := nt; aa_ret := 0 |}, e)).1 in
  aa_ret args' = 0
  ∧ key <$> aa_arr args' = key <$> arr
  ∧ payload <$> aa_arr args' = payload <$> arr
  ∧ drop len (aa_arr args') = drop len arr
  ∧ orp_id <$> take len (aa_arr args') ≡ₚ drawn_id e <$> seq 0 len.
Proof.
  intros Hnt Hnt64 Hsize Hlen Hs Hok.
  pose proof Hs as Hs'. unfold is_schedule in Hs'.
  pose proof (assign_shards_ok len nt Hnt Hnt64 Hsize schedule
                {| aa_arr := arr; aa_length := len; aa_start_idx := start_idx;
                   aa_num_threads := nt; aa_ret := 0 |} e) as H.
  cbv zeta in *. rewrite (sum_shards len nt Hnt Hnt64 Hsize schedule Hs) in H.
  destruct H as (Hret & Hl & Hframe & Hkeys & Hids); try done.
  { rewrite Hs'. apply NoDup_seq. }
  { apply Forall_forall. intros i Hi. rewrite Hs' in Hi.
    apply elem_of_seq in Hi. lia. }
  cbn [aa_arr aa_ret] in *.
  set (arr' := aa_arr _) in *.
  split_and!.
  - done.
  - apply list_eq. intros p. rewrite !list_lookup_fmap.
    destruct (arr' !! p) as [x'|] eqn:Hx'.
    + destruct (Hkeys p x' Hx') as (x & Hx & Ek & _).
      rewrite Hx. cbn. by rewrite Ek.
    + apply lookup_ge_None in Hx'. rewrite Hl in Hx'.
      apply lookup_ge_None in Hx'. by rewrite Hx'.
  - apply list_eq. intros p. rewrite !list_lookup_fmap.
    destruct (arr' !! p) as [x'|] eqn:Hx'.
    + destruct (Hkeys p x' Hx') as (x & Hx & _ & Ep).
      rewrite Hx. cbn. by rewrite Ep.
    + apply lookup_ge_None in Hx'. rewrite Hl in Hx'.
      apply lookup_ge_None in Hx'. by rewrite Hx'.
  - apply list_eq. intros p. rewrite !lookup_drop. apply Hframe.
    intros i Hi. rewrite Hs' in Hi. apply elem_of_seq in Hi.
    pose proof (shard_bound_le len nt Hnt Hnt64 Hsize (S i) ltac:(lia)). lia.
  - rewrite <- Hids.
    rewrite <- (shard_bound_all len nt Hnt Hnt64 Hsize) at 1.
    rewrite <- (flat_shards len nt Hnt Hnt64 Hsize arr' nt (le_n _)).
    apply Permutation_flat_map. by symmetry.
Qed.

Lemma assign_random_id_fresh_witness :
  let args' :=
    (thread_work_iter assign_random_id [1; 0]%nat
       ({| aa_arr := Inputs.arr4; aa_length := 4; aa_start_idx := 0;
           aa_num_threads := 2; aa_ret := 0 |}, Inputs.counting_entropy)).1 in
  aa_ret args' = 0
  ∧ key <$> aa_arr args' = key <$> Inputs.arr4
  ∧ payload <$> aa_arr args' = payload <$> Inputs.arr4
  ∧ drop 4 (aa_arr args') = drop 4 Inputs.arr4
  ∧ orp_id <$> take 4 (aa_arr args')
      ≡ₚ drawn_id Inputs.counting_entropy <$> seq 0 4.
Proof.
  apply (assign_random_id_fresh Inputs.arr4 4 2 0 Inputs.counting_entropy
           [1; 0]%nat); [lia|lia|cbn; lia|cbn; lia|apply perm_swap|done].
Defined.

End AssignClaims.

End AssignFacts.

(** * Further properties of the samplesort *)

Section QuickselectParts.
Import Comparator Quickselect QuickselectSpec.

Lemma partition_shape (is_master : bool) pivot arr lo hi arr' pl pr :
  (lo ≤ hi)%nat → (hi ≤ length arr)%nat → (is_master = true → (lo < hi)%nat) →
  partition is_master pivot arr lo hi = Some (arr', pl, pr) →
  pl = (pr + if is_master then 1 else 0)%nat.
Proof.
  intros Hle Hhi Hm Hrun. unfold partition in Hrun.
  destruct (partition_loop_spec pivot arr
              (lo + if is_master then 1 else 0) hi
              (2 * (hi - lo) + 2) arr
              (lo + if is_master then 1 else 0) hi PARTITION_SCAN_LEFT)
    as (arr1 & c & E & Hc & _); try done; try lia.
  { destruct is_master; [specialize (Hm eq_refl)|]; lia. }
  { apply window_stable_refl. }
  { intros j x Hj. lia. }
  { intros j x Hj. lia. }
  rewrite E in Hrun. destruct is_master; injection Hrun as <- <- <-; lia.
Qed.

(** X9. The partition step of [distributed_quickselect_helper] on one
    worker, over the window [arr[left .. right)] (on the master the pivot is
    [arr[left]]): it ends; it permutes the records of the window among
    themselves and touches no other; afterwards no record of
    [arr[left .. partition_left)] is greater than the pivot and none of
    [arr[partition_right .. right)] is less; on the master the pivot sits
    at [partition_right] and [partition_left] is one more, on the other
    workers the two are equal. *)
Theorem partition_splits (is_master : bool) (pivot : sample)
    (arr : list elem_t) (lo hi : nat) :
  (lo ≤ hi)%nat → (hi ≤ length arr)%nat →
  (is_master = true → (lo < hi)%nat ∧ sample_of (elem_at arr lo) = pivot) →
  ∃ arr' pl pr,
    partition is_master pivot arr lo hi = Some (arr', pl, pr)
    ∧ (lo ≤ pr)%nat ∧ (pl ≤ hi)%nat
    ∧ arr' ≡ₚ arr
    ∧ take (hi - lo) (drop lo arr') ≡ₚ take (hi - lo) (drop lo arr)
    ∧ (∀ j, ¬ (lo ≤ j < hi)%nat → arr' !! j = arr !! j)
    ∧ (∀ j x, (lo ≤ j < pl)%nat → arr' !! j = Some x →
         elem_sample_comparator x pivot ≤ 0)
    ∧ (∀ j x, (pr ≤ j < hi)%nat → arr' !! j = Some x →
         0 ≤ elem_sample_comparator x pivot)
    ∧ (if is_master
       then pl = S pr ∧ ∃ x, arr' !! pr = Some x ∧ sample_of x = pivot
       else pl = pr).
Proof.
  intros Hle Hhi Hm.
  destruct (partition_spec is_master pivot arr lo hi Hle Hhi Hm)
    as (arr' & pl & pr & Hrun & Hok & _).
  destruct Hok as (? & ? & ? & (Hlen & Hperm & Hframe & _) & Hb & Ha).
  exists arr', pl, pr. split_and!; try done.
  - replace hi with (lo + (hi - lo))%nat in Hframe by lia.
    by apply window_perm.
  - intros j x Hj Hx. apply comparator_le. by apply (Hb j).
  - intros j x Hj Hx. apply comparator_ge. by apply (Ha j).
  - pose proof (partition_shape is_master pivot arr lo hi arr' pl pr Hle Hhi
                  ltac:(intros E; by destruct (Hm E)) Hrun) as Hshape.
    destruct is_master.
    + split; [lia|]. destruct (Hm eq_refl) as [Hlt Hpiv].
      by apply (partition_master_pivot pivot arr lo hi arr' pl pr).
    + lia.
Qed.

Lemma partition_splits_witness :
  ∃ arr' pl pr,
    partition true (Sample 2 0) (Inputs.rec <$> [2; 2; 1; 2; 3]) 0 5
    = Some (arr', pl, pr)
    ∧ pl = S pr ∧ arr' ≡ₚ Inputs.rec <$> [2; 2; 1; 2; 3].
Proof.
  destruct (partition_splits true (Sample 2 0) (Inputs.rec <$> [2; 2; 1; 2; 3])
              0 5) as (arr' & pl & pr & Hrun & _ & _ & Hp & _ & _ & _ & _ & Hm);
    [lia|cbn; lia|intros _; split; [lia|reflexivity]|].
  exists arr', pl, pr. split; [exact Hrun|]. split; [exact (proj1 Hm)|exact Hp].
Defined.

(** X10. The election of the master: every worker computes the lowest
    rank whose slice is not empty, and -1 exactly when every slice is
    empty. *)
Theorem elect_master_lowest (flags : list bool) :
  (elect_master flags = -1 ↔ ∀ i, flags !! i ≠ Some true)
  ∧ (∀ i, flags !! i = Some true →
       0 ≤ elect_master flags ≤ Z.of_nat i
       ∧ flags !! Z.to_nat (elect_master flags) = Some true).
Proof.
  assert (elect_master flags = -1 ∧ (∀ i, (i < length flags)%nat →
                                        flags !! i ≠ Some true)
          ∨ (0 ≤ elect_master flags
             ∧ flags !! Z.to_nat (elect_master flags) = Some true
             ∧ ∀ i, (i < Z.to_nat (elect_master flags))%nat →
                 flags !! i ≠ Some true)) as H.
  { unfold elect_master.
    set (body := λ (i : nat) (master_rank : Z),
           let is_ready := default false (flags !! i) in
           if is_ready && ((master_rank =? -1) || (Z.of_nat i <? master_rank))
           then Z.of_nat i else master_rank).
    assert (∀ k m, (0 ≤ k < 0 + length flags)%nat →
              (m = -1 ∧ (∀ i, (i < k)%nat → flags !! i ≠ Some true))
              ∨ (0 ≤ m < Z.of_nat k ∧ flags !! Z.to_nat m = Some true
                 ∧ ∀ i, (i < Z.to_nat m)%nat → flags !! i ≠ Some true) →
              (body k m = -1 ∧ (∀ i, (i < S k)%nat → flags !! i ≠ Some true))
              ∨ (0 ≤ body k m < Z.of_nat (S k)
                 ∧ flags !! Z.to_nat (body k m) = Some true
                 ∧ ∀ i, (i < Z.to_nat (body k m))%nat →
                     flags !! i ≠ Some true)) as Hstep.
    { intros k m Hk [(-> & Hnone)|(Hm & Htrue & Hleast)]; unfold body.
      - destruct (flags !! k) as [[]|] eqn:Ek; cbn.
        + right. rewrite Nat2Z.id. split_and!; [lia|lia|done|done].
        + left. split; [done|]. intros i Hi.
          destruct (decide (i = k)) as [->|]; [by rewrite Ek|apply Hnone; lia].
        + left. split; [done|]. intros i Hi.
          destruct (decide (i = k)) as [->|]; [by rewrite Ek|apply Hnone; lia].
      - right.
        assert ((default false (flags !! k)
                 && ((m =? -1) || (Z.of_nat k <? m))) = false) as ->.
        { destruct (Z.eqb_spec m (-1)); [lia|].
          destruct (Z.ltb_spec (Z.of_nat k) m); [lia|].
          by rewrite andb_false_r. }
        split_and!; [lia|lia|done|done]. }
    pose proof (for_loop_inv_idx
      (λ k m, (m = -1 ∧ (∀ i, (i < k)%nat → flags !! i ≠ Some true))
              ∨ (0 ≤ m < Z.of_nat k ∧ flags !! Z.to_nat m = Some true
                 ∧ ∀ i, (i < Z.to_nat m)%nat → flags !! i ≠ Some true))
      (length flags) 0 body (-1)) as Hloop.
    cbv beta in Hloop. rewrite Nat.add_0_l in Hloop.
    specialize (Hloop ltac:(left; split; [done|intros; lia]) Hstep).
    destruct Hloop as [?|(? & ? & ?)]; [by left|right].
    split_and!; [lia|done|done]. }
  split.
  - split.
    + intros E i Hi. destruct H as [[_ Hnone]|[? _]]; [|lia].
      apply (Hnone i); [|done]. by eapply lookup_lt_Some.
    + intros Hnone. destruct H as [[? _]|(_ & Htrue & _)]; [done|].
      by destruct (Hnone _ Htrue).
  - intros i Hi. destruct H as [[_ Hnone]|(Hm & Htrue & Hleast)].
    + destruct (Hnone i); [by eapply lookup_lt_Some|done].
    + split; [|done]. split; [done|].
      destruct (decide (elect_master flags ≤ Z.of_nat i)) as [|Hgt]; [done|].
      destruct (Hleast i ltac:(lia) Hi).
Qed.

Lemma comparator_le_iff a b :
  mergesort_comparator a b ≤ 0
  ↔ key a < key b ∨ (key a = key b ∧ orp_id a ≤ orp_id b).
Proof.
  unfold mergesort_comparator.
  rewrite Z.shiftl_mul_pow2 by lia. change (2 ^ 1) with 2.
  destruct (three_way_cases (key a) (key b)) as [[? ->]|[[? ->]|[? ->]]],
    (three_way_cases (orp_id a) (orp_id b)) as [[? ->]|[[? ->]|[? ->]]];
    lia.
Qed.

(** X11. [mergesort_comparator] is a comparator as [qsort] and the merge
    need it: swapping its arguments negates it, it is transitive, and it
    agrees with [elem_sample_comparator], which the quickselect uses
    against a sample. *)
Theorem mergesort_comparator_order :
  (∀ a b, mergesort_comparator b a = - mergesort_comparator a b)
  ∧ (∀ a b c, mergesort_comparator a b ≤ 0 → mergesort_comparator b c ≤ 0 →
       mergesort_comparator a c ≤ 0)
  ∧ (∀ a b, elem_sample_comparator a (sample_of b) = mergesort_comparator a b).
Proof.
  split_and!.
  - intros a b. unfold mergesort_comparator.
    rewrite !Z.shiftl_mul_pow2 by lia. change (2 ^ 1) with 2.
    destruct (three_way_cases (key a) (key b)) as [[? ->]|[[? ->]|[? ->]]],
      (three_way_cases (key b) (key a)) as [[? ->]|[[? ->]|[? ->]]],
      (three_way_cases (orp_id a) (orp_id b)) as [[? ->]|[[? ->]|[? ->]]],
      (three_way_cases (orp_id b) (orp_id a)) as [[? ->]|[[? ->]|[? ->]]];
      lia.
  - intros a b c. rewrite !comparator_le_iff. lia.
  - done.
Qed.

End QuickselectParts.

Section QuickselectFrame.
Import Comparator Quickselect QuickselectSpec.

(** X12. Whatever [distributed_quickselect] returns, also when it fails
    with -1 because every slice left is empty: on every worker the records are a permutation of what they were, the
    output arrays keep their lengths, and no entry of [samples] or
    [sample_idxs] beyond the targets is written. *)
Theorem distributed_quickselect_frame (targets : list Z) (ws ws' : list worker)
    (ret : Z) :
  Z.of_nat (sum_list_with (λ w, length (w_arr w)) ws) < 2 ^ 64 →
  Forall (λ w, (length targets ≤ length (w_samples w))%nat
               ∧ (length targets ≤ length (w_sample_idxs w))%nat) ws →
  distributed_quickselect targets ws = Some (ret, ws') →
  Forall2 (λ w w',
             w_arr w' ≡ₚ w_arr w
             ∧ length (w_samples w') = length (w_samples w)
             ∧ length (w_sample_idxs w') = length (w_sample_idxs w)
             ∧ ∀ i, (length targets ≤ i)%nat →
                 w_samples w' !! i = w_samples w !! i
                 ∧ w_sample_idxs w' !! i = w_sample_idxs w !! i) ws ws'.
Proof.
  intros Htot Hout Hrun. unfold distributed_quickselect in Hrun.
  set (windows := (λ w, (O, length (w_arr w))) <$> ws) in *.
  assert (call_wf ws windows (0 + length targets)) as Hwf.
  { split; [unfold windows; by rewrite length_fmap|].
    intros r w win Hw Hwin. unfold windows in Hwin.
    rewrite list_lookup_fmap, Hw in Hwin. cbn in Hwin. simplify_eq. cbn.
    rewrite Forall_lookup in Hout. destruct (Hout r w Hw). lia. }
  destruct (helper_spec targets _ ws 0 (length targets) windows ret ws' Hwf
              ltac:(lia) Htot Hrun) as [[HL Hstep] _].
  apply Forall2_same_length_lookup. split; [done|].
  intros r w w' Hw Hw'.
  assert (windows !! r = Some (O, length (w_arr w))) as Hwin
    by (unfold windows; by rewrite list_lookup_fmap, Hw).
  destruct (Hstep r w w' _ Hw Hw' Hwin) as ((_ & ? & _) & ? & ? & Hf).
  split_and!; try done. intros i Hi. apply Hf. lia.
Qed.

Lemma distributed_quickselect_frame_witness :
  Forall2 (λ w w', w_arr w' ≡ₚ w_arr w
             ∧ length (w_samples w') = length (w_samples w)
             ∧ length (w_sample_idxs w') = length (w_sample_idxs w)
             ∧ ∀ i, (1 ≤ i)%nat →
                 w_samples w' !! i = w_samples w !! i
                 ∧ w_sample_idxs w' !! i = w_sample_idxs w !! i)
    Inputs.two_workers Inputs.two_workers_selected.
Proof.
  apply (distributed_quickselect_frame [1] Inputs.two_workers
           Inputs.two_workers_selected 0).
  - cbn. lia.
  - repeat constructor; cbn; lia.
  - reflexivity.
Defined.

End QuickselectFrame.

Section Shares.
Import SamplePartition.

Lemma share_start_floor (r W : nat) (N : Z) :
  (r ≤ W)%nat → 0 ≤ N → N * Z.of_nat W < 2 ^ 64 →
  src_local_start r W N = N * Z.of_nat r / Z.of_nat W.
Proof.
  intros Hr HN Hfit. unfold src_local_start, wrap64.
  rewrite Z.mod_small; [done|]. nia.
Qed.

(** X13. The shares of [distributed_sample_partition]: for [N] records
    over [W] workers ([N W] below [2 ^ 64]) the slices
    [src_local_start .. src_local_start + src_local_length) of the workers
    0, 1, ..., [W - 1] follow one another from 0 to [N], and the rank
    [sample_targets[i]] that the quickselect is asked for is the start of
    the share of worker [i + 1]; the targets do not decrease. *)
Theorem shares_tile (W : nat) (N : Z) :
  (0 < W)%nat → Z.of_nat W < 2 ^ 31 → 0 ≤ N → N * Z.of_nat W < 2 ^ 64 →
  src_local_start 0 W N = 0
  ∧ src_local_start W W N = N
  ∧ (∀ r, (r < W)%nat →
       0 ≤ src_local_length r W N
       ∧ src_local_start r W N + src_local_length r W N
         = src_local_start (S r) W N)
  ∧ length (sample_targets W N) = (W - 1)%nat
  ∧ (∀ i t, sample_targets W N !! i = Some t →
       t = src_local_start (S i) W N ∧ 0 ≤ t ≤ N)
  ∧ (∀ i j ti tj, (i ≤ j)%nat → sample_targets W N !! i = Some ti →
       sample_targets W N !! j = Some tj → ti ≤ tj).
Proof.
  intros HW HW31 HN Hfit.
  assert (∀ r, (r ≤ W)%nat → 0 ≤ src_local_start r W N ≤ N) as Hrange.
  { intros r Hr. rewrite share_start_floor by done. split.
    - apply Z.div_pos; nia.
    - apply Z.div_le_upper_bound; nia. }
  assert (∀ r s, (r ≤ s)%nat → (s ≤ W)%nat →
            src_local_start r W N ≤ src_local_start s W N) as Hmono.
  { intros r s Hrs Hs. rewrite !share_start_floor by (done || lia).
    apply Z.div_le_mono; nia. }
  assert (∀ i t, sample_targets W N !! i = Some t →
            (S i < W)%nat ∧ t = src_local_start (S i) W N) as Htarget.
  { intros i t Ht. unfold sample_targets in Ht.
    apply list_lookup_fmap_Some in Ht as (k & -> & Hk).
    apply lookup_seq in Hk as [-> Hk]. split; [lia|].
    unfold src_local_start. cbn [Nat.add]. unfold wrap64 at 2.
    rewrite Z.mod_small by lia. do 3 f_equal. lia. }
  split_and!.
  - unfold src_local_start. by rewrite Z.mul_0_r.
  - rewrite share_start_floor by (done || lia).
    rewrite Z.div_mul; lia.
  - intros r Hr.
    rewrite (src_local_length_floor r W N Hr HW31 HN Hfit).
    rewrite !share_start_floor by (done || lia).
    replace (Z.of_nat (S r)) with (Z.of_nat r + 1) by lia.
    pose proof (Z.div_le_mono (N * Z.of_nat r) (N * (Z.of_nat r + 1))
                  (Z.of_nat W) ltac:(lia) ltac:(nia)).
    lia.
  - unfold sample_targets. by rewrite length_fmap, length_seq.
  - intros i t Ht. destruct (Htarget i t Ht) as [Hi ->].
    split; [done|]. apply Hrange. lia.
  - intros i j ti tj Hij Hi Hj.
    destruct (Htarget i ti Hi) as [_ ->], (Htarget j tj Hj) as [? ->].
    apply Hmono; lia.
Qed.

Lemma shares_tile_witness :
  src_local_start 0 2 3 + src_local_length 0 2 3 = src_local_start 1 2 3
  ∧ sample_targets 2 3 = [1].
Proof.
  destruct (shares_tile 2 3) as (_ & _ & Htile & _); [lia..|].
  split; [exact (proj2 (Htile 0%nat ltac:(lia)))|reflexivity].
Defined.

End Shares.

(** * The work queue *)

Section WorkQueueFacts.
Import WorkQueue.

Lemma linked_ext next next' h l :
  (∀ w, w ∈ l → next' w = next w) → linked next h l → linked next' h l.
Proof.
  revert h. induction l as [|w l IH]; intros h Hext Hl; cbn in *; [done|].
  destruct Hl as [-> Hl]. split; [done|].
  rewrite Hext by left. apply IH; [|done]. intros w' Hw'. apply Hext. by right.
Qed.

Lemma linked_snoc next h l t w :
  last l = Some t → NoDup l → w ∉ l →
  linked next h l →
  linked (set_next t (Some w) (set_next w None next)) h (l ++ [w]).
Proof.
  revert h. induction l as [|x l IH]; intros h Hlast Hnd Hw Hl; [done|].
  cbn in Hl. destruct Hl as [-> Hl]. cbn [app linked]. split; [done|].
  apply NoDup_cons in Hnd as [Hx Hnd]. apply not_elem_of_cons in Hw as [Hwx Hw].
  destruct l as [|y l].
  - cbn in Hlast. injection Hlast as <-. cbn.
    assert (set_next x (Some w) (set_next w None next) x = Some w) as ->.
    { unfold set_next. by rewrite decide_True. }
    split; [done|]. unfold set_next.
    rewrite decide_False by congruence. by rewrite decide_True.
  - assert (x ≠ t) as Hxt.
    { intros ->. apply Hx. rewrite last_cons_cons in Hlast.
      by eapply last_Some_elem_of. }
    assert (set_next t (Some w) (set_next w None next) x = next x) as ->.
    { unfold set_next. rewrite !decide_False by congruence. done. }
    apply IH; try done; by rewrite last_cons_cons in Hlast.
Qed.

Lemma push_holds p l work :
  holds p l → work ∉ l → holds (thread_work_push work p) (l ++ [work]).
Proof.
  intros (Hl & Htail & Hnd) Hw. unfold thread_work_push, holds.
  destruct (work_tail p) as [t|] eqn:Et; cbn [work_head work_tail next].
  - split_and!.
    + apply linked_snoc; done.
    + by rewrite last_snoc.
    + apply NoDup_app. split_and!; [done| |apply NoDup_singleton].
      intros x Hx ->%list_elem_of_singleton. done.
  - symmetry in Htail. apply last_None in Htail as ->.
    cbn. unfold set_next. rewrite decide_True by done.
    split_and!; try done. apply NoDup_singleton.
Qed.

(** X14. The queue of the task pool is first in, first out.
    [thread_work_push] of an item that is not queued adds it at the end;
    [thread_work_pop] on a queue that is not empty returns its first item
    and leaves the others, in order; on an empty queue it returns [NULL]
    once [thread_release_all] was called and spins for ever otherwise. *)
Theorem work_queue_fifo (p : pool) (l : list nat) :
  holds p l →
  (∀ work, work ∉ l → holds (thread_work_push work p) (l ++ [work]))
  ∧ match l with
    | [] => thread_work_pop p = (if work_done p then Some (None, p) else None)
            ∧ thread_work_pop (thread_release_all p)
              = Some (None, thread_release_all p)
    | w :: l' => ∃ p', thread_work_pop p = Some (Some w, p') ∧ holds p' l'
    end.
Proof.
  intros (Hl & Htail & Hnd). split.
  - intros work Hw. by apply push_holds.
  - destruct l as [|w l'].
    + cbn in Hl. unfold thread_work_pop, thread_release_all. cbn.
      by rewrite Hl.
    + cbn in Hl. destruct Hl as [Hh Hl].
      unfold thread_work_pop. rewrite Hh. eexists. split; [done|].
      unfold holds. cbn [work_head work_tail next].
      apply NoDup_cons in Hnd as [_ Hnd]. split_and!; [done| |done].
      destruct l' as [|y l']; cbn in Hl.
      * by rewrite Hl.
      * destruct Hl as [-> _]. by rewrite last_cons_cons in Htail.
Qed.

Lemma work_queue_fifo_witness :
  let p0 := {| work_head := None; work_tail := None; work_done := false;
               next := λ _, None |} in
  holds (thread_work_push 7 (thread_work_push 3 p0)) [3; 7]%nat
  ∧ ∃ p', thread_work_pop (thread_work_push 7 (thread_work_push 3 p0))
          = Some (Some 3%nat, p') ∧ holds p' [7%nat].
Proof.
  intros p0.
  assert (holds p0 []) as H0 by (split_and!; [done|done|constructor]).
  pose proof (proj1 (work_queue_fifo p0 [] H0) 3%nat ltac:(apply not_elem_of_nil))
    as H1. cbn [app] in H1.
  pose proof (proj1 (work_queue_fifo _ _ H1) 7%nat
                ltac:(intros ?%list_elem_of_singleton; lia)) as H2.
  cbn [app] in H2. split; [exact H2|].
  exact (proj2 (work_queue_fifo _ _ H2)).
Defined.

Lemma pop_many_holds n : ∀ p l rest,
  holds p (l ++ rest) → length l = n →
  ∃ p', pop_many n p = Some (Some <$> l, p') ∧ holds p' rest.
Proof.
  induction n as [|n IH]; intros p l rest Hp Hlen.
  { destruct l; [|done]. by exists p. }
  destruct l as [|w l]; [done|]. cbn [app] in Hp.
  cbn [pop_many].
  destruct Hp as ((Hh & Hl) & Htail & Hnd).
  unfold thread_work_pop at 1. rewrite Hh.
  set (q := {| work_head := next p w |}).
  assert (holds q (l ++ rest)) as Hq.
  { apply NoDup_cons in Hnd as [_ Hnd].
    unfold holds, q. cbn [work_head work_tail next]. split_and!; [done| |done].
    destruct (l ++ rest) as [|y k] eqn:E; cbn in Hl.
    - by rewrite Hl.
    - destruct Hl as [-> _]. by rewrite last_cons_cons in Htail. }
  destruct (IH q l rest Hq) as (p' & -> & Hp'); [by injection Hlen|].
  exists p'. by split.
Qed.

Lemma push_many_holds ws : ∀ p l,
  holds p l → NoDup (l ++ ws) →
  holds (foldl (λ p w, thread_work_push w p) p ws) (l ++ ws).
Proof.
  induction ws as [|w ws IH]; intros p l Hp Hnd; cbn [foldl].
  { by rewrite app_nil_r. }
  assert (NoDup ((l ++ [w]) ++ ws)) as Hnd' by (by rewrite <- app_assoc).
  apply NoDup_app in Hnd as (_ & Hdis & _).
  assert (w ∉ l) as Hw by (intros Hin; apply (Hdis w Hin); left).
  assert (holds (thread_work_push w p) (l ++ [w])) as Hp'
    by (by apply push_holds).
  replace (l ++ w :: ws) with ((l ++ [w]) ++ ws) by (by rewrite <- app_assoc).
  by apply IH.
Qed.

(** X15. Items pushed on the empty queue come back in the order of the
    pushes: after [thread_work_push] of the different items of [ws], that
    many calls of [thread_work_pop] return them in that order and leave the
    queue empty. *)
Theorem work_queue_round_trip (ws : list nat) (done : bool) :
  NoDup ws →
  ∃ p', pop_many (length ws)
          (foldl (λ p w, thread_work_push w p)
             {| work_head := None; work_tail := None; work_done := done;
                next := λ _, None |} ws)
        = Some (Some <$> ws, p')
    ∧ work_head p' = None ∧ work_tail p' = None.
Proof.
  intros Hnd.
  set (p0 := {| work_head := None |}).
  assert (holds p0 []) as H0 by (split_and!; [done|done|constructor]).
  pose proof (push_many_holds ws p0 [] H0 Hnd) as Hp. cbn [app] in Hp.
  destruct (pop_many_holds (length ws) _ ws [] ltac:(by rewrite app_nil_r)
              eq_refl) as (p' & Hrun & (Hl & Ht & _)).
  exists p'. split; [done|]. cbn in Hl, Ht. done.
Qed.

Lemma work_queue_round_trip_witness :
  ∃ p', pop_many 3
          (foldl (λ p w, thread_work_push w p)
             {| work_head := None; work_tail := None; work_done := false;
                next := λ _, None |} [5; 2; 9]%nat)
        = Some ([Some 5; Some 2; Some 9]%nat, p')
    ∧ work_head p' = None ∧ work_tail p' = None.
Proof.
  apply (work_queue_round_trip [5; 2; 9]%nat false).
  repeat (apply NoDup_cons; split;
          [rewrite ?elem_of_cons, ?elem_of_nil, ?list_elem_of_singleton; lia
          |]).
  constructor.
Defined.

End WorkQueueFacts.
